(** * everscale-inpage-provider: subscription multiplexer and batch merge

    A shallow embedding of [src/index.ts]: the transaction merge
    ([mergeTransactions]), the interest aggregator ([foldSubscriptions]) and
    the subscription engine of [ProviderRpcClient] (topic registry, address
    interest registry, subscription handles and event fan-out). *)

From Stdlib Require Import ZArith String.
From stdpp Require Import gmap strings list sorting fin_maps.

Local Open Scope string_scope.
Local Open Scope list_scope.
Local Open Scope nat_scope.

(** ** Transactions and batch merging *)

Module Merge.

(** Modelled from the spec: [models.ts] is not among the sources.  A
  transaction carries an identity that holds its logical time [lt]; the
  hash stands for the rest of the record. *)
Record TransactionId := { lt : string; hash : string }.
Record Transaction := { id : TransactionId }.

Inductive TransactionsBatchType := old | new.

Record TransactionsBatchInfo := {
minLt : string;
maxLt : string;
batchType : TransactionsBatchType
}.

Definition isOld (t : TransactionsBatchType) : bool :=
match t with old => true | new => false end.

(** [tx l] is the record [{id: {lt: l}}] of the examples. *)
Definition tx (l : string) : Transaction := {| id := {| lt := l; hash := "" |} |}.

(** Code-unit lexicographic comparison as a number; on strings of ASCII
  digits it has the sign of [String.prototype.localeCompare]. *)
Definition lexCompare (a b : string) : Z :=
match String.compare a b with
| Lt => (-1)%Z
| Eq => 0%Z
| Gt => 1%Z
end.

Section WithCollation.

(** [a.localeCompare(b)] is a host built-in whose value depends on the
    collation in use; the merge only looks at its sign. *)
Variable localeCompare : string → string → Z.

(** The [while] loop of [mergeTransactions]: [rest] is the part of
    [knownTransactions] from index [i] on. *)
Fixpoint skipNewer (maxLt : string) (rest : list Transaction) (i : nat) : nat :=
  match rest with
  | [] => i
  | t :: rest' =>
      if (0 <=? localeCompare (lt (id t)) maxLt)%Z
      then skipNewer maxLt rest' (S i)
      else i
  end.

(** [arr.splice(i, 0, ...items)] for [i <= arr.length]. *)
Definition splice {A} (arr : list A) (i : nat) (items : list A) : list A :=
  take i arr ++ items ++ drop i arr.

(** The array is updated in place and returned; the model returns its new
    contents. *)
Definition mergeTransactions
    (knownTransactions newTransactions : list Transaction)
    (info : TransactionsBatchInfo) : list Transaction :=
  if isOld (batchType info) then knownTransactions ++ newTransactions
  else if (length knownTransactions =? 0)%nat then knownTransactions ++ newTransactions
  else
    let i := skipNewer (maxLt info) knownTransactions 0 in
    splice knownTransactions i newTransactions.

End WithCollation.

End Merge.

(** ** Interest flags and their aggregation *)

(** Modelled from the spec: [ContractUpdatesSubscription] is declared in
    [models.ts]; it is the pair of interest flags. *)
Record ContractUpdatesSubscription := {
  state : bool;
  transactions : bool
}.

Global Instance ContractUpdatesSubscription_eq_dec : EqDecision ContractUpdatesSubscription.
Proof. solve_decision. Defined.

(** A flags object as the engine sees it: a heap reference, which is its
    identity, and its fields.  The objects stored in a bucket are never
    written after their creation. *)
Record FlagsObject := {
  ref : nat;
  flags : ContractUpdatesSubscription
}.

Global Instance FlagsObject_eq_dec : EqDecision FlagsObject.
Proof. solve_decision. Defined.

Definition noInterest : ContractUpdatesSubscription :=
  {| state := false; transactions := false |}.

Definition orFlags (a b : ContractUpdatesSubscription) : ContractUpdatesSubscription :=
  {| state := state a || state b; transactions := transactions a || transactions b |}.

(** The boolean OR of a collection of flags. *)
Definition unionOf (l : list ContractUpdatesSubscription) : ContractUpdatesSubscription :=
  foldr orFlags noInterest l.

(** [item != except]: two objects are compared by reference; an object
    always differs from [undefined] (here [None]). *)
Definition notSameObject (item : FlagsObject) (except : option FlagsObject) : bool :=
  match except with
  | None => true
  | Some e => negb (ref item =? ref e)%nat
  end.

(** The [for ... of] loop of [foldSubscriptions], with its [break]. *)
Fixpoint foldLoop (items : list FlagsObject) (except : option FlagsObject)
    (total withoutExcluded : ContractUpdatesSubscription)
    : ContractUpdatesSubscription * ContractUpdatesSubscription :=
  match items with
  | [] => (total, withoutExcluded)
  | item :: rest =>
      if transactions withoutExcluded && state withoutExcluded
      then (total, withoutExcluded)
      else
        let total' := {| state := state total || state (flags item);
                         transactions := transactions total || transactions (flags item) |} in
        let withoutExcluded' :=
          if notSameObject item except
          then {| state := state withoutExcluded || state (flags item);
                  transactions := transactions withoutExcluded || transactions (flags item) |}
          else withoutExcluded in
        foldLoop rest except total' withoutExcluded'
  end.

(** Returns [(total, withoutExcluded)]. *)
Definition foldSubscriptions (subscriptions : list FlagsObject) (except : option FlagsObject)
    : ContractUpdatesSubscription * ContractUpdatesSubscription :=
  foldLoop subscriptions except noInterest noInterest.

(** The same loop with the [break] taken out, to compare against. *)
Fixpoint foldLoopNoBreak (items : list FlagsObject) (except : option FlagsObject)
    (total withoutExcluded : ContractUpdatesSubscription)
    : ContractUpdatesSubscription * ContractUpdatesSubscription :=
  match items with
  | [] => (total, withoutExcluded)
  | item :: rest =>
      let total' := {| state := state total || state (flags item);
                       transactions := transactions total || transactions (flags item) |} in
      let withoutExcluded' :=
        if notSameObject item except
        then {| state := state withoutExcluded || state (flags item);
                transactions := transactions withoutExcluded || transactions (flags item) |}
        else withoutExcluded in
      foldLoopNoBreak rest except total' withoutExcluded'
  end.

Definition foldSubscriptionsNoBreak (subscriptions : list FlagsObject)
    (except : option FlagsObject) :=
  foldLoopNoBreak subscriptions except noInterest noInterest.

(** [withoutExcluded] holds no flag that [total] lacks. *)
Definition covers (total withoutExcluded : ContractUpdatesSubscription) : Prop :=
  orFlags withoutExcluded total = total.

(** The entries of a collection that are not the excluded object. *)
Definition others (subscriptions : list FlagsObject) (except : option FlagsObject)
    : list FlagsObject :=
  filter (λ item, notSameObject item except = true) subscriptions.

(** ** The provider client: registries, handles and effects *)

(** A caller's listener is an opaque function; it is identified by a name and
    its invocations are recorded.  Listeners are taken not to call back into
    the client while they run. *)
Definition Listener := nat.

(** Payload of a raw event: the address it concerns, if any, and the rest. *)
Record EventData := {
  data_address : option string;
  data_body : nat
}.

(** What an operation does to the outside: calls of the upstream API and
    invocations of listeners. *)
Inductive Effect :=
  | ApiSubscribe (address : string) (subscriptions : ContractUpdatesSubscription)
  | ApiUnsubscribe (address : string)
  | Call (listener : Listener) (arg : option EventData).

Inductive Error :=
  | UnknownEvent (eventName : string)
  | TypeError
  | UpstreamError.

Inductive Result (A : Type) :=
  | Ok (a : A)
  | Throw (e : Error).
Arguments Ok {A} a.
Arguments Throw {A} e.

Inductive SubscriptionEvent := data | subscribed | unsubscribed.

Record Listeners := {
  on_data : list Listener;
  on_subscribed : list Listener;
  on_unsubscribed : list Listener
}.

(** The two closures handed to [new Subscription(...)], with the variables
    they capture: one pair per branch of the [switch]. *)
Inductive Actions :=
  | SimpleActions (eventName : string) (id : nat)
  | ContractActions (eventName : string) (id : nat) (address : string).

Record Subscription := {
  actions : Actions;
  _listeners : Listeners
}.

(** A callback stored in the topic registry; [subscription] refers to the
    [Subscription] object the closure captured. *)
Inductive Handler :=
  | Forward (subscription : nat)
  | ForwardIfAddress (address : string) (subscription : nat).

(** A JS object with numeric keys is a finite map; [Object.values] lists its
    values by ascending key. *)
Definition keyLe {V} (x y : nat * V) : Prop := (x.1 ≤ y.1)%nat.

Global Instance keyLe_dec {V} : RelDecision (@keyLe V).
Proof. intros x y. unfold keyLe. apply _. Defined.

Definition Object_values {V} (o : gmap nat V) : list V :=
  (merge_sort keyLe (map_to_list o)).*2.

Record ProviderRpcClient := {
  _subscriptions : gmap string (gmap nat Handler);
  _contractSubscriptions : gmap string (gmap nat FlagsObject)
}.

(** The client together with what lives around it: the counter behind
    [getUniqueId], the allocator of flags objects and the [Subscription]
    objects, each stored under the id it was created with. *)
Record World := {
  provider : ProviderRpcClient;
  idCounter : nat;
  nextRef : nat;
  objects : gmap nat Subscription
}.

Definition initial : World := {|
  provider := {| _subscriptions := ∅; _contractSubscriptions := ∅ |};
  idCounter := 0;
  nextRef := 0;
  objects := ∅
|}.

Definition setProvider (p : ProviderRpcClient) (w : World) : World :=
  {| provider := p; idCounter := idCounter w; nextRef := nextRef w; objects := objects w |}.

Definition setObjects (o : gmap nat Subscription) (w : World) : World :=
  {| provider := provider w; idCounter := idCounter w; nextRef := nextRef w; objects := o |}.

(** Modelled from the spec: [getUniqueId] lives in [utils.ts]; ids are
    process-unique and assigned monotonically. *)
Definition getUniqueId (w : World) : nat * World :=
  (idCounter w,
   {| provider := provider w; idCounter := S (idCounter w);
      nextRef := nextRef w; objects := objects w |}).

(** The table of a topic.  Once [_getEventSubscriptions] has created it, the
    table object of a topic is never replaced, so the [existingSubscriptions]
    a closure captured is always the table found under its topic. *)
Definition tableOf (p : ProviderRpcClient) (eventName : string) : gmap nat Handler :=
  default ∅ (_subscriptions p !! eventName).

Definition bucketOf (p : ProviderRpcClient) (address : string) : gmap nat FlagsObject :=
  default ∅ (_contractSubscriptions p !! address).

(** The member names every plain object inherits from [Object.prototype]:
    reading one of them from an object literal that has no such key of its
    own yields a function (the prototype itself for [__proto__]), never
    [undefined]. *)
Definition Object_prototype : list string :=
  ["constructor"; "hasOwnProperty"; "isPrototypeOf"; "propertyIsEnumerable";
   "toLocaleString"; "toString"; "valueOf"; "__proto__";
   "__defineGetter__"; "__defineSetter__"; "__lookupGetter__"; "__lookupSetter__"].

(** [this._subscriptions[eventName]] is [null] or [undefined] only when the
    registry has no table of its own under the name and the name is not an
    inherited member; only then a table is created. *)
Definition _getEventSubscriptions (eventName : string) (p : ProviderRpcClient)
    : ProviderRpcClient :=
  match _subscriptions p !! eventName with
  | Some _ => p
  | None =>
      if bool_decide (eventName ∈ Object_prototype) then p
      else {| _subscriptions := <[eventName := ∅]> (_subscriptions p);
              _contractSubscriptions := _contractSubscriptions p |}
  end.

(** [existingSubscriptions[id] = handler] *)
Definition setHandler (eventName : string) (id : nat) (h : Handler)
    (p : ProviderRpcClient) : ProviderRpcClient :=
  {| _subscriptions := <[eventName := <[id := h]> (tableOf p eventName)]> (_subscriptions p);
     _contractSubscriptions := _contractSubscriptions p |}.

(** [delete existingSubscriptions[id]] *)
Definition deleteHandler (eventName : string) (id : nat)
    (p : ProviderRpcClient) : ProviderRpcClient :=
  {| _subscriptions := alter (delete id) eventName (_subscriptions p);
     _contractSubscriptions := _contractSubscriptions p |}.

Definition setBucket (address : string) (b : gmap nat FlagsObject)
    (p : ProviderRpcClient) : ProviderRpcClient :=
  {| _subscriptions := _subscriptions p;
     _contractSubscriptions := <[address := b]> (_contractSubscriptions p) |}.

(** The object literal built at [contractSubscriptions[id] = {...}]. *)
Definition flagsFor (eventName : string) : ContractUpdatesSubscription :=
  {| state := bool_decide (eventName = "contractStateChanged");
     transactions := bool_decide (eventName = "transactionsFound") |}.

(** [total.transactions != withoutExcluded.transactions ||
     total.state != withoutExcluded.state] *)
Definition differ (a b : ContractUpdatesSubscription) : bool :=
  negb (eqb (transactions a) (transactions b)) || negb (eqb (state a) (state b)).

(** An awaited upstream call: it is issued, and [upstream] tells whether the
    transport resolves it. *)
Definition await (upstream : bool) (call : Effect) (w : World)
    : Result unit * World * list Effect :=
  ((if upstream then Ok tt else Throw UpstreamError), w, [call]).

(** The closure passed as [_subscribe]: add the interest of [id]. *)
Definition _subscribe (a : Actions) (upstream : bool) (w : World)
    : Result unit * World * list Effect :=
  match a with
  | SimpleActions eventName id =>
      match tableOf (provider w) eventName !! id with
      | Some _ => (Ok tt, w, [])
      | None => (Ok tt, setProvider (setHandler eventName id (Forward id) (provider w)) w, [])
      end
  | ContractActions eventName id address =>
      match tableOf (provider w) eventName !! id with
      | Some _ => (Ok tt, w, [])
      | None =>
          let p1 := setHandler eventName id (ForwardIfAddress address id) (provider w) in
          let created := {| ref := nextRef w; flags := flagsFor eventName |} in
          let contractSubscriptions := <[id := created]> (bucketOf p1 address) in
          let p2 := setBucket address contractSubscriptions p1 in
          let w2 := {| provider := p2; idCounter := idCounter w;
                       nextRef := S (nextRef w); objects := objects w |} in
          let '(total, withoutExcluded) :=
            foldSubscriptions (Object_values contractSubscriptions)
                              (contractSubscriptions !! id) in
          if differ total withoutExcluded then
            if upstream then (Ok tt, w2, [ApiSubscribe address total])
            else
              let p3 := setBucket address (delete id contractSubscriptions)
                          (deleteHandler eventName id p2) in
              (Throw UpstreamError, setProvider p3 w2, [ApiSubscribe address total])
          else (Ok tt, w2, [])
      end
  end.

(** The closure passed as [_unsubscribe]: remove the interest of [id]. *)
Definition _unsubscribe (a : Actions) (upstream : bool) (w : World)
    : Result unit * World * list Effect :=
  match a with
  | SimpleActions eventName id =>
      (Ok tt, setProvider (deleteHandler eventName id (provider w)) w, [])
  | ContractActions eventName id address =>
      let p1 := deleteHandler eventName id (provider w) in
      match _contractSubscriptions p1 !! address with
      | None => (Ok tt, setProvider p1 w, [])
      | Some contractSubscriptions =>
          let updates := contractSubscriptions !! id in
          let '(total, withoutExcluded) :=
            foldSubscriptions (Object_values contractSubscriptions) updates in
          let w2 := setProvider (setBucket address (delete id contractSubscriptions) p1) w in
          if negb (transactions withoutExcluded) && negb (state withoutExcluded) then
            await upstream (ApiUnsubscribe address) w2
          else if differ total withoutExcluded then
            await upstream (ApiSubscribe address withoutExcluded) w2
          else (Ok tt, w2, [])
      end
  end.

(** *** The [Subscription] class *)

Definition noListeners : Listeners :=
  {| on_data := []; on_subscribed := []; on_unsubscribed := [] |}.

Definition listenersFor (e : SubscriptionEvent) (l : Listeners) : list Listener :=
  match e with
  | data => on_data l
  | subscribed => on_subscribed l
  | unsubscribed => on_unsubscribed l
  end.

(** [this._listeners[eventName].push(listener)] *)
Definition pushListener (e : SubscriptionEvent) (listener : Listener) (l : Listeners)
    : Listeners :=
  match e with
  | data =>
      {| on_data := on_data l ++ [listener]; on_subscribed := on_subscribed l;
         on_unsubscribed := on_unsubscribed l |}
  | subscribed =>
      {| on_data := on_data l; on_subscribed := on_subscribed l ++ [listener];
         on_unsubscribed := on_unsubscribed l |}
  | unsubscribed =>
      {| on_data := on_data l; on_subscribed := on_subscribed l;
         on_unsubscribed := on_unsubscribed l ++ [listener] |}
  end.

(** The listeners of the object behind reference [s], as they are now. *)
Definition listenersOf (s : nat) (e : SubscriptionEvent) (w : World) : list Listener :=
  match objects w !! s with
  | Some sub => listenersFor e (_listeners sub)
  | None => []
  end.

Definition Subscription_on (s : nat) (e : SubscriptionEvent) (listener : Listener)
    (w : World) : World :=
  match objects w !! s with
  | Some sub =>
      setObjects (<[s := {| actions := actions sub;
                            _listeners := pushListener e listener (_listeners sub) |}]>
                    (objects w)) w
  | None => w
  end.

(** [for (const handler of this._listeners[e]) handler(arg)], with listeners
    that return; [callEach] below is the loop with listeners that may
    throw. *)
Definition fire (s : nat) (e : SubscriptionEvent) (arg : option EventData) (w : World)
    : list Effect :=
  map (λ handler, Call handler arg) (listenersOf s e w).

(** [Subscription.subscribe] and [Subscription.unsubscribe] with listeners
    that return: the operation then settles as its closure does.
    [Subscription_subscribe_with] and [Subscription_unsubscribe_with] below
    cover listeners that throw and agree with these when none does. *)
Definition Subscription_subscribe (s : nat) (upstream : bool) (w : World)
    : Result unit * World * list Effect :=
  match objects w !! s with
  | None => (Ok tt, w, [])
  | Some sub =>
      match _subscribe (actions sub) upstream w with
      | (Ok _, w', effects) => (Ok tt, w', effects ++ fire s subscribed None w')
      | (Throw e, w', effects) => (Throw e, w', effects)
      end
  end.

Definition Subscription_unsubscribe (s : nat) (upstream : bool) (w : World)
    : Result unit * World * list Effect :=
  match objects w !! s with
  | None => (Ok tt, w, [])
  | Some sub =>
      match _unsubscribe (actions sub) upstream w with
      | (Ok _, w', effects) => (Ok tt, w', effects ++ fire s unsubscribed None w')
      | (Throw e, w', effects) => (Throw e, w', effects)
      end
  end.

(** ** Listeners that throw *)

(** A listener is the caller's code and may throw.  [throws i l] says that
    the call of [l] made at position [i] of a loop over listeners throws; the
    loop then stops, with that call made and the later ones not. *)
Fixpoint callEach (throws : nat → Listener → bool) (arg : option EventData)
    (i : nat) (listeners : list Listener) : list Effect * option Listener :=
  match listeners with
  | [] => ([], None)
  | l :: rest =>
      if throws i l then ([Call l arg], Some l)
      else let '(calls, thrown) := callEach throws arg (S i) rest in
           (Call l arg :: calls, thrown)
  end.

(** How [subscribe()] or [unsubscribe()] settles: it resolves, or it rejects
    with the error of its closure, or with what a listener threw. *)
Inductive Settled :=
  | Resolved
  | Rejected (e : Error)
  | ListenerThrew (l : Listener).

(** [Subscription.subscribe] with listeners that may throw;
    [Subscription_subscribe] is the case in which every listener returns. *)
Definition Subscription_subscribe_with (throws : nat → Listener → bool)
    (s : nat) (upstream : bool) (w : World) : Settled * World * list Effect :=
  match objects w !! s with
  | None => (Resolved, w, [])
  | Some sub =>
      match _subscribe (actions sub) upstream w with
      | (Ok _, w', effects) =>
          let '(calls, thrown) := callEach throws None 0 (listenersOf s subscribed w') in
          (match thrown with None => Resolved | Some l => ListenerThrew l end,
           w', effects ++ calls)
      | (Throw e, w', effects) => (Rejected e, w', effects)
      end
  end.

(** [Subscription.unsubscribe] with listeners that may throw. *)
Definition Subscription_unsubscribe_with (throws : nat → Listener → bool)
    (s : nat) (upstream : bool) (w : World) : Settled * World * list Effect :=
  match objects w !! s with
  | None => (Resolved, w, [])
  | Some sub =>
      match _unsubscribe (actions sub) upstream w with
      | (Ok _, w', effects) =>
          let '(calls, thrown) := callEach throws None 0 (listenersOf s unsubscribed w') in
          (match thrown with None => Resolved | Some l => ListenerThrew l end,
           w', effects ++ calls)
      | (Throw e, w', effects) => (Rejected e, w', effects)
      end
  end.

(** The settlement of the handle operations when no listener throws. *)
Definition settled (r : Result unit) : Settled :=
  match r with
  | Ok _ => Resolved
  | Throw e => Rejected e
  end.

Definition Subscription_notify (s : nat) (d : EventData) (w : World) : list Effect :=
  fire s data (Some d) w.

(** *** Event fan-out *)

Definition knownEvents : list string :=
  ["disconnected"; "transactionsFound"; "contractStateChanged";
   "networkChanged"; "permissionsChanged"; "loggedOut"].

(** Running a registered callback on a payload. *)
Definition runHandler (h : Handler) (d : EventData) (w : World) : list Effect :=
  match h with
  | Forward s => Subscription_notify s d w
  | ForwardIfAddress address s =>
      if bool_decide (data_address d = Some address)
      then Subscription_notify s d w
      else []
  end.

(** The transport raises [eventName] with payload [d]: the listener that the
    constructor installed for each known event runs. *)
Definition emit (eventName : string) (d : EventData) (w : World) : list Effect :=
  if bool_decide (eventName ∈ knownEvents) then
    match _subscriptions (provider w) !! eventName with
    | None => []
    | Some handlers => flat_map (λ handler, runHandler handler d w) (Object_values handlers)
    end
  else [].

(** *** [ProviderRpcClient.subscribe] *)

Definition simpleEvents : list string :=
  ["disconnected"; "networkChanged"; "permissionsChanged"; "loggedOut"].

Definition contractEvents : list string :=
  ["transactionsFound"; "contractStateChanged"].

(** [new Subscription(...)] followed by [await subscription.subscribe()]; the
    object is stored under [id], and when the first [subscribe] throws nobody
    ever receives it, so it is dropped again. *)
Definition openWith (a : Actions) (id : nat) (upstream : bool) (w : World)
    : Result nat * World * list Effect :=
  let w1 := setObjects (<[id := {| actions := a; _listeners := noListeners |}]> (objects w)) w in
  match Subscription_subscribe id upstream w1 with
  | (Ok _, w2, effects) => (Ok id, w2, effects)
  | (Throw e, w2, effects) => (Throw e, setObjects (delete id (objects w2)) w2, effects)
  end.

(** [params] is the address given by the caller, if any.  The result is the
    reference of the new [Subscription]. *)
Definition subscribe (eventName : string) (params : option string) (upstream : bool)
    (w : World) : Result nat * World * list Effect :=
  let w1 := setProvider (_getEventSubscriptions eventName (provider w)) w in
  let '(id, w2) := getUniqueId w1 in
  if bool_decide (eventName ∈ simpleEvents) then
    openWith (SimpleActions eventName id) id upstream w2
  else if bool_decide (eventName ∈ contractEvents) then
    match params with
    | None => (Throw TypeError, w2, [])
    | Some address => openWith (ContractActions eventName id address) id upstream w2
    end
  else (Throw (UnknownEvent eventName), w2, []).

(** *** Sequences of operations *)

Inductive Op :=
  | OpSubscribe (eventName : string) (params : option string) (upstream : bool)
  | OpOn (s : nat) (e : SubscriptionEvent) (listener : Listener)
  | OpResubscribe (s : nat) (upstream : bool)
  | OpUnsubscribe (s : nat) (upstream : bool)
  | OpEmit (eventName : string) (d : EventData).

Definition step (w : World) (op : Op) : World * list Effect :=
  match op with
  | OpSubscribe eventName params upstream =>
      let '(_, w', effects) := subscribe eventName params upstream w in (w', effects)
  | OpOn s e listener => (Subscription_on s e listener w, [])
  | OpResubscribe s upstream =>
      let '(_, w', effects) := Subscription_subscribe s upstream w in (w', effects)
  | OpUnsubscribe s upstream =>
      let '(_, w', effects) := Subscription_unsubscribe s upstream w in (w', effects)
  | OpEmit eventName d => (w, emit eventName d w)
  end.

(** Operations run one after the other, none overlapping another. *)
Fixpoint run (ops : list Op) (w : World) : World * list Effect :=
  match ops with
  | [] => (w, [])
  | op :: rest =>
      let '(w1, e1) := step w op in
      let '(w2, e2) := run rest w1 in
      (w2, e1 ++ e2)
  end.

Definition reachable (w : World) : Prop := ∃ ops, (run ops initial).1 = w.

(** The upstream calls among some effects. *)
Definition isApiCall (e : Effect) : bool :=
  match e with
  | Call _ _ => false
  | _ => true
  end.

Definition apiCalls (effects : list Effect) : list Effect := filter (λ e, isApiCall e = true) effects.

(** The boolean OR of all flags registered for an address. *)
Definition aggregate (bucket : gmap nat FlagsObject) : ContractUpdatesSubscription :=
  unionOf (flags <$> Object_values bucket).

Definition actionsEvent (a : Actions) : string :=
  match a with
  | SimpleActions eventName _ => eventName
  | ContractActions eventName _ _ => eventName
  end.

Definition actionsId (a : Actions) : nat :=
  match a with
  | SimpleActions _ id => id
  | ContractActions _ id _ => id
  end.

(** The callback the first closure of a handle stores for the
    [Subscription] object [s]. *)
Definition handlerOf (a : Actions) (s : nat) : Handler :=
  match a with
  | SimpleActions _ _ => Forward s
  | ContractActions _ _ address => ForwardIfAddress address s
  end.

(** A raw event with payload [d] on the topic of a handle is meant for it:
    the topic is one the client listens to and, for an address-scoped
    handle, the payload carries the handle's address. *)
Definition meantFor (a : Actions) (d : EventData) : Prop :=
  actionsEvent a ∈ knownEvents
  ∧ match a with
    | SimpleActions _ _ => True
    | ContractActions _ _ address => data_address d = Some address
    end.

(** ** Upstream calls against registered interest *)

(** The OR of the flags registered for [address] in a world. *)
Definition aggregateAt (w : World) (address : string) : ContractUpdatesSubscription :=
  aggregate (bucketOf (provider w) address).

(** The one upstream call that conveys an aggregate: unsubscribe when nobody
    wants anything, subscribe with the aggregate otherwise. *)
Definition callFor (address : string) (wanted : ContractUpdatesSubscription) : Effect :=
  if decide (wanted = noInterest) then ApiUnsubscribe address
  else ApiSubscribe address wanted.

(** An operation that took [w] to [w'] kept upstream in step with the
    registry of [address]: it issued a call exactly when the aggregate
    changed, and that call conveys the aggregate registered afterwards. *)
Definition inSync (address : string) (w w' : World) (effects : list Effect) : Prop :=
  apiCalls effects
  = if decide (aggregateAt w' address = aggregateAt w address) then []
    else [callFor address (aggregateAt w' address)].

(** What an add of flags [new] for [address] must have done when it took [w]
    to [w'] with result [r]: it issued subscribe with the new total exactly
    when that total differs from the aggregate without the new entry; when
    it completed, the new total is registered and upstream is in step; when
    it threw, a call had been issued and the registered aggregate is the one
    from before. *)
Definition addInSync {A} (address : string) (new : ContractUpdatesSubscription)
    (w : World) (r : Result A) (w' : World) (effects : list Effect) : Prop :=
  let before := aggregateAt w address in
  let total := orFlags new before in
  apiCalls effects = (if decide (total = before) then [] else [ApiSubscribe address total])
  ∧ match r with
    | Ok _ => aggregateAt w' address = total ∧ inSync address w w' effects
    | Throw _ => total ≠ before ∧ aggregateAt w' address = before
    end.

(** What a remove of the entry of [id] must have done: the entry is gone,
    unsubscribe was issued when nothing is left, subscribe with what is left
    when that differs from the previous total, and nothing otherwise. *)
Definition removeInSync (address : string) (id : nat)
    (w w' : World) (effects : list Effect) : Prop :=
  let before := aggregateAt w address in
  let rest := aggregateAt w' address in
  bucketOf (provider w') address = delete id (bucketOf (provider w) address)
  ∧ apiCalls effects
    = (if decide (rest = noInterest) then [ApiUnsubscribe address]
       else if decide (rest = before) then []
       else [ApiSubscribe address rest])
  ∧ inSync address w w' effects.

(** ** Well-formed worlds *)

(** A handle is active when its id has a callback in the table of its topic. *)
Definition active (a : Actions) (p : ProviderRpcClient) : Prop :=
  is_Some (tableOf p (actionsEvent a) !! actionsId a).

(** The topic a pair of closures may have been built for. *)
Definition actionsTopicOk (a : Actions) : Prop :=
  match a with
  | SimpleActions eventName _ => eventName ∈ simpleEvents
  | ContractActions eventName _ _ => eventName ∈ contractEvents
  end.

(** No two entries of a bucket are the same object. *)
Definition refsDistinct (b : gmap nat FlagsObject) : Prop :=
  ∀ i j x y, b !! i = Some x → b !! j = Some y → ref x = ref y → i = j.

(** What every world produced by the operations satisfies: each bucket entry
    was put there by the handle of its id, which is active and watches that
    address; objects of a bucket are distinct and already allocated; each
    callback belongs to a stored handle; each handle was created through
    [subscribe]. *)
Record consistent (w : World) : Prop := {
  entry_owned : ∀ address b id o,
    _contractSubscriptions (provider w) !! address = Some b → b !! id = Some o →
    ref o < nextRef w
    ∧ ∃ eventName sub,
        objects w !! id = Some sub
        ∧ actions sub = ContractActions eventName id address
        ∧ is_Some (tableOf (provider w) eventName !! id)
        ∧ flags o = flagsFor eventName;
  entry_refs : ∀ address b,
    _contractSubscriptions (provider w) !! address = Some b → refsDistinct b;
  handler_owned : ∀ eventName id h,
    tableOf (provider w) eventName !! id = Some h → is_Some (objects w !! id);
  object_ok : ∀ s sub,
    objects w !! s = Some sub →
    s < idCounter w
    ∧ actionsId (actions sub) = s
    ∧ is_Some (_subscriptions (provider w) !! actionsEvent (actions sub))
    ∧ actionsTopicOk (actions sub)
}.

(** The world after the interest of [id] was added for [address], and the
    one after that addition was undone. *)
Definition added (eventName : string) (id : nat) (address : string) (w : World) : World :=
  let p1 := setHandler eventName id (ForwardIfAddress address id) (provider w) in
  let created := {| ref := nextRef w; flags := flagsFor eventName |} in
  {| provider := setBucket address (<[id := created]> (bucketOf p1 address)) p1;
     idCounter := idCounter w; nextRef := S (nextRef w); objects := objects w |}.

Definition rolledBack (eventName : string) (id : nat) (address : string) (w : World) : World :=
  let p1 := setHandler eventName id (ForwardIfAddress address id) (provider w) in
  let created := {| ref := nextRef w; flags := flagsFor eventName |} in
  let contractSubscriptions := <[id := created]> (bucketOf p1 address) in
  let p2 := setBucket address contractSubscriptions p1 in
  {| provider := setBucket address (delete id contractSubscriptions)
                   (deleteHandler eventName id p2);
     idCounter := idCounter w; nextRef := S (nextRef w); objects := objects w |}.

(** The registries as they were, with the bucket of [address] in place and
    one more object allocated. *)
Definition undone (address : string) (w : World) : World :=
  {| provider := setBucket address (bucketOf (provider w) address) (provider w);
     idCounter := idCounter w; nextRef := S (nextRef w); objects := objects w |}.

(** The world after the interest of [id] was removed from bucket [b]. *)
Definition removed (eventName : string) (id : nat) (address : string)
    (b : gmap nat FlagsObject) (w : World) : World :=
  setProvider (setBucket address (delete id b) (deleteHandler eventName id (provider w))) w.

(** ** Descending histories *)

(** [a] does not come after [b] in a history sorted by descending logical
    time, duplicates allowed: [a.id.lt.localeCompare(b.id.lt) >= 0]. *)
Definition descending (localeCompare : string → string → Z)
    (a b : Merge.Transaction) : Prop :=
  (0 ≤ localeCompare (Merge.lt (Merge.id a)) (Merge.lt (Merge.id b)))%Z.

(** Objects that share a reference are one object and so carry the same
    flags. *)
Definition sameHeap (items : list FlagsObject) (e : FlagsObject) : Prop :=
  ∀ item, item ∈ items → ref item = ref e → flags item = flags e.

(** ** Registries that agree *)

(** Every callback in a topic table was stored by the handle of its id, for
    that topic, and is the callback that handle stores; and an address-scoped
    handle that is active has its entry in the bucket of its address. *)
Record coherent (w : World) : Prop := {
  handler_routed : ∀ eventName id h,
    tableOf (provider w) eventName !! id = Some h →
    ∃ sub, objects w !! id = Some sub
      ∧ actionsEvent (actions sub) = eventName
      ∧ h = handlerOf (actions sub) id;
  active_entry : ∀ s sub eventName address,
    objects w !! s = Some sub →
    actions sub = ContractActions eventName s address →
    is_Some (tableOf (provider w) eventName !! s) →
    is_Some (bucketOf (provider w) address !! s)
}.

(** The address an upstream call is about. *)
Definition callAddress (e : Effect) : option string :=
  match e with
  | ApiSubscribe address _ => Some address
  | ApiUnsubscribe address => Some address
  | Call _ _ => None
  end.

(** ** What upstream has been told *)

(** The interest upstream holds for [address] after a call that it accepted:
    a subscribe replaces it, an unsubscribe clears it, anything else leaves
    it as it is. *)
Definition applyCall (address : string) (held : ContractUpdatesSubscription)
    (e : Effect) : ContractUpdatesSubscription :=
  match e with
  | ApiSubscribe a wanted => if decide (a = address) then wanted else held
  | ApiUnsubscribe a => if decide (a = address) then noInterest else held
  | Call _ _ => held
  end.

Definition upstreamOf (address : string) (held : ContractUpdatesSubscription)
    (effects : list Effect) : ContractUpdatesSubscription :=
  foldl (applyCall address) held effects.

(** The transport accepts the upstream call of an operation, if it issues one. *)
Definition accepted (op : Op) : bool :=
  match op with
  | OpSubscribe _ _ upstream => upstream
  | OpResubscribe _ upstream => upstream
  | OpUnsubscribe _ upstream => upstream
  | OpOn _ _ _ => true
  | OpEmit _ _ => true
  end.

(** ** The contract wrapper *)

(** [Contract] wraps an ABI and an address.  The token conversions of
    [utils] and the answers of the transport are parameters; an object used
    as a name-indexed table is a finite map, and a member that may be
    [undefined] is an [option]. *)
Module ContractClass.

Inductive Exception :=
  | JsError (message : string)
  | TvmException (code : Z)
  | JsTypeError
  | Foreign (reason : string).

(** An [async] body either returns or throws. *)
Inductive Outcome (A : Type) :=
  | Returned (a : A)
  | Thrown (e : Exception).
Arguments Returned {A} a.
Arguments Thrown {A} e.

Definition andThen {A B} (o : Outcome A) (k : A → Outcome B) : Outcome B :=
  match o with
  | Returned a => k a
  | Thrown e => Thrown e
  end.

#[global] Instance Outcome_bind : MBind Outcome := λ A B k o, andThen o k.

(** [try { ... } catch (_) { return undefined }]. *)
Definition orUndefined {A} (body : Outcome (option A)) : option A :=
  match body with
  | Returned result => result
  | Thrown _ => None
  end.

(** Reading member [f] of a value that may be [undefined]. *)
Definition member {A B} (o : option A) (f : A → B) : Outcome B :=
  match o with
  | Some a => Returned (f a)
  | None => Thrown JsTypeError
  end.

Record Message := {
  dst : option string;
  body : option string;
}.

Section WithUtilities.
Context {AbiParam TokensObject ParsedTokensObject Params Transaction : Type}.
Variable transformToSerializedObject : Params → Outcome TokensObject.
Variable transformToParsedObject :
  option (list AbiParam) → TokensObject → Outcome ParsedTokensObject.
(** The object literal [{}]. *)
Variable emptyObject : ParsedTokensObject.

Record ContractFunction := {
  name : string;
  inputs : option (list AbiParam);
  outputs : option (list AbiParam);
}.

(** An entry of [_functions] or [_events]; the latter has no [outputs]. *)
Record FunctionAbi := {
  fn_inputs : option (list AbiParam);
  fn_outputs : option (list AbiParam);
}.

(** The ABI object: [functions] and [events] are [None] when they are not
    arrays; [otherMembers] stands for everything else it carries. *)
Record Abi := {
  functions : option (list ContractFunction);
  events : option (list ContractFunction);
  otherMembers : string;
}.

(** A value that is neither [null] nor [undefined] and has no [inputs] and
    no [outputs] member: a function, an array, [Object.prototype]. *)
Definition opaque : FunctionAbi := {| fn_inputs := None; fn_outputs := None |}.

(** An object literal used as a table of entries.  [own] holds its own keys;
    [proto] is the entry that an assignment to [__proto__] made its
    prototype, when there was one: that entry's prototype is
    [Object.prototype], which otherwise is the table's. *)
Record Table := {
  own : gmap string FunctionAbi;
  proto : option FunctionAbi;
}.

Definition emptyTable : Table := {| own := ∅; proto := None |}.

(** Reading [name] from [Object.prototype]. *)
Definition fromObjectPrototype (name : string) : option FunctionAbi :=
  if bool_decide (name ∈ Object_prototype) then Some opaque else None.

(** Reading [name] from an entry that serves as prototype: its [inputs] and
    [outputs] members are arrays. *)
Definition fromEntry (entry : FunctionAbi) (name : string) : option FunctionAbi :=
  if decide (name = "inputs") then (λ _, opaque) <$> fn_inputs entry
  else if decide (name = "outputs") then (λ _, opaque) <$> fn_outputs entry
  else None.

(** Reading a name the table has no key for, along its prototype chain. *)
Definition lookupInherited (prototype : option FunctionAbi) (name : string)
    : option FunctionAbi :=
  match prototype with
  | Some entry =>
      if decide (name = "__proto__") then Some entry
      else match fromEntry entry name with
           | Some value => Some value
           | None => fromObjectPrototype name
           end
  | None => fromObjectPrototype name
  end.

(** [table[name]], seen through the [inputs] and [outputs] of what is found;
    [None] is [undefined]. *)
Definition getMember (table : Table) (name : string) : option FunctionAbi :=
  match own table !! name with
  | Some entry => Some entry
  | None => lookupInherited (proto table) name
  end.

(** [table[name] = entry]: the name [__proto__] reaches the inherited setter,
    which replaces the prototype and adds no key. *)
Definition setMember (table : Table) (name : string) (entry : FunctionAbi) : Table :=
  if decide (name = "__proto__") then {| own := own table; proto := Some entry |}
  else {| own := <[name := entry]> (own table); proto := proto table |}.

(** [_abi] and [_eventsAbi] hold the value whose serialisation is handed to
    the transport. *)
Record Contract := {
  _abi : Abi;
  _eventsAbi : Abi;
  _functions : Table;
  _events : Table;
  _address : string;
}.

Definition functionEntry (item : ContractFunction) : FunctionAbi :=
  {| fn_inputs := Some (default [] (inputs item));
     fn_outputs := Some (default [] (outputs item)) |}.

Definition eventEntry (item : ContractFunction) : FunctionAbi :=
  {| fn_inputs := Some (default [] (inputs item)); fn_outputs := None |}.

(** [items.reduce((table, item) => { table[item.name] = entry; return table }, {})] *)
Definition reduceInto (entry : ContractFunction → FunctionAbi)
    (items : list ContractFunction) : Table :=
  foldl (λ table item, setMember table (name item) (entry item)) emptyTable items.

Definition Contract_constructor (abi : Abi) (address : string) : Outcome Contract :=
  match functions abi with
  | None => Thrown (JsError "Invalid abi. Functions array required")
  | Some declared =>
      match events abi with
      | None => Thrown (JsError "Invalid abi. Events array required")
      | Some declaredEvents =>
          Returned {| _abi := abi;
                      _functions := reduceInto functionEntry declared;
                      _eventsAbi := {| functions := Some declaredEvents;
                                       events := None;
                                       otherMembers := otherMembers abi |};
                      _events := reduceInto eventEntry declaredEvents;
                      _address := address |}
      end
  end.

Record ContractMethod := {
  functionAbi : option FunctionAbi;
  abi : Abi;
  address : string;
  method : string;
  params : TokensObject;
}.

(** [contract.methods[method](params)] *)
Definition methods (c : Contract) (method : string) (params : Params)
    : Outcome ContractMethod :=
  serialized ← transformToSerializedObject params;
  Returned {| functionAbi := getMember (_functions c) method;
              abi := _abi c;
              address := _address c;
              method := method;
              params := serialized |}.

(** [sendExternal], given what [api.sendExternalMessage] answered. *)
Definition sendExternal (m : ContractMethod)
    (reply : Outcome (Transaction * option TokensObject))
    : Outcome (Transaction * option ParsedTokensObject) :=
  '(transaction, output) ← reply;
  match output with
  | Some tokens =>
      declared ← member (functionAbi m) fn_outputs;
      parsed ← transformToParsedObject declared tokens;
      Returned (transaction, Some parsed)
  | None => Returned (transaction, None)
  end.

(** [call], given what [api.runLocal] answered. *)
Definition call (m : ContractMethod) (reply : Outcome (option TokensObject * Z))
    : Outcome ParsedTokensObject :=
  '(output, code) ← reply;
  match output with
  | Some tokens =>
      if decide (code ≠ 0%Z) then Thrown (TvmException code)
      else declared ← member (functionAbi m) fn_outputs;
           transformToParsedObject declared tokens
  | None => Thrown (TvmException code)
  end.

(** [if (declared != null) transformToParsedObject(declared, tokens) else {}] *)
Definition parsedOrEmpty (declared : option (list AbiParam)) (tokens : TokensObject)
    : Outcome ParsedTokensObject :=
  match declared with
  | Some _ => transformToParsedObject declared tokens
  | None => Returned emptyObject
  end.

(** [decodeTransaction], given what [api.decodeTransaction] answered. *)
Definition decodeTransaction (c : Contract)
    (reply : Outcome (option (string * TokensObject * TokensObject)))
    : option (string * ParsedTokensObject * ParsedTokensObject) :=
  orUndefined (
    result ← reply;
    match result with
    | None => Returned None
    | Some (method, input, output) =>
        let rawAbi := getMember (_functions c) method in
        declaredInputs ← member rawAbi fn_inputs;
        input ← parsedOrEmpty declaredInputs input;
        declaredOutputs ← member rawAbi fn_outputs;
        output ← parsedOrEmpty declaredOutputs output;
        Returned (Some (method, input, output))
    end).

(** The [try] block of [decodeTransactionEvents] for one message, given what
    [api.decodeInput] answered for its body. *)
Definition decodeEvent (c : Contract) (reply : Outcome (option (string * TokensObject)))
    : option (string * ParsedTokensObject) :=
  orUndefined (
    event ← reply;
    match event with
    | None => Returned None
    | Some (method, input) =>
        let rawAbi := getMember (_events c) method in
        declaredInputs ← member rawAbi fn_inputs;
        input ← parsedOrEmpty declaredInputs input;
        Returned (Some (method, input))
    end).

(** [decodeTransactionEvents]: every out message comes with the answer
    [api.decodeInput] gives for its body, which is used only when the request
    is made. *)
Definition decodeTransactionEvents (c : Contract)
    (outMessages : list (Message * Outcome (option (string * TokensObject))))
    : list (string * ParsedTokensObject) :=
  foldl (λ result '(message, reply),
           if bool_decide (dst message ≠ None ∨ body message = None) then result
           else match decodeEvent c reply with
                | Some event => result ++ [event]
                | None => result
                end)
        [] outMessages.

(** [decodeInputMessage], given what [api.decodeInput] answered. *)
Definition decodeInputMessage (c : Contract)
    (reply : Outcome (option (string * TokensObject)))
    : option (string * ParsedTokensObject) :=
  orUndefined (
    result ← reply;
    match result with
    | None => Returned None
    | Some (method, input) =>
        let rawAbi := getMember (_functions c) method in
        declaredInputs ← member rawAbi fn_inputs;
        input ← parsedOrEmpty declaredInputs input;
        Returned (Some (method, input))
    end).

(** [decodeOutputMessage], given what [api.decodeOutput] answered. *)
Definition decodeOutputMessage (c : Contract)
    (reply : Outcome (option (string * TokensObject)))
    : option (string * ParsedTokensObject) :=
  orUndefined (
    result ← reply;
    match result with
    | None => Returned None
    | Some (method, output) =>
        let rawAbi := getMember (_functions c) method in
        declaredOutputs ← member rawAbi fn_outputs;
        output ← parsedOrEmpty declaredOutputs output;
        Returned (Some (method, output))
    end).

(** The declaration of [n] that a table built by [reduceInto] keeps. *)
Definition lastDeclared (n : string) (items : list ContractFunction)
    : option ContractFunction :=
  last (filter (λ item, name item = n) items).

(** The names a table built from [items] finds without a declaration: the
    members of [Object.prototype] and, when [__proto__] is among the declared
    names, the [members] of an entry. *)
Definition foundUndeclared (members : list string) (items : list ContractFunction)
    (n : string) : bool :=
  bool_decide (lastDeclared n items = None
               ∧ (n ∈ Object_prototype
                  ∨ (is_Some (lastDeclared "__proto__" items) ∧ n ∈ members))).

End WithUtilities.

End ContractClass.

(** * Properties *)

(** ** Batch merge *)

Section MergeFacts.
Import Merge.
Variable localeCompare : string → string → Z.

(** Where the loop stops: every entry passed over compares [>= 0] with
    [maxLt], and the entry it stops at, if any, compares [< 0]. *)
Lemma skipNewer_stops maxLt rest i :
  let k := skipNewer localeCompare maxLt rest i in
  i ≤ k ≤ i + length rest
  ∧ (∀ j t, i + j < k → rest !! j = Some t →
       (0 ≤ localeCompare (lt (id t)) maxLt)%Z)
  ∧ (∀ t, rest !! (k - i) = Some t → (localeCompare (lt (id t)) maxLt < 0)%Z).
Proof.
  revert i. induction rest as [|t rest IH]; intros i; simpl.
  - split; [lia|]. split.
    + intros j t Hj. lia.
    + intros t Ht. by rewrite lookup_nil in Ht.
  - destruct (Z.leb_spec 0 (localeCompare (lt (id t)) maxLt)) as [Hge|Hlt].
    + destruct (IH (S i)) as (Hb & Hskip & Hstop).
      split; [lia|]. split.
      * intros [|j] u Hj Hu; simpl in Hu.
        -- by simplify_eq.
        -- apply (Hskip j u); [lia | done].
      * intros u Hu.
        replace (skipNewer localeCompare maxLt rest (S i) - i)
          with (S (skipNewer localeCompare maxLt rest (S i) - S i)) in Hu by lia.
        simpl in Hu. by apply Hstop.
    + split; [lia|]. split.
      * intros j u Hj. lia.
      * intros u. rewrite Nat.sub_diag. simpl. intros ?. by simplify_eq.
Qed.

Lemma merge_appends known incoming info :
  batchType info = old ∨ known = [] →
  mergeTransactions localeCompare known incoming info = known ++ incoming.
Proof.
  unfold mergeTransactions. intros [-> | ->]; simpl; [done|].
  by destruct (isOld _).
Qed.

End MergeFacts.

(** C3. With [batchType] ['new'] and a non-empty known history, the merge
    puts the whole incoming batch, in its order, at the first index [i] of
    the known history whose logical time compares below [info.maxLt] (at the
    end when there is none) and leaves the known entries in place around it.
    Sortedness of the two histories is not needed.  For the histories
    20,15,10,01 and 14,12 the result is 20,15,14,12,10,01 under any collation
    that orders these digit strings as numbers. *)
Theorem merge_new_inserts_at_first_older (localeCompare : string → string → Z) :
  (∀ known incoming info,
     Merge.batchType info = Merge.new → known ≠ [] →
     ∃ i, i ≤ length known
       ∧ Merge.mergeTransactions localeCompare known incoming info
         = take i known ++ incoming ++ drop i known
       ∧ (∀ j t, j < i → known !! j = Some t →
            (0 ≤ localeCompare (Merge.lt (Merge.id t)) (Merge.maxLt info))%Z)
       ∧ (∀ t, known !! i = Some t →
            (localeCompare (Merge.lt (Merge.id t)) (Merge.maxLt info) < 0)%Z))
  ∧ ((0 ≤ localeCompare "20" "14")%Z → (0 ≤ localeCompare "15" "14")%Z →
     (localeCompare "10" "14" < 0)%Z →
     Merge.mergeTransactions localeCompare
       [Merge.tx "20"; Merge.tx "15"; Merge.tx "10"; Merge.tx "01"]
       [Merge.tx "14"; Merge.tx "12"]
       {| Merge.minLt := "12"; Merge.maxLt := "14"; Merge.batchType := Merge.new |}
     = [Merge.tx "20"; Merge.tx "15"; Merge.tx "14"; Merge.tx "12";
        Merge.tx "10"; Merge.tx "01"]).
Proof.
  split.
  - intros known incoming info Hnew Hne.
    exists (Merge.skipNewer localeCompare (Merge.maxLt info) known 0).
    destruct (skipNewer_stops localeCompare (Merge.maxLt info) known 0)
      as (Hb & Hskip & Hstop).
    split; [simpl in Hb; lia|]. split; [|split].
    + unfold Merge.mergeTransactions. rewrite Hnew. simpl.
      destruct known; [done|]. done.
    + intros j t Hj Ht. apply (Hskip j t); [simpl; lia | done].
    + intros t Ht. apply Hstop. by rewrite Nat.sub_0_r.
  - intros H20 H15 H10.
    unfold Merge.mergeTransactions. simpl.
    destruct (Z.leb_spec 0 (localeCompare "20" "14")); [|lia].
    destruct (Z.leb_spec 0 (localeCompare "15" "14")); [|lia].
    destruct (Z.leb_spec 0 (localeCompare "10" "14")); [lia|].
    reflexivity.
Qed.

Lemma merge_new_inserts_at_first_older_witness :
  (∃ i, i ≤ 4
     ∧ Merge.mergeTransactions Merge.lexCompare
         [Merge.tx "20"; Merge.tx "15"; Merge.tx "10"; Merge.tx "01"]
         [Merge.tx "14"; Merge.tx "12"]
         {| Merge.minLt := "12"; Merge.maxLt := "14"; Merge.batchType := Merge.new |}
       = take i [Merge.tx "20"; Merge.tx "15"; Merge.tx "10"; Merge.tx "01"]
         ++ [Merge.tx "14"; Merge.tx "12"]
         ++ drop i [Merge.tx "20"; Merge.tx "15"; Merge.tx "10"; Merge.tx "01"])
  ∧ Merge.mergeTransactions Merge.lexCompare
       [Merge.tx "20"; Merge.tx "15"; Merge.tx "10"; Merge.tx "01"]
       [Merge.tx "14"; Merge.tx "12"]
       {| Merge.minLt := "12"; Merge.maxLt := "14"; Merge.batchType := Merge.new |}
     = [Merge.tx "20"; Merge.tx "15"; Merge.tx "14"; Merge.tx "12";
        Merge.tx "10"; Merge.tx "01"].
Proof.
  destruct (merge_new_inserts_at_first_older Merge.lexCompare) as [Hgen Hex].
  split.
  - destruct (Hgen [Merge.tx "20"; Merge.tx "15"; Merge.tx "10"; Merge.tx "01"]
                [Merge.tx "14"; Merge.tx "12"]
                {| Merge.minLt := "12"; Merge.maxLt := "14"; Merge.batchType := Merge.new |})
      as (i & Hi & Heq & _); [reflexivity | discriminate |].
    exists i. split; [exact Hi | exact Heq].
  - apply Hex; vm_compute; congruence.
Defined.

(** C7. With [batchType] ['old'], or with an empty known history, the merge
    returns the known history followed by the incoming batch, both in their
    order; from an empty history the result is the incoming batch itself,
    whatever the batch type. *)
Theorem merge_old_or_empty_appends (localeCompare : string → string → Z)
    (known incoming : list Merge.Transaction) (info : Merge.TransactionsBatchInfo) :
  (Merge.batchType info = Merge.old ∨ known = [] →
   Merge.mergeTransactions localeCompare known incoming info = known ++ incoming)
  ∧ Merge.mergeTransactions localeCompare [] incoming info = incoming.
Proof.
  split.
  - apply merge_appends.
  - rewrite merge_appends; [done | by right].
Qed.

Lemma merge_old_or_empty_appends_witness :
  Merge.mergeTransactions Merge.lexCompare [Merge.tx "20"; Merge.tx "15"]
    [Merge.tx "30"; Merge.tx "07"]
    {| Merge.minLt := "07"; Merge.maxLt := "30"; Merge.batchType := Merge.old |}
  = [Merge.tx "20"; Merge.tx "15"; Merge.tx "30"; Merge.tx "07"]
  ∧ Merge.mergeTransactions Merge.lexCompare [] [Merge.tx "30"; Merge.tx "07"]
      {| Merge.minLt := "07"; Merge.maxLt := "30"; Merge.batchType := Merge.new |}
    = [Merge.tx "30"; Merge.tx "07"].
Proof.
  split.
  - apply (merge_old_or_empty_appends Merge.lexCompare [Merge.tx "20"; Merge.tx "15"]
             [Merge.tx "30"; Merge.tx "07"]
             {| Merge.minLt := "07"; Merge.maxLt := "30"; Merge.batchType := Merge.old |}).
    left. reflexivity.
  - apply (merge_old_or_empty_appends Merge.lexCompare [] [Merge.tx "30"; Merge.tx "07"]
             {| Merge.minLt := "07"; Merge.maxLt := "30"; Merge.batchType := Merge.new |}).
Defined.

(** C10. The merge never reads [info.minLt]: two batch descriptions with the
    same [batchType] and [maxLt] give the same history. *)
Theorem merge_ignores_minLt (localeCompare : string → string → Z)
    (known incoming : list Merge.Transaction) (info1 info2 : Merge.TransactionsBatchInfo) :
  Merge.batchType info1 = Merge.batchType info2 →
  Merge.maxLt info1 = Merge.maxLt info2 →
  Merge.mergeTransactions localeCompare known incoming info1
  = Merge.mergeTransactions localeCompare known incoming info2.
Proof.
  intros Hty Hmax. unfold Merge.mergeTransactions. by rewrite Hty, Hmax.
Qed.

Lemma merge_ignores_minLt_witness :
  Merge.mergeTransactions Merge.lexCompare
    [Merge.tx "20"; Merge.tx "15"; Merge.tx "10"] [Merge.tx "14"; Merge.tx "12"]
    {| Merge.minLt := "12"; Merge.maxLt := "14"; Merge.batchType := Merge.new |}
  = Merge.mergeTransactions Merge.lexCompare
    [Merge.tx "20"; Merge.tx "15"; Merge.tx "10"] [Merge.tx "14"; Merge.tx "12"]
    {| Merge.minLt := "99"; Merge.maxLt := "14"; Merge.batchType := Merge.new |}.
Proof.
  apply (merge_ignores_minLt Merge.lexCompare
           [Merge.tx "20"; Merge.tx "15"; Merge.tx "10"] [Merge.tx "14"; Merge.tx "12"]
           {| Merge.minLt := "12"; Merge.maxLt := "14"; Merge.batchType := Merge.new |}
           {| Merge.minLt := "99"; Merge.maxLt := "14"; Merge.batchType := Merge.new |});
    reflexivity.
Defined.

(** ** Interest aggregation *)

Section FoldFacts.

Lemma orFlags_assoc a b c : orFlags (orFlags a b) c = orFlags a (orFlags b c).
Proof. unfold orFlags; simpl. by rewrite !orb_assoc. Qed.

Lemma orFlags_comm a b : orFlags a b = orFlags b a.
Proof. unfold orFlags. f_equal; apply orb_comm. Qed.

Lemma orFlags_noInterest_l a : orFlags noInterest a = a.
Proof. by destruct a. Qed.

Lemma orFlags_noInterest_r a : orFlags a noInterest = a.
Proof. destruct a. unfold orFlags; simpl. by rewrite !orb_false_r. Qed.

Lemma unionOf_cons a l : unionOf (a :: l) = orFlags a (unionOf l).
Proof. done. Qed.

Lemma unionOf_app l1 l2 : unionOf (l1 ++ l2) = orFlags (unionOf l1) (unionOf l2).
Proof.
  induction l1 as [|a l1 IH].
  - simpl. by rewrite orFlags_noInterest_l.
  - by rewrite <- app_comm_cons, !unionOf_cons, IH, orFlags_assoc.
Qed.

Global Instance unionOf_Permutation : Proper ((≡ₚ) ==> (=)) unionOf.
Proof.
  intros l1 l2 Hp. induction Hp as [|x l1 l2 _ IH|x y l|l1 l2 l3 _ IH1 _ IH2].
  - done.
  - by rewrite !unionOf_cons, IH.
  - rewrite !unionOf_cons, <- !orFlags_assoc. f_equal. apply orFlags_comm.
  - by rewrite IH1.
Qed.

Lemma others_cons item items except :
  others (item :: items) except
  = if notSameObject item except then item :: others items except
    else others items except.
Proof.
  unfold others. rewrite filter_cons.
  destruct (notSameObject item except); by case_decide.
Qed.

(** Without the [break] the loop accumulates the two unions. *)
Lemma foldLoopNoBreak_unions items except total withoutExcluded :
  foldLoopNoBreak items except total withoutExcluded
  = (orFlags total (unionOf (flags <$> items)),
     orFlags withoutExcluded (unionOf (flags <$> others items except))).
Proof.
  revert total withoutExcluded.
  induction items as [|item items IH]; intros total withoutExcluded;
    cbn [foldLoopNoBreak].
  - by rewrite !orFlags_noInterest_r.
  - rewrite IH, others_cons, fmap_cons, unionOf_cons, <- orFlags_assoc. f_equal.
    destruct (notSameObject item except); [|done].
    by rewrite fmap_cons, unionOf_cons, <- orFlags_assoc.
Qed.

Lemma covers_full total withoutExcluded :
  covers total withoutExcluded →
  transactions withoutExcluded && state withoutExcluded = true →
  total = {| state := true; transactions := true |}
  ∧ withoutExcluded = {| state := true; transactions := true |}.
Proof.
  destruct total as [[] []], withoutExcluded as [[] []];
    unfold covers, orFlags; simpl; intros; by simplify_eq.
Qed.

Lemma covers_step total withoutExcluded item except :
  covers total withoutExcluded →
  covers {| state := state total || state (flags item);
            transactions := transactions total || transactions (flags item) |}
         (if notSameObject item except
          then {| state := state withoutExcluded || state (flags item);
                  transactions := transactions withoutExcluded || transactions (flags item) |}
          else withoutExcluded).
Proof.
  destruct total as [[] []], withoutExcluded as [[] []], item as [r [[] []]];
    destruct (notSameObject _ _); unfold covers, orFlags; simpl; intros; by simplify_eq.
Qed.

(** The [break] is taken only when going on could change nothing. *)
Lemma foldLoop_break_harmless items except total withoutExcluded :
  covers total withoutExcluded →
  foldLoop items except total withoutExcluded
  = foldLoopNoBreak items except total withoutExcluded.
Proof.
  revert total withoutExcluded.
  induction items as [|item items IH]; intros total withoutExcluded Hcov; simpl; [done|].
  destruct (transactions withoutExcluded && state withoutExcluded) eqn:Hfull.
  - destruct (covers_full _ _ Hcov Hfull) as [-> ->].
    rewrite foldLoopNoBreak_unions. simpl.
    by destruct (notSameObject item except).
  - apply IH. by apply covers_step.
Qed.

Lemma foldSubscriptions_unions subscriptions except :
  foldSubscriptions subscriptions except
  = (unionOf (flags <$> subscriptions), unionOf (flags <$> others subscriptions except)).
Proof.
  unfold foldSubscriptions.
  rewrite foldLoop_break_harmless by done.
  by rewrite foldLoopNoBreak_unions, !orFlags_noInterest_l.
Qed.

End FoldFacts.

(** C2. For every collection of flags objects and every excluded entry
    (possibly none), [foldSubscriptions] returns as [total] the OR of all
    entries and as [withoutExcluded] the OR of the entries that are not the
    excluded object, compared by reference; and it returns what the same
    loop without the early exit returns. *)
Theorem foldSubscriptions_correct (subscriptions : list FlagsObject)
    (except : option FlagsObject) :
  foldSubscriptions subscriptions except
  = (unionOf (flags <$> subscriptions),
     unionOf (flags <$> filter (λ item, notSameObject item except = true) subscriptions))
  ∧ foldSubscriptions subscriptions except = foldSubscriptionsNoBreak subscriptions except.
Proof.
  split.
  - apply foldSubscriptions_unions.
  - unfold foldSubscriptions, foldSubscriptionsNoBreak.
    by apply foldLoop_break_harmless.
Qed.

(** ** Objects as finite maps *)

Section ObjectFacts.
Context {V : Type}.
Implicit Types (o : gmap nat V).

Lemma Object_values_Permutation o : Object_values o ≡ₚ (map_to_list o).*2.
Proof. unfold Object_values. by rewrite merge_sort_Permutation. Qed.

Lemma Object_values_empty : Object_values (∅ : gmap nat V) = [].
Proof.
  apply Permutation_nil_r. rewrite Object_values_Permutation.
  by rewrite map_to_list_empty.
Qed.

Lemma Object_values_insert o i x :
  o !! i = None → Object_values (<[i := x]> o) ≡ₚ x :: Object_values o.
Proof.
  intros Hi. rewrite !Object_values_Permutation.
  by rewrite map_to_list_insert.
Qed.

Lemma Object_values_delete o i x :
  o !! i = Some x → Object_values o ≡ₚ x :: Object_values (delete i o).
Proof.
  intros Hi. rewrite <- (insert_delete_id o i x) at 1 by done.
  apply Object_values_insert, lookup_delete_eq.
Qed.

Lemma Object_values_singleton i x : Object_values ({[i := x]} : gmap nat V) = [x].
Proof.
  apply Permutation_singleton_r.
  rewrite <- insert_empty, Object_values_insert by apply lookup_empty.
  by rewrite Object_values_empty.
Qed.

Lemma elem_of_Object_values o x : x ∈ Object_values o ↔ ∃ i, o !! i = Some x.
Proof.
  rewrite Object_values_Permutation, list_elem_of_fmap. split.
  - intros ([i y] & -> & Hin). exists i. by apply elem_of_map_to_list.
  - intros [i Hi]. exists (i, x). split; [done|]. by apply elem_of_map_to_list.
Qed.

End ObjectFacts.

(** ** Folding over a bucket *)

Section BucketFacts.
Implicit Types (b : gmap nat FlagsObject) (o : FlagsObject).

Lemma differ_spec x y : differ x y = true ↔ x ≠ y.
Proof.
  destruct x as [[] []], y as [[] []]; unfold differ; simpl;
    split; (congruence || done).
Qed.

Lemma differ_decide {A} x y (yes no : A) :
  (if differ x y then yes else no) = (if decide (x = y) then no else yes).
Proof.
  destruct (differ x y) eqn:Hd; case_decide as Heq; try done.
  - by apply differ_spec in Hd.
  - apply not_true_iff_false in Hd. rewrite differ_spec in Hd.
    by destruct Hd.
Qed.

Lemma nothing_left_decide {A} x (yes no : A) :
  (if negb (transactions x) && negb (state x) then yes else no)
  = (if decide (x = noInterest) then yes else no).
Proof. destruct x as [[] []]; case_decide; simpl; done. Qed.

Global Instance others_Permutation :
  Proper ((≡ₚ) ==> (=) ==> (≡ₚ)) others.
Proof. intros l1 l2 Hl e1 e2 He. subst e2. unfold others. by rewrite Hl. Qed.

Lemma others_all items except :
  (∀ item, item ∈ items → notSameObject item except = true) →
  others items except = items.
Proof.
  induction items as [|item items IH]; intros Hall; [done|].
  rewrite others_cons, Hall by left. f_equal. apply IH.
  intros x Hx. apply Hall. by right.
Qed.

Lemma notSameObject_ref item o :
  notSameObject item (Some o) = true ↔ ref item ≠ ref o.
Proof.
  simpl. rewrite negb_true_iff, Nat.eqb_neq. done.
Qed.

Lemma others_self o items :
  (∀ item, item ∈ items → ref item ≠ ref o) →
  others (o :: items) (Some o) = items.
Proof.
  intros Hall. rewrite others_cons. simpl. rewrite Nat.eqb_refl. simpl.
  apply others_all. intros item Hin. by apply notSameObject_ref, Hall.
Qed.

Lemma aggregate_insert b id o :
  b !! id = None → aggregate (<[id := o]> b) = orFlags (flags o) (aggregate b).
Proof.
  intros Hid. unfold aggregate.
  by rewrite Object_values_insert, fmap_cons, unionOf_cons.
Qed.

Lemma aggregate_delete b id o :
  b !! id = Some o → aggregate b = orFlags (flags o) (aggregate (delete id b)).
Proof.
  intros Hid. unfold aggregate.
  by rewrite (Object_values_delete b id o), fmap_cons, unionOf_cons.
Qed.

Lemma aggregate_empty : aggregate ∅ = noInterest.
Proof. unfold aggregate. by rewrite Object_values_empty. Qed.

(** Folding right after the entry of [id] was stored. *)
Lemma fold_after_insert b id o :
  b !! id = None →
  (∀ i x, b !! i = Some x → ref x ≠ ref o) →
  foldSubscriptions (Object_values (<[id := o]> b)) (<[id := o]> b !! id)
  = (orFlags (flags o) (aggregate b), aggregate b).
Proof.
  intros Hid Hfresh.
  rewrite lookup_insert_eq, foldSubscriptions_unions. f_equal.
  - exact (aggregate_insert b id o Hid).
  - unfold aggregate. rewrite Object_values_insert by done.
    rewrite others_self; [done|].
    intros item [i Hi]%elem_of_Object_values. by eapply Hfresh.
Qed.

(** Folding just before the entry of [id] is deleted. *)
Lemma fold_before_delete b id o :
  b !! id = Some o → refsDistinct b →
  foldSubscriptions (Object_values b) (b !! id)
  = (aggregate b, aggregate (delete id b)).
Proof.
  intros Hid Hdistinct.
  rewrite Hid, foldSubscriptions_unions. f_equal.
  unfold aggregate. rewrite (Object_values_delete b id o) by done.
  rewrite others_self; [done|].
  intros item [i Hi]%elem_of_Object_values Href.
  apply lookup_delete_Some in Hi as [Hne Hi].
  apply Hne. symmetry. by eapply Hdistinct.
Qed.

(** Folding when [id] has no entry: nothing is excluded. *)
Lemma fold_without_entry b :
  foldSubscriptions (Object_values b) None = (aggregate b, aggregate b).
Proof.
  rewrite foldSubscriptions_unions. f_equal.
  unfold aggregate. by rewrite others_all.
Qed.

End BucketFacts.

(** ** The two closures of an address-scoped handle *)

Section ActionFacts.
Implicit Types (w : World) (p : ProviderRpcClient) (b : gmap nat FlagsObject).

(** Adding the interest of an id that has no callback and no entry yet. *)
Lemma _subscribe_add eventName id address upstream w :
  tableOf (provider w) eventName !! id = None →
  bucketOf (provider w) address !! id = None →
  (∀ i x, bucketOf (provider w) address !! i = Some x → ref x < nextRef w) →
  let before := aggregate (bucketOf (provider w) address) in
  let after := orFlags (flagsFor eventName) before in
  _subscribe (ContractActions eventName id address) upstream w
  = if decide (after = before) then (Ok tt, added eventName id address w, [])
    else if upstream
         then (Ok tt, added eventName id address w, [ApiSubscribe address after])
         else (Throw UpstreamError, rolledBack eventName id address w,
               [ApiSubscribe address after]).
Proof.
  intros Htable Hentry Hrefs before after. unfold _subscribe.
  rewrite Htable.
  change (bucketOf (setHandler eventName id (ForwardIfAddress address id) (provider w))
            address) with (bucketOf (provider w) address).
  rewrite fold_after_insert; [|done|].
  - rewrite differ_decide. simpl. fold before. fold after. done.
  - intros i x Hx. apply Hrefs in Hx. simpl. lia.
Qed.

(** Removing the interest of an id that has an entry. *)
Lemma _unsubscribe_remove eventName id address upstream w b o :
  _contractSubscriptions (provider w) !! address = Some b →
  b !! id = Some o → refsDistinct b →
  let rest := aggregate (delete id b) in
  let w' := removed eventName id address b w in
  _unsubscribe (ContractActions eventName id address) upstream w
  = if decide (rest = noInterest) then await upstream (ApiUnsubscribe address) w'
    else if decide (aggregate b = rest) then (Ok tt, w', [])
    else await upstream (ApiSubscribe address rest) w'.
Proof.
  intros Hb Hid Hdistinct rest w'. unfold _unsubscribe.
  change (_contractSubscriptions (deleteHandler eventName id (provider w)))
    with (_contractSubscriptions (provider w)).
  rewrite Hb, (fold_before_delete b id o) by done.
  by rewrite nothing_left_decide, differ_decide.
Qed.

(** Removing the interest of an id that has no entry in the bucket. *)
Lemma _unsubscribe_no_entry eventName id address upstream w b :
  _contractSubscriptions (provider w) !! address = Some b →
  b !! id = None →
  _unsubscribe (ContractActions eventName id address) upstream w
  = if decide (aggregate b = noInterest)
    then await upstream (ApiUnsubscribe address) (removed eventName id address b w)
    else (Ok tt, removed eventName id address b w, []).
Proof.
  intros Hb Hid. unfold _unsubscribe.
  change (_contractSubscriptions (deleteHandler eventName id (provider w)))
    with (_contractSubscriptions (provider w)).
  rewrite Hb, Hid, fold_without_entry.
  rewrite nothing_left_decide, differ_decide.
  by repeat case_decide.
Qed.

End ActionFacts.

(** ** Reading the registries after an update *)

Section RegistryFacts.
Implicit Types (w : World) (p : ProviderRpcClient) (b : gmap nat FlagsObject).

Lemma tableOf_setHandler eventName id h p eventName' id' :
  tableOf (setHandler eventName id h p) eventName' !! id'
  = if decide (eventName' = eventName ∧ id' = id) then Some h
    else tableOf p eventName' !! id'.
Proof.
  unfold tableOf, setHandler; simpl.
  destruct (decide (eventName' = eventName)) as [->|Hne].
  - rewrite lookup_insert_eq; simpl.
    destruct (decide (id' = id)) as [->|Hid].
    + rewrite lookup_insert_eq. by rewrite decide_True.
    + rewrite lookup_insert_ne by done. rewrite decide_False; [done|]. by intros [_ ?].
  - rewrite lookup_insert_ne by done. rewrite decide_False; [done|]. by intros [? _].
Qed.

Lemma tableOf_deleteHandler eventName id p eventName' id' :
  tableOf (deleteHandler eventName id p) eventName' !! id'
  = if decide (eventName' = eventName ∧ id' = id) then None
    else tableOf p eventName' !! id'.
Proof.
  unfold tableOf, deleteHandler; simpl.
  destruct (decide (eventName' = eventName)) as [->|Hne].
  - rewrite lookup_alter_eq.
    destruct (_subscriptions p !! eventName) as [t|] eqn:Ht; simpl.
    + destruct (decide (id' = id)) as [->|Hid].
      * rewrite lookup_delete_eq. by rewrite decide_True.
      * rewrite lookup_delete_ne by done. rewrite decide_False; [done|]. by intros [_ ?].
    + rewrite lookup_empty. by case_decide.
  - rewrite lookup_alter_ne by done. rewrite decide_False; [done|]. by intros [? _].
Qed.

Lemma tableOf_getEventSubscriptions eventName p eventName' :
  tableOf (_getEventSubscriptions eventName p) eventName' = tableOf p eventName'.
Proof.
  unfold _getEventSubscriptions.
  destruct (_subscriptions p !! eventName) eqn:Hev; [done|].
  case_bool_decide; [done|].
  unfold tableOf; simpl.
  destruct (decide (eventName' = eventName)) as [->|Hne].
  - by rewrite lookup_insert_eq, Hev.
  - by rewrite lookup_insert_ne.
Qed.

(** None of the topics the client serves is an inherited member name. *)
Lemma served_not_inherited eventName :
  eventName ∈ simpleEvents ∨ eventName ∈ contractEvents →
  eventName ∉ Object_prototype.
Proof.
  rewrite <- elem_of_app. revert eventName. apply Forall_forall.
  apply (bool_decide_unpack
           (Forall (λ eventName, eventName ∉ Object_prototype)
                   (simpleEvents ++ contractEvents))).
  by vm_compute.
Qed.

Lemma getEventSubscriptions_creates eventName p :
  eventName ∈ simpleEvents ∨ eventName ∈ contractEvents →
  is_Some (_subscriptions (_getEventSubscriptions eventName p) !! eventName).
Proof.
  intros Hserved%served_not_inherited.
  unfold _getEventSubscriptions.
  destruct (_subscriptions p !! eventName) eqn:Hev; [by rewrite Hev|].
  rewrite bool_decide_eq_false_2 by done.
  simpl. by rewrite lookup_insert_eq.
Qed.

Lemma getEventSubscriptions_keeps eventName p eventName' :
  is_Some (_subscriptions p !! eventName') →
  is_Some (_subscriptions (_getEventSubscriptions eventName p) !! eventName').
Proof.
  unfold _getEventSubscriptions.
  destruct (_subscriptions p !! eventName) eqn:Hev; [done|].
  case_bool_decide; [done|].
  simpl. intros Hsome. rewrite lookup_insert_is_Some'. by right.
Qed.

Lemma setHandler_keeps eventName id h p eventName' :
  is_Some (_subscriptions p !! eventName') →
  is_Some (_subscriptions (setHandler eventName id h p) !! eventName').
Proof. simpl. intros Hsome. rewrite lookup_insert_is_Some'. by right. Qed.

Lemma deleteHandler_keeps eventName id p eventName' :
  is_Some (_subscriptions p !! eventName') →
  is_Some (_subscriptions (deleteHandler eventName id p) !! eventName').
Proof. simpl. intros Hsome. by rewrite lookup_alter_is_Some. Qed.

Lemma bucketOf_Some p address id o :
  bucketOf p address !! id = Some o →
  ∃ b, _contractSubscriptions p !! address = Some b ∧ b !! id = Some o.
Proof.
  unfold bucketOf. destruct (_contractSubscriptions p !! address) as [b|]; simpl.
  - intros Hb. by exists b.
  - by rewrite lookup_empty.
Qed.

Lemma bucketOf_lookup p address b :
  _contractSubscriptions p !! address = Some b → bucketOf p address = b.
Proof. unfold bucketOf. by intros ->. Qed.

(** Undoing an addition puts both registries back, except that the bucket
    of the address now exists even if it did not before. *)
Lemma rolledBack_provider eventName id address w :
  is_Some (_subscriptions (provider w) !! eventName) →
  tableOf (provider w) eventName !! id = None →
  bucketOf (provider w) address !! id = None →
  provider (rolledBack eventName id address w)
  = setBucket address (bucketOf (provider w) address) (provider w).
Proof.
  intros [t Ht] Htable Hentry. unfold rolledBack, setBucket, deleteHandler, setHandler.
  simpl. f_equal.
  - unfold tableOf in *. rewrite Ht in *. simpl in *.
    rewrite alter_insert_eq, delete_insert_eq, delete_id by done.
    by apply insert_id.
  - change (bucketOf _ address) with (bucketOf (provider w) address).
    by rewrite insert_insert_eq, delete_insert_eq, delete_id.
Qed.

End RegistryFacts.

(** ** Consistency is kept by every operation *)

Section Consistency.
Implicit Types (w : World) (p : ProviderRpcClient) (b : gmap nat FlagsObject).

Lemma tableOf_setBucket address b p eventName :
  tableOf (setBucket address b p) eventName = tableOf p eventName.
Proof. done. Qed.

Lemma contract_setBucket address b p :
  _contractSubscriptions (setBucket address b p)
  = <[address := b]> (_contractSubscriptions p).
Proof. done. Qed.

Lemma contract_setHandler eventName id h p :
  _contractSubscriptions (setHandler eventName id h p) = _contractSubscriptions p.
Proof. done. Qed.

Lemma contract_deleteHandler eventName id p :
  _contractSubscriptions (deleteHandler eventName id p) = _contractSubscriptions p.
Proof. done. Qed.

Lemma added_provider eventName id address w :
  provider (added eventName id address w)
  = setBucket address
      (<[id := {| ref := nextRef w; flags := flagsFor eventName |}]>
         (bucketOf (provider w) address))
      (setHandler eventName id (ForwardIfAddress address id) (provider w)).
Proof. done. Qed.

Lemma initial_consistent : consistent initial.
Proof.
  split; simpl.
  - intros address b id o Hb. by rewrite lookup_empty in Hb.
  - intros address b Hb. by rewrite lookup_empty in Hb.
  - intros eventName id h. unfold tableOf; simpl. by rewrite !lookup_empty.
  - intros s sub Hs. by rewrite lookup_empty in Hs.
Qed.

(** A handle that is not active has no entry in any bucket. *)
Lemma inactive_no_entry w id sub eventName address :
  consistent w → objects w !! id = Some sub →
  actions sub = ContractActions eventName id address →
  tableOf (provider w) eventName !! id = None →
  ∀ address' b, _contractSubscriptions (provider w) !! address' = Some b → b !! id = None.
Proof.
  intros Hc Hobj Hact Htable address' b Hb.
  destruct (b !! id) as [o|] eqn:Ho; [|done].
  destruct (entry_owned w Hc _ _ _ _ Hb Ho) as (_ & ev & sub' & Hobj' & Hact' & Hsome & _).
  assert (sub' = sub) as -> by congruence.
  assert (ev = eventName) as -> by congruence.
  destruct Hsome as [h Hh]. congruence.
Qed.

(** The entries of an id sit in the bucket of the address its handle watches. *)
Lemma entry_address w id sub eventName address address' b o :
  consistent w → objects w !! id = Some sub →
  actions sub = ContractActions eventName id address →
  _contractSubscriptions (provider w) !! address' = Some b → b !! id = Some o →
  address' = address.
Proof.
  intros Hc Hobj Hact Hb Ho.
  destruct (entry_owned w Hc _ _ _ _ Hb Ho) as (_ & ev & sub' & Hobj' & Hact' & _).
  assert (sub' = sub) as -> by congruence. congruence.
Qed.

Lemma simple_no_entry w id sub eventName :
  consistent w → objects w !! id = Some sub →
  actions sub = SimpleActions eventName id →
  ∀ address b, _contractSubscriptions (provider w) !! address = Some b → b !! id = None.
Proof.
  intros Hc Hobj Hact address b Hb.
  destruct (b !! id) as [o|] eqn:Ho; [|done].
  destruct (entry_owned w Hc _ _ _ _ Hb Ho) as (_ & ev & sub' & Hobj' & Hact' & _).
  assert (sub' = sub) as -> by congruence. congruence.
Qed.

(** An id without a stored handle appears in no registry. *)
Lemma unknown_id_unused w id :
  consistent w → objects w !! id = None →
  (∀ eventName, tableOf (provider w) eventName !! id = None)
  ∧ (∀ address b, _contractSubscriptions (provider w) !! address = Some b → b !! id = None).
Proof.
  intros Hc Hobj. split.
  - intros eventName. destruct (tableOf _ _ !! id) as [h|] eqn:Hh; [|done].
    apply (handler_owned w Hc) in Hh. rewrite Hobj in Hh. by destruct Hh.
  - intros address b Hb. destruct (b !! id) as [o|] eqn:Ho; [|done].
    destruct (entry_owned w Hc _ _ _ _ Hb Ho) as (_ & ev & sub' & Hobj' & _).
    by simplify_eq.
Qed.

Lemma refsDistinct_insert b id o :
  refsDistinct b → (∀ i x, b !! i = Some x → ref x ≠ ref o) →
  refsDistinct (<[id := o]> b).
Proof.
  intros Hd Hfresh i j x y Hi Hj Href.
  destruct (decide (i = id)) as [->|Hi'], (decide (j = id)) as [->|Hj']; [done| | |].
  - rewrite lookup_insert_eq in Hi. rewrite lookup_insert_ne in Hj by done.
    simplify_eq. by apply Hfresh in Hj.
  - rewrite lookup_insert_eq in Hj. rewrite lookup_insert_ne in Hi by done.
    simplify_eq. by apply Hfresh in Hi.
  - rewrite lookup_insert_ne in Hi, Hj by done. by eapply Hd.
Qed.

Lemma refsDistinct_delete b id : refsDistinct b → refsDistinct (delete id b).
Proof.
  intros Hd i j x y [_ Hi]%lookup_delete_Some [_ Hj]%lookup_delete_Some.
  by eapply Hd.
Qed.

Lemma refsDistinct_empty : refsDistinct ∅.
Proof. intros i j x y Hi. by rewrite lookup_empty in Hi. Qed.

Lemma bucketOf_refsDistinct w address :
  consistent w → refsDistinct (bucketOf (provider w) address).
Proof.
  intros Hc. unfold bucketOf.
  destruct (_contractSubscriptions (provider w) !! address) as [b|] eqn:Hb; simpl.
  - by eapply entry_refs.
  - apply refsDistinct_empty.
Qed.

Lemma bucketOf_allocated w address i x :
  consistent w → bucketOf (provider w) address !! i = Some x → ref x < nextRef w.
Proof.
  intros Hc (b & Hb & Hx)%bucketOf_Some.
  by destruct (entry_owned w Hc _ _ _ _ Hb Hx).
Qed.

Lemma consistent_added eventName id address w sub :
  consistent w → objects w !! id = Some sub →
  actions sub = ContractActions eventName id address →
  tableOf (provider w) eventName !! id = None →
  consistent (added eventName id address w).
Proof.
  intros Hc Hobj Hact Htable.
  assert (Hold : ∀ address' b0 id' o,
    _contractSubscriptions (provider w) !! address' = Some b0 → b0 !! id' = Some o →
    ref o < S (nextRef w)
    ∧ ∃ ev sub', objects w !! id' = Some sub'
        ∧ actions sub' = ContractActions ev id' address'
        ∧ is_Some (tableOf (provider (added eventName id address w)) ev !! id')
        ∧ flags o = flagsFor ev).
  { intros address' b0 id' o Hb0 Ho0.
    destruct (entry_owned w Hc _ _ _ _ Hb0 Ho0) as (Hlt & ev & sub' & ? & ? & Hs & ?).
    split; [lia|]. exists ev, sub'. repeat split; try done.
    rewrite added_provider, tableOf_setBucket, tableOf_setHandler.
    by case_decide. }
  split.
  - intros address' b id' o.
    rewrite added_provider, contract_setBucket, contract_setHandler.
    change (nextRef (added eventName id address w)) with (S (nextRef w)).
    change (objects (added eventName id address w)) with (objects w).
    intros Hb Ho.
    destruct (decide (address' = address)) as [->|Hne].
    + rewrite lookup_insert_eq in Hb. injection Hb as <-.
      destruct (decide (id' = id)) as [->|Hid].
      * rewrite lookup_insert_eq in Ho. injection Ho as <-.
        split; [simpl; lia|]. exists eventName, sub. repeat split; try done.
        by rewrite tableOf_setBucket, tableOf_setHandler, decide_True.
      * rewrite lookup_insert_ne in Ho by done.
        apply bucketOf_Some in Ho as (b0 & Hb0 & Ho0).
        destruct (Hold _ _ _ _ Hb0 Ho0) as (? & ev & sub' & ? & ? & Hs & ?).
        split; [done|]. exists ev, sub'. repeat split; try done.
    + rewrite lookup_insert_ne in Hb by done.
      destruct (Hold _ _ _ _ Hb Ho) as (? & ev & sub' & ? & ? & Hs & ?).
      split; [done|]. exists ev, sub'. repeat split; try done.
  - intros address' b.
    rewrite added_provider, contract_setBucket, contract_setHandler.
    destruct (decide (address' = address)) as [->|Hne].
    + rewrite lookup_insert_eq. intros [= <-].
      apply refsDistinct_insert; [by apply bucketOf_refsDistinct|].
      intros i x Hx. apply (bucketOf_allocated w address i x Hc) in Hx. simpl. lia.
    + rewrite lookup_insert_ne by done. by eapply entry_refs.
  - intros ev id' h.
    rewrite added_provider, tableOf_setBucket, tableOf_setHandler.
    change (objects (added eventName id address w)) with (objects w).
    case_decide as Hcase.
    + destruct Hcase as [_ ->]. by rewrite Hobj.
    + by eapply handler_owned.
  - intros s sub'. change (objects (added eventName id address w)) with (objects w).
    change (idCounter (added eventName id address w)) with (idCounter w).
    intros Hs. destruct (object_ok w Hc _ _ Hs) as (? & ? & ? & ?).
    repeat split; try done.
    rewrite added_provider. by apply setHandler_keeps.
Qed.

Lemma rolledBack_undone eventName id address w :
  is_Some (_subscriptions (provider w) !! eventName) →
  tableOf (provider w) eventName !! id = None →
  bucketOf (provider w) address !! id = None →
  rolledBack eventName id address w = undone address w.
Proof.
  intros Hev Htable Hentry. unfold undone.
  rewrite <- (rolledBack_provider eventName id address w) by done.
  done.
Qed.

Lemma consistent_undone address w : consistent w → consistent (undone address w).
Proof.
  intros Hc. split; unfold undone; simpl.
  - intros address' b id o Hb Ho.
    assert (_contractSubscriptions (provider w) !! address' = Some b) as Hb'.
    { destruct (decide (address' = address)) as [->|Hne].
      - rewrite lookup_insert_eq in Hb. injection Hb as <-.
        apply bucketOf_Some in Ho as (b0 & Hb0 & Ho0).
        by rewrite (bucketOf_lookup _ _ _ Hb0).
      - by rewrite lookup_insert_ne in Hb. }
    destruct (entry_owned w Hc _ _ _ _ Hb' Ho) as (Hlt & Hrest).
    split; [lia | done].
  - intros address' b Hb.
    destruct (decide (address' = address)) as [->|Hne].
    + rewrite lookup_insert_eq in Hb. injection Hb as <-.
      by apply bucketOf_refsDistinct.
    + rewrite lookup_insert_ne in Hb by done. by eapply entry_refs.
  - intros ev id h Hh. by eapply handler_owned.
  - intros s sub Hs. by apply (object_ok w Hc).
Qed.

Lemma consistent_removed eventName id address w sub b :
  consistent w → objects w !! id = Some sub →
  actions sub = ContractActions eventName id address →
  _contractSubscriptions (provider w) !! address = Some b →
  consistent (removed eventName id address b w).
Proof.
  intros Hc Hobj Hact Hb.
  assert (Hold : ∀ address' b0 id' o,
    _contractSubscriptions (provider w) !! address' = Some b0 → b0 !! id' = Some o →
    id' ≠ id →
    ref o < nextRef w
    ∧ ∃ ev sub', objects w !! id' = Some sub'
        ∧ actions sub' = ContractActions ev id' address'
        ∧ is_Some (tableOf (deleteHandler eventName id (provider w)) ev !! id')
        ∧ flags o = flagsFor ev).
  { intros address' b0 id' o Hb0 Ho0 Hne.
    destruct (entry_owned w Hc _ _ _ _ Hb0 Ho0) as (Hlt & ev & sub' & ? & ? & Hs & ?).
    split; [done|]. exists ev, sub'. repeat split; try done.
    rewrite tableOf_deleteHandler, decide_False; [done|]. by intros [_ ?]. }
  split; unfold removed; simpl.
  - intros address' b' id' o Hb' Ho.
    destruct (decide (address' = address)) as [->|Hne].
    + rewrite lookup_insert_eq in Hb'. injection Hb' as <-.
      apply lookup_delete_Some in Ho as [Hid Ho]. by eapply Hold.
    + rewrite lookup_insert_ne in Hb' by done.
      eapply Hold; [done..|]. intros ->.
      by pose proof (entry_address _ _ _ _ _ _ _ _ Hc Hobj Hact Hb' Ho).
  - intros address' b' Hb'.
    destruct (decide (address' = address)) as [->|Hne].
    + rewrite lookup_insert_eq in Hb'. injection Hb' as <-.
      apply refsDistinct_delete. by eapply entry_refs.
    + rewrite lookup_insert_ne in Hb' by done. by eapply entry_refs.
  - intros ev id' h. rewrite tableOf_setBucket, tableOf_deleteHandler.
    case_decide; [done|]. by apply (handler_owned w Hc).
  - intros s sub' Hs. destruct (object_ok w Hc _ _ Hs) as (? & ? & ? & ?).
    repeat split; try done. rewrite lookup_alter_is_Some. done.
Qed.

(** Deleting the callback of an id that has no entry in any bucket. *)
Lemma consistent_deleteHandler eventName id w :
  consistent w →
  (∀ address b, _contractSubscriptions (provider w) !! address = Some b → b !! id = None) →
  consistent (setProvider (deleteHandler eventName id (provider w)) w).
Proof.
  intros Hc Hnone. split; unfold setProvider; simpl.
  - intros address b id' o Hb Ho.
    destruct (entry_owned w Hc _ _ _ _ Hb Ho) as (Hlt & ev & sub' & ? & ? & Hs & ?).
    split; [done|]. exists ev, sub'. repeat split; try done.
    rewrite tableOf_deleteHandler, decide_False; [done|].
    intros [_ ->]. apply Hnone in Hb. congruence.
  - intros address b Hb. by eapply entry_refs.
  - intros ev id' h. rewrite tableOf_deleteHandler.
    case_decide; [done|]. by apply (handler_owned w Hc).
  - intros s sub' Hs. destruct (object_ok w Hc _ _ Hs) as (? & ? & ? & ?).
    repeat split; try done. rewrite lookup_alter_is_Some. done.
Qed.

(** Storing a callback for the id of a stored handle. *)
Lemma consistent_setHandler eventName id h w :
  consistent w → is_Some (objects w !! id) →
  consistent (setProvider (setHandler eventName id h (provider w)) w).
Proof.
  intros Hc Hobj. split; unfold setProvider; simpl.
  - intros address b id' o Hb Ho.
    destruct (entry_owned w Hc _ _ _ _ Hb Ho) as (Hlt & ev & sub' & ? & ? & Hs & ?).
    split; [done|]. exists ev, sub'. repeat split; try done.
    rewrite tableOf_setHandler. by case_decide.
  - intros address b Hb. by eapply entry_refs.
  - intros ev id' h'. rewrite tableOf_setHandler.
    case_decide as Hcase; [by destruct Hcase as [_ ->] | by apply (handler_owned w Hc)].
  - intros s sub' Hs. destruct (object_ok w Hc _ _ Hs) as (? & ? & ? & ?).
    repeat split; try done. rewrite lookup_insert_is_Some'. by right.
Qed.

Lemma no_entry_bucketOf w id address :
  (∀ address' b, _contractSubscriptions (provider w) !! address' = Some b → b !! id = None) →
  bucketOf (provider w) address !! id = None.
Proof.
  intros Hnone. unfold bucketOf.
  destruct (_contractSubscriptions (provider w) !! address) as [b|] eqn:Hb; simpl.
  - by eapply Hnone.
  - apply lookup_empty.
Qed.

(** The add closure throws only when its upstream call is rejected, and
    then it has undone its own insertions. *)
Lemma _subscribe_throws a upstream w e w' effects :
  _subscribe a upstream w = (Throw e, w', effects) →
  ∃ eventName id address,
    a = ContractActions eventName id address
    ∧ tableOf (provider w) eventName !! id = None
    ∧ w' = rolledBack eventName id address w
    ∧ upstream = false ∧ e = UpstreamError.
Proof.
  destruct a as [eventName id|eventName id address]; simpl.
  - destruct (tableOf _ _ !! id); intros; simplify_eq.
  - destruct (tableOf _ _ !! id) eqn:Htable; [intros; simplify_eq|].
    destruct (foldSubscriptions _ _) as [total withoutExcluded].
    destruct (differ total withoutExcluded); [|intros; simplify_eq].
    destruct upstream; intros [= <- <- <-].
    exists eventName, id, address. by repeat split.
Qed.

Lemma _subscribe_consistent sub s upstream w r w' effects :
  consistent w → objects w !! s = Some sub →
  _subscribe (actions sub) upstream w = (r, w', effects) →
  consistent w' ∧ objects w' = objects w ∧ idCounter w' = idCounter w.
Proof.
  intros Hc Hobj.
  destruct (object_ok w Hc _ _ Hobj) as (_ & Hid & Hev & _).
  destruct (actions sub) as [eventName id|eventName id address] eqn:Hact;
    simpl in Hid, Hev; subst id.
  - simpl. destruct (tableOf _ _ !! s); intros [= <- <- <-]; [done|].
    split; [|done]. by apply consistent_setHandler.
  - destruct (tableOf (provider w) eventName !! s) eqn:Htable.
    + simpl. rewrite Htable. by intros [= <- <- <-].
    + pose proof (inactive_no_entry _ _ _ _ _ Hc Hobj Hact Htable) as Hnone.
      pose proof (no_entry_bucketOf w s address Hnone) as Hentry.
      rewrite _subscribe_add; [|done|done|by intros i x; apply bucketOf_allocated].
      repeat case_match; intros [= <- <- <-];
        (split; [|done]);
        [by eapply consistent_added | by eapply consistent_added |].
      rewrite rolledBack_undone by done. by apply consistent_undone.
Qed.

Lemma _unsubscribe_consistent sub s upstream w r w' effects :
  consistent w → objects w !! s = Some sub →
  _unsubscribe (actions sub) upstream w = (r, w', effects) →
  consistent w' ∧ objects w' = objects w ∧ idCounter w' = idCounter w.
Proof.
  intros Hc Hobj.
  destruct (object_ok w Hc _ _ Hobj) as (_ & Hid & Hev & _).
  destruct (actions sub) as [eventName id|eventName id address] eqn:Hact;
    simpl in Hid, Hev; subst id; simpl.
  - intros [= <- <- <-]. split; [|done].
    apply consistent_deleteHandler; [done|]. by eapply simple_no_entry.
  - destruct (_contractSubscriptions (provider w) !! address) as [b|] eqn:Hb.
    + destruct (foldSubscriptions _ _) as [total withoutExcluded].
      assert (consistent (removed eventName s address b w)) as Hrem
        by by eapply consistent_removed.
      unfold await. repeat case_match; intros [= <- <- <-]; by split.
    + intros [= <- <- <-]. split; [|done].
      apply consistent_deleteHandler; [done|].
      intros address' b' Hb'. destruct (b' !! s) as [o|] eqn:Ho; [|done].
      pose proof (entry_address _ _ _ _ _ _ _ _ Hc Hobj Hact Hb' Ho). congruence.
Qed.

Lemma Subscription_subscribe_consistent s upstream w r w' effects :
  consistent w → Subscription_subscribe s upstream w = (r, w', effects) →
  consistent w' ∧ objects w' = objects w ∧ idCounter w' = idCounter w.
Proof.
  intros Hc. unfold Subscription_subscribe.
  destruct (objects w !! s) as [sub|] eqn:Hobj; [|by intros [= <- <- <-]].
  destruct (_subscribe _ _ _) as [[r0 w0] e0] eqn:Hact.
  apply (_subscribe_consistent _ _ _ _ _ _ _ Hc Hobj) in Hact.
  destruct r0; by intros [= <- <- <-].
Qed.

Lemma Subscription_unsubscribe_consistent s upstream w r w' effects :
  consistent w → Subscription_unsubscribe s upstream w = (r, w', effects) →
  consistent w' ∧ objects w' = objects w ∧ idCounter w' = idCounter w.
Proof.
  intros Hc. unfold Subscription_unsubscribe.
  destruct (objects w !! s) as [sub|] eqn:Hobj; [|by intros [= <- <- <-]].
  destruct (_unsubscribe _ _ _) as [[r0 w0] e0] eqn:Hact.
  apply (_unsubscribe_consistent _ _ _ _ _ _ _ Hc Hobj) in Hact.
  destruct r0; by intros [= <- <- <-].
Qed.

Lemma Subscription_on_consistent s e listener w :
  consistent w → consistent (Subscription_on s e listener w).
Proof.
  intros Hc. unfold Subscription_on.
  destruct (objects w !! s) as [sub|] eqn:Hobj; [|done].
  split; unfold setObjects; simpl.
  - intros address b id o Hb Ho.
    destruct (entry_owned w Hc _ _ _ _ Hb Ho) as (Hlt & ev & sub' & Hsub' & ? & ? & ?).
    split; [done|]. destruct (decide (id = s)) as [->|Hne].
    + exists ev. eexists. rewrite lookup_insert_eq. repeat split; try done.
      simpl. congruence.
    + exists ev, sub'. rewrite lookup_insert_ne by done. by repeat split.
  - intros address b Hb. by eapply entry_refs.
  - intros ev id h Hh. rewrite lookup_insert_is_Some'. right.
    by apply (handler_owned w Hc) in Hh.
  - intros s' sub' Hs'. destruct (decide (s' = s)) as [->|Hne].
    + rewrite lookup_insert_eq in Hs'. injection Hs' as <-. simpl.
      by apply (object_ok w Hc).
    + rewrite lookup_insert_ne in Hs' by done. by apply (object_ok w Hc).
Qed.

Lemma consistent_getEventSubscriptions eventName w :
  consistent w →
  consistent (setProvider (_getEventSubscriptions eventName (provider w)) w).
Proof.
  intros Hc.
  assert (_contractSubscriptions (_getEventSubscriptions eventName (provider w))
          = _contractSubscriptions (provider w)) as Hcs.
  { unfold _getEventSubscriptions. destruct (_ !! eventName); [done|]. by case_bool_decide. }
  split; unfold setProvider; simpl; rewrite ?Hcs.
  - intros address b id o Hb Ho.
    destruct (entry_owned w Hc _ _ _ _ Hb Ho) as (Hlt & ev & sub' & ? & ? & ? & ?).
    split; [done|]. exists ev, sub'. rewrite tableOf_getEventSubscriptions.
    by repeat split.
  - intros address b Hb. by eapply entry_refs.
  - intros ev id h. rewrite tableOf_getEventSubscriptions. by apply (handler_owned w Hc).
  - intros s sub Hs. destruct (object_ok w Hc _ _ Hs) as (? & ? & ? & ?).
    repeat split; try done. by apply getEventSubscriptions_keeps.
Qed.

(** The world in which [new Subscription(...)] has just been stored under
    the id drawn from the counter. *)
Lemma consistent_new_object a w :
  consistent w → actionsId a = idCounter w → actionsTopicOk a →
  is_Some (_subscriptions (provider w) !! actionsEvent a) →
  consistent (setObjects (<[idCounter w := {| actions := a; _listeners := noListeners |}]>
                            (objects (getUniqueId w).2)) (getUniqueId w).2).
Proof.
  intros Hc Hid Hok Hev.
  assert (objects w !! idCounter w = None) as Hfresh.
  { destruct (objects w !! idCounter w) as [sub|] eqn:Hsub; [|done].
    destruct (object_ok w Hc _ _ Hsub). lia. }
  split; unfold setObjects, getUniqueId; simpl.
  - intros address b id o Hb Ho.
    destruct (entry_owned w Hc _ _ _ _ Hb Ho) as (Hlt & ev & sub' & Hsub' & ? & ? & ?).
    split; [done|]. exists ev, sub'. rewrite lookup_insert_ne by congruence.
    by repeat split.
  - intros address b Hb. by eapply entry_refs.
  - intros ev id h Hh. rewrite lookup_insert_is_Some'. right.
    by apply (handler_owned w Hc) in Hh.
  - intros s sub Hs. destruct (decide (s = idCounter w)) as [->|Hne].
    + rewrite lookup_insert_eq in Hs. injection Hs as <-. simpl.
      repeat split; try done. lia.
    + rewrite lookup_insert_ne in Hs by done.
      destruct (object_ok w Hc _ _ Hs) as (? & ? & ? & ?).
      repeat split; try done. lia.
Qed.

Lemma consistent_getUniqueId w : consistent w → consistent (getUniqueId w).2.
Proof.
  intros Hc. split; unfold getUniqueId; simpl.
  - by apply (entry_owned w Hc).
  - by apply (entry_refs w Hc).
  - by apply (handler_owned w Hc).
  - intros s sub Hs. destruct (object_ok w Hc _ _ Hs) as (? & ? & ? & ?).
    repeat split; try done. lia.
Qed.

(** Forgetting the object of an id that no registry mentions. *)
Lemma consistent_drop_object id w :
  consistent w →
  (∀ eventName, tableOf (provider w) eventName !! id = None) →
  (∀ address b, _contractSubscriptions (provider w) !! address = Some b → b !! id = None) →
  consistent (setObjects (delete id (objects w)) w).
Proof.
  intros Hc Htables Hbuckets. split; unfold setObjects; simpl.
  - intros address b id' o Hb Ho.
    destruct (entry_owned w Hc _ _ _ _ Hb Ho) as (Hlt & ev & sub' & Hsub' & ? & ? & ?).
    split; [done|]. exists ev, sub'. rewrite lookup_delete_ne; [by repeat split|].
    intros ->. apply Hbuckets in Hb. congruence.
  - intros address b Hb. by eapply entry_refs.
  - intros ev id' h Hh. rewrite lookup_delete_ne; [by apply (handler_owned w Hc) in Hh|].
    intros ->. rewrite Htables in Hh. done.
  - intros s sub [_ Hs]%lookup_delete_Some. by apply (object_ok w Hc).
Qed.

Lemma undone_unused id address w :
  (∀ eventName, tableOf (provider w) eventName !! id = None) →
  (∀ address' b, _contractSubscriptions (provider w) !! address' = Some b → b !! id = None) →
  (∀ eventName, tableOf (provider (undone address w)) eventName !! id = None)
  ∧ (∀ address' b, _contractSubscriptions (provider (undone address w)) !! address' = Some b →
       b !! id = None).
Proof.
  intros Htables Hbuckets. split; [done|].
  intros address' b. unfold undone; simpl.
  destruct (decide (address' = address)) as [->|Hne].
  - rewrite lookup_insert_eq. intros [= <-]. by apply no_entry_bucketOf.
  - rewrite lookup_insert_ne by done. apply Hbuckets.
Qed.

Lemma openWith_consistent a upstream w r w' effects :
  consistent w → actionsId a = idCounter w → actionsTopicOk a →
  is_Some (_subscriptions (provider w) !! actionsEvent a) →
  openWith a (idCounter w) upstream (getUniqueId w).2 = (r, w', effects) →
  consistent w'.
Proof.
  intros Hc Hid Hok Hev. unfold openWith.
  pose proof (consistent_new_object a w Hc Hid Hok Hev) as Hc3.
  set (w3 := setObjects _ _) in *.
  assert (objects w3 !! idCounter w
          = Some {| actions := a; _listeners := noListeners |}) as Hobj
    by apply lookup_insert_eq.
  assert (objects w !! idCounter w = None) as Hfresh.
  { destruct (objects w !! idCounter w) as [sub|] eqn:Hsub; [|done].
    destruct (object_ok w Hc _ _ Hsub). lia. }
  destruct (unknown_id_unused w _ Hc Hfresh) as [Htables Hbuckets].
  unfold Subscription_subscribe. rewrite Hobj.
  change (actions {| actions := a; _listeners := noListeners |}) with a.
  destruct (_subscribe a upstream w3) as [[r0 w4] e0] eqn:Hact.
  destruct r0 as [u|e].
  - intros [= <- <- <-].
    by destruct (_subscribe_consistent _ _ _ _ _ _ _ Hc3 Hobj Hact).
  - intros [= <- <- <-].
    destruct (_subscribe_throws _ _ _ _ _ _ Hact)
      as (ev & id & address & -> & Htable & -> & _).
    simpl in Hid, Hev. subst id.
    rewrite rolledBack_undone; [|done|done|by apply (no_entry_bucketOf w)].
    destruct (undone_unused (idCounter w) address w3 Htables Hbuckets).
    apply consistent_drop_object; [by apply consistent_undone|done..].
Qed.

Lemma subscribe_consistent eventName params upstream w r w' effects :
  consistent w → subscribe eventName params upstream w = (r, w', effects) →
  consistent w'.
Proof.
  intros Hc. unfold subscribe.
  pose proof (consistent_getEventSubscriptions eventName w Hc) as Hc1.
  set (w1 := setProvider _ w) in *.
  assert (eventName ∈ simpleEvents ∨ eventName ∈ contractEvents →
          is_Some (_subscriptions (provider w1) !! eventName)) as Hev
    by apply getEventSubscriptions_creates.
  change (getUniqueId w1) with (idCounter w1, (getUniqueId w1).2). cbv beta iota.
  case_bool_decide as Hsimple.
  - apply openWith_consistent; try done. apply Hev. by left.
  - case_bool_decide as Hcontract.
    + destruct params as [address|].
      * apply openWith_consistent; try done. apply Hev. by right.
      * intros [= <- <- <-]. exact (consistent_getUniqueId w1 Hc1).
    + intros [= <- <- <-]. exact (consistent_getUniqueId w1 Hc1).
Qed.

Lemma step_consistent w op : consistent w → consistent (step w op).1.
Proof.
  intros Hc. destruct op as [eventName params upstream|s e listener|s upstream|s upstream|eventName d];
    simpl.
  - destruct (subscribe _ _ _ _) as [[r w'] effects] eqn:Hop.
    by apply subscribe_consistent in Hop.
  - by apply Subscription_on_consistent.
  - destruct (Subscription_subscribe _ _ _) as [[r w'] effects] eqn:Hop.
    by apply Subscription_subscribe_consistent in Hop as [? _].
  - destruct (Subscription_unsubscribe _ _ _) as [[r w'] effects] eqn:Hop.
    by apply Subscription_unsubscribe_consistent in Hop as [? _].
  - done.
Qed.

Lemma run_consistent ops w : consistent w → consistent (run ops w).1.
Proof.
  revert w. induction ops as [|op ops IH]; intros w Hc; simpl; [done|].
  pose proof (step_consistent w op Hc) as Hstep.
  destruct (step w op) as [w1 e1]. specialize (IH w1 Hstep).
  by destruct (run ops w1) as [w2 e2].
Qed.

Lemma reachable_consistent w : reachable w → consistent w.
Proof. intros [ops <-]. apply run_consistent, initial_consistent. Qed.

End Consistency.

(** ** Upstream calls of add and remove *)

Section SyncFacts.
Implicit Types (w : World) (p : ProviderRpcClient) (b : gmap nat FlagsObject).

Lemma apiCalls_app e1 e2 : apiCalls (e1 ++ e2) = apiCalls e1 ++ apiCalls e2.
Proof. unfold apiCalls. apply filter_app. Qed.

Lemma apiCalls_fire s e arg w : apiCalls (fire s e arg w) = [].
Proof.
  unfold fire. induction (listenersOf s e w) as [|l ls IH]; [done|].
  simpl. unfold apiCalls in *. by rewrite filter_cons_False.
Qed.

Lemma apiCalls_with_fire effects s e arg w :
  apiCalls (effects ++ fire s e arg w) = apiCalls effects.
Proof. by rewrite apiCalls_app, apiCalls_fire, app_nil_r. Qed.

Lemma bucketOf_added eventName id address w :
  bucketOf (provider (added eventName id address w)) address
  = <[id := {| ref := nextRef w; flags := flagsFor eventName |}]>
      (bucketOf (provider w) address).
Proof.
  unfold bucketOf at 1. rewrite added_provider, contract_setBucket.
  by rewrite lookup_insert_eq.
Qed.

Lemma bucketOf_undone address w :
  bucketOf (provider (undone address w)) address = bucketOf (provider w) address.
Proof. unfold undone, bucketOf at 1; simpl. by rewrite lookup_insert_eq. Qed.

Lemma bucketOf_removed eventName id address b w :
  bucketOf (provider (removed eventName id address b w)) address = delete id b.
Proof. unfold removed, bucketOf; simpl. by rewrite lookup_insert_eq. Qed.

Lemma flagsFor_interest eventName :
  eventName ∈ contractEvents → flagsFor eventName ≠ noInterest.
Proof.
  unfold contractEvents. rewrite !elem_of_cons, elem_of_nil.
  intros [-> | [-> | []]]; by vm_compute.
Qed.

Lemma orFlags_noInterest_inv x y : orFlags x y = noInterest → x = noInterest.
Proof. destruct x as [[] []], y as [[] []]; by vm_compute. Qed.

(** The add closure on a handle that is not active. *)
Lemma add_outcome eventName id address upstream w sub r w' effects :
  consistent w → objects w !! id = Some sub →
  actions sub = ContractActions eventName id address →
  tableOf (provider w) eventName !! id = None →
  _subscribe (ContractActions eventName id address) upstream w = (r, w', effects) →
  let before := aggregateAt w address in
  let after := orFlags (flagsFor eventName) before in
  effects = (if decide (after = before) then [] else [ApiSubscribe address after])
  ∧ ((r = Ok tt ∧ w' = added eventName id address w ∧ aggregateAt w' address = after)
     ∨ (r = Throw UpstreamError ∧ w' = undone address w ∧ after ≠ before
        ∧ aggregateAt w' address = before)).
Proof.
  intros Hc Hobj Hact Htable.
  destruct (object_ok w Hc _ _ Hobj) as (_ & _ & Hev & _).
  rewrite Hact in Hev. simpl in Hev.
  pose proof (inactive_no_entry _ _ _ _ _ Hc Hobj Hact Htable) as Hnone.
  pose proof (no_entry_bucketOf w id address Hnone) as Hentry.
  rewrite _subscribe_add; [|done|done|by intros i x; apply bucketOf_allocated].
  intros Hres before after.
  assert (aggregateAt (added eventName id address w) address = after) as Hadded.
  { unfold aggregateAt. by rewrite bucketOf_added, aggregate_insert. }
  fold (aggregateAt w address) in Hres. fold before in Hres. fold after in Hres.
  destruct (decide (after = before)) as [Heq|Hne].
  - injection Hres as <- <- <-. split; [done|]. by left.
  - destruct upstream; injection Hres as <- <- <-; (split; [done|]).
    + by left.
    + right. rewrite rolledBack_undone by done.
      repeat split; try done. unfold aggregateAt. by rewrite bucketOf_undone.
Qed.

(** The remove closure on an id that has an entry. *)
Lemma remove_outcome eventName id address upstream w sub o r w' effects :
  consistent w → objects w !! id = Some sub →
  actions sub = ContractActions eventName id address →
  bucketOf (provider w) address !! id = Some o →
  _unsubscribe (ContractActions eventName id address) upstream w = (r, w', effects) →
  let before := aggregateAt w address in
  let rest := aggregate (delete id (bucketOf (provider w) address)) in
  bucketOf (provider w') address = delete id (bucketOf (provider w) address)
  ∧ before ≠ noInterest
  ∧ effects = (if decide (rest = noInterest) then [ApiUnsubscribe address]
               else if decide (rest = before) then []
               else [ApiSubscribe address rest]).
Proof.
  intros Hc Hobj Hact Ho.
  apply bucketOf_Some in Ho as (b & Hb & Ho).
  rewrite (_unsubscribe_remove _ _ _ _ _ b o) by (done || by eapply entry_refs).
  unfold aggregateAt. rewrite (bucketOf_lookup _ _ _ Hb).
  intros Hres. cbv zeta.
  assert (aggregate b ≠ noInterest) as Hinterest.
  { rewrite (aggregate_delete b id o Ho). intros Hnone%orFlags_noInterest_inv.
    destruct (entry_owned w Hc _ _ _ _ Hb Ho) as (_ & ev & sub' & Hobj' & Hact' & _ & Hflags).
    assert (sub' = sub) as -> by congruence.
    destruct (object_ok w Hc _ _ Hobj) as (_ & _ & _ & Hok).
    rewrite Hact' in Hok. simpl in Hok.
    apply (flagsFor_interest ev Hok). congruence. }
  unfold await in Hres.
  repeat case_decide; injection Hres as <- <- <-;
    rewrite bucketOf_removed; repeat split; try done; congruence.
Qed.

(** The listeners a handle fires are not upstream calls. *)
Lemma Subscription_subscribe_calls s sub upstream w r w' effects :
  objects w !! s = Some sub →
  Subscription_subscribe s upstream w = (r, w', effects) →
  ∃ e0, _subscribe (actions sub) upstream w = (r, w', e0)
    ∧ apiCalls effects = apiCalls e0.
Proof.
  intros Hobj. unfold Subscription_subscribe. rewrite Hobj.
  destruct (_subscribe _ _ _) as [[r0 w0] e0].
  destruct r0 as [[]|e]; intros [= <- <- <-]; eexists; split; try done.
  by rewrite apiCalls_with_fire.
Qed.

Lemma Subscription_unsubscribe_calls s sub upstream w r w' effects :
  objects w !! s = Some sub →
  Subscription_unsubscribe s upstream w = (r, w', effects) →
  ∃ e0, _unsubscribe (actions sub) upstream w = (r, w', e0)
    ∧ apiCalls effects = apiCalls e0.
Proof.
  intros Hobj. unfold Subscription_unsubscribe. rewrite Hobj.
  destruct (_unsubscribe _ _ _) as [[r0 w0] e0].
  destruct r0 as [[]|e]; intros [= <- <- <-]; eexists; split; try done.
  by rewrite apiCalls_with_fire.
Qed.

End SyncFacts.

Section SyncOperations.
Implicit Types (w : World) (p : ProviderRpcClient) (b : gmap nat FlagsObject).

Lemma contract_not_simple eventName :
  eventName ∈ contractEvents → eventName ∉ simpleEvents.
Proof.
  unfold contractEvents, simpleEvents. rewrite !elem_of_cons, !elem_of_nil.
  intros [-> | [-> | []]]; intros Hin; by decompose [or] Hin.
Qed.

Lemma contract_getEventSubscriptions eventName p :
  _contractSubscriptions (_getEventSubscriptions eventName p) = _contractSubscriptions p.
Proof.
  unfold _getEventSubscriptions. destruct (_ !! eventName); [done|]. by case_bool_decide.
Qed.

Lemma bucketOf_getEventSubscriptions eventName p address :
  bucketOf (_getEventSubscriptions eventName p) address = bucketOf p address.
Proof. unfold bucketOf. by rewrite contract_getEventSubscriptions. Qed.

Lemma apiCalls_subscribe_call {P} `{!Decision P} address wanted :
  apiCalls (if decide P then [] else [ApiSubscribe address wanted])
  = (if decide P then [] else [ApiSubscribe address wanted]).
Proof. by case_decide. Qed.

(** A completed add leaves upstream in step. *)
Lemma added_inSync address new w w' effects :
  new ≠ noInterest →
  aggregateAt w' address = orFlags new (aggregateAt w address) →
  apiCalls effects
  = (if decide (orFlags new (aggregateAt w address) = aggregateAt w address) then []
     else [ApiSubscribe address (orFlags new (aggregateAt w address))]) →
  inSync address w w' effects.
Proof.
  intros Hnew Hagg Hcalls. unfold inSync. rewrite Hagg, Hcalls.
  case_decide; [done|]. unfold callFor. rewrite decide_False; [done|].
  by intros ?%orFlags_noInterest_inv.
Qed.

Lemma add_addInSync eventName id address upstream w sub r w' effects :
  consistent w → objects w !! id = Some sub →
  actions sub = ContractActions eventName id address →
  tableOf (provider w) eventName !! id = None →
  _subscribe (ContractActions eventName id address) upstream w = (r, w', effects) →
  effects = apiCalls effects ∧ addInSync address (flagsFor eventName) w r w' effects.
Proof.
  intros Hc Hobj Hact Htable Hres.
  destruct (object_ok w Hc _ _ Hobj) as (_ & _ & _ & Hok).
  rewrite Hact in Hok. simpl in Hok.
  destruct (add_outcome _ _ _ _ _ _ _ _ _ Hc Hobj Hact Htable Hres) as [Heff Hcases].
  assert (effects = apiCalls effects) as Hapi.
  { rewrite Heff. by rewrite apiCalls_subscribe_call. }
  split; [done|]. unfold addInSync. rewrite <- Hapi. split; [done|].
  destruct Hcases as [(-> & _ & Hagg) | (-> & _ & Hne & Hagg)]; [|done].
  split; [done|]. apply (added_inSync address (flagsFor eventName)); try done.
  - by apply flagsFor_interest.
  - by rewrite <- Hapi.
Qed.

Lemma Subscription_subscribe_addInSync s sub eventName address upstream w r w' effects :
  consistent w → objects w !! s = Some sub →
  actions sub = ContractActions eventName s address →
  ¬ active (actions sub) (provider w) →
  Subscription_subscribe s upstream w = (r, w', effects) →
  addInSync address (flagsFor eventName) w r w' effects.
Proof.
  intros Hc Hobj Hact Hinactive. unfold Subscription_subscribe.
  rewrite Hobj, Hact.
  assert (tableOf (provider w) eventName !! s = None) as Htable.
  { rewrite Hact in Hinactive. unfold active in Hinactive. simpl in Hinactive.
    by apply eq_None_not_Some. }
  destruct (_subscribe _ _ _) as [[r0 w0] e0] eqn:Hres.
  destruct (add_addInSync _ _ _ _ _ _ _ _ _ Hc Hobj Hact Htable Hres) as [Hapi Hsync].
  unfold addInSync, inSync in *.
  destruct r0; intros [= <- <- <-]; [|done].
  by rewrite apiCalls_with_fire.
Qed.

Lemma subscribe_addInSync eventName address upstream w r w' effects :
  consistent w → eventName ∈ contractEvents →
  subscribe eventName (Some address) upstream w = (r, w', effects) →
  addInSync address (flagsFor eventName) w r w' effects.
Proof.
  intros Hc Hcontract. unfold subscribe.
  pose proof (consistent_getEventSubscriptions eventName w Hc) as Hc1.
  set (w1 := setProvider _ w) in *.
  assert (is_Some (_subscriptions (provider w1) !! eventName)) as Hev
    by (apply getEventSubscriptions_creates; by right).
  assert (aggregateAt w1 address = aggregateAt w address) as Hsame.
  { unfold aggregateAt, w1; simpl. by rewrite bucketOf_getEventSubscriptions. }
  change (getUniqueId w1) with (idCounter w1, (getUniqueId w1).2). cbv beta iota.
  rewrite bool_decide_eq_false_2 by by apply contract_not_simple.
  rewrite bool_decide_eq_true_2 by done.
  set (a := ContractActions eventName (idCounter w1) address).
  pose proof (consistent_new_object a w1 Hc1 eq_refl Hcontract Hev) as Hc3.
  unfold openWith. set (w3 := setObjects _ _) in *.
  assert (objects w3 !! idCounter w1
          = Some {| actions := a; _listeners := noListeners |}) as Hobj
    by apply lookup_insert_eq.
  assert (objects w1 !! idCounter w1 = None) as Hfresh.
  { destruct (objects w1 !! idCounter w1) as [sub|] eqn:Hsub; [|done].
    destruct (object_ok w1 Hc1 _ _ Hsub). lia. }
  destruct (unknown_id_unused w1 _ Hc1 Hfresh) as [Htables _].
  destruct (Subscription_subscribe _ _ w3) as [[r0 w4] e0] eqn:Hres.
  apply (Subscription_subscribe_addInSync _ {| actions := a; _listeners := noListeners |}
           eventName address) in Hres; try done.
  - unfold addInSync, inSync in *.
    change (aggregateAt w3 address) with (aggregateAt w1 address) in Hres.
    rewrite Hsame in Hres.
    destruct r0; intros [= <- <- <-]; done.
  - intros [h Hh]. pose proof (Htables eventName) as Hn.
    change (tableOf (provider w1) eventName !! idCounter w1 = Some h) in Hh.
    congruence.
Qed.

Lemma Subscription_unsubscribe_removeInSync s sub eventName address upstream w r w' effects :
  consistent w → objects w !! s = Some sub →
  actions sub = ContractActions eventName s address →
  is_Some (bucketOf (provider w) address !! s) →
  Subscription_unsubscribe s upstream w = (r, w', effects) →
  removeInSync address s w w' effects.
Proof.
  intros Hc Hobj Hact [o Ho]. unfold Subscription_unsubscribe.
  rewrite Hobj, Hact.
  destruct (_unsubscribe _ _ _) as [[r0 w0] e0] eqn:Hres.
  destruct (remove_outcome _ _ _ _ _ _ _ _ _ _ Hc Hobj Hact Ho Hres)
    as (Hbucket & Hbefore & Heff).
  assert (apiCalls e0 = e0) as Hapi.
  { rewrite Heff. by repeat case_decide. }
  assert (removeInSync address s w w0 e0) as Hsync.
  { unfold removeInSync, inSync, aggregateAt. rewrite Hbucket, Hapi.
    split; [done|]. split; [done|]. rewrite Heff. unfold callFor.
    unfold aggregateAt in Hbefore.
    repeat case_decide; try done; congruence. }
  unfold removeInSync, inSync in *.
  destruct r0; intros [= <- <- <-]; [|done].
  by rewrite apiCalls_with_fire.
Qed.

End SyncOperations.

(** C1 (amended).  In every world reached by a sequence of operations run
    one after the other, for every address: an add, whether it comes with
    the creation of a handle or with a later [subscribe()] on a handle that
    is not active, issues subscribe with the OR that includes the new flags
    exactly when that OR differs from the OR without them; when the add
    completes, that OR is the one registered afterwards, a call was issued
    if and only if the registered OR changed, and the call conveys it; when
    the upstream call is rejected, the registered OR is the one from before.
    A remove of an id that has an entry deletes the entry and issues
    unsubscribe when the remaining OR is empty, subscribe with the remaining
    OR when it differs from the previous total, and nothing otherwise; a
    call is issued if and only if the registered OR changed, and it conveys
    the OR registered afterwards. *)
Theorem upstream_follows_registered_interest (w : World) (address : string) :
  reachable w →
  (∀ eventName upstream r w' effects,
     eventName ∈ contractEvents →
     subscribe eventName (Some address) upstream w = (r, w', effects) →
     addInSync address (flagsFor eventName) w r w' effects)
  ∧ (∀ s sub eventName upstream r w' effects,
       objects w !! s = Some sub →
       actions sub = ContractActions eventName s address →
       ¬ active (actions sub) (provider w) →
       Subscription_subscribe s upstream w = (r, w', effects) →
       addInSync address (flagsFor eventName) w r w' effects)
  ∧ (∀ s sub eventName upstream r w' effects,
       objects w !! s = Some sub →
       actions sub = ContractActions eventName s address →
       is_Some (bucketOf (provider w) address !! s) →
       Subscription_unsubscribe s upstream w = (r, w', effects) →
       removeInSync address s w w' effects).
Proof.
  intros Hc%reachable_consistent. split; [|split].
  - intros eventName upstream r w' effects Hev Hop.
    by eapply subscribe_addInSync.
  - intros s sub eventName upstream r w' effects Hobj Hact Hinactive Hop.
    by eapply Subscription_subscribe_addInSync.
  - intros s sub eventName upstream r w' effects Hobj Hact Hentry Hop.
    by eapply Subscription_unsubscribe_removeInSync.
Qed.

Lemma upstream_follows_registered_interest_witness :
  removeInSync "a" 0
    (run [OpSubscribe "transactionsFound" (Some "a") true;
          OpSubscribe "contractStateChanged" (Some "a") true] initial).1
    (Subscription_unsubscribe 0 true
       (run [OpSubscribe "transactionsFound" (Some "a") true;
             OpSubscribe "contractStateChanged" (Some "a") true] initial).1).1.2
    (Subscription_unsubscribe 0 true
       (run [OpSubscribe "transactionsFound" (Some "a") true;
             OpSubscribe "contractStateChanged" (Some "a") true] initial).1).2.
Proof.
  set (w := (run [OpSubscribe "transactionsFound" (Some "a") true;
                  OpSubscribe "contractStateChanged" (Some "a") true] initial).1).
  assert (reachable w) as Hreach by (eexists; reflexivity).
  destruct (upstream_follows_registered_interest w "a" Hreach) as (_ & _ & Hremove).
  apply (Hremove 0 {| actions := ContractActions "transactionsFound" 0 "a";
                      _listeners := noListeners |} "transactionsFound" true
           (Subscription_unsubscribe 0 true w).1.1).
  - by vm_compute.
  - reflexivity.
  - eexists. by vm_compute.
  - by vm_compute.
Defined.

(** An add whose upstream call is rejected: subscribe was issued although the
    registered OR is what it was before. *)
Lemma rejected_add_breaks_sync :
  ∃ r w' effects,
    subscribe "transactionsFound" (Some "a") false initial = (r, w', effects)
    ∧ apiCalls effects = [ApiSubscribe "a" {| state := false; transactions := true |}]
    ∧ aggregateAt w' "a" = aggregateAt initial "a"
    ∧ ¬ inSync "a" initial w' effects.
Proof.
  destruct (subscribe "transactionsFound" (Some "a") false initial)
    as [[r w'] effects] eqn:Hop.
  exists r, w', effects. split; [done|].
  vm_compute in Hop. injection Hop as <- <- <-.
  split; [by vm_compute|]. split; [by vm_compute|].
  unfold inSync. vm_compute. discriminate.
Qed.

(** Calling [unsubscribe()] again on a handle whose address has an empty
    bucket issues unsubscribe once more, the registered OR being unchanged. *)
Lemma repeated_unsubscribe_calls_upstream :
  ∃ w r w' effects,
    (run [OpSubscribe "transactionsFound" (Some "a") true; OpUnsubscribe 0 true] initial).1 = w
    ∧ Subscription_unsubscribe 0 true w = (r, w', effects)
    ∧ bucketOf (provider w) "a" !! 0 = None
    ∧ apiCalls effects = [ApiUnsubscribe "a"]
    ∧ aggregateAt w' "a" = aggregateAt w "a".
Proof.
  eexists. destruct (Subscription_unsubscribe 0 true _) as [[r w'] effects] eqn:Hop.
  exists r, w', effects. split; [done|]. split; [done|].
  vm_compute in Hop. injection Hop as <- <- <-.
  by vm_compute.
Qed.

(** ** Removing the only subscriber of an address *)

(** C4 (amended).  Removing the only id registered for an address issues
    exactly one upstream call, an unsubscribe for that address, and leaves
    the address's bucket in the registry, empty. *)
Theorem last_unsubscribe_issues_unsubscribe (s : nat) (sub : Subscription)
    (eventName address : string) (o : FlagsObject) (upstream : bool)
    (w : World) (r : Result unit) (w' : World) (effects : list Effect) :
  objects w !! s = Some sub →
  actions sub = ContractActions eventName s address →
  _contractSubscriptions (provider w) !! address = Some {[s := o]} →
  Subscription_unsubscribe s upstream w = (r, w', effects) →
  apiCalls effects = [ApiUnsubscribe address]
  ∧ _contractSubscriptions (provider w') !! address = Some ∅.
Proof.
  intros Hobj Hact Hb Hop.
  destruct (Subscription_unsubscribe_calls _ _ _ _ _ _ _ Hobj Hop) as (e0 & Hact0 & ->).
  rewrite Hact in Hact0.
  rewrite (_unsubscribe_remove _ _ _ _ _ {[s := o]} o) in Hact0;
    [|done|apply lookup_singleton_eq|].
  - rewrite delete_singleton_eq, aggregate_empty, decide_True in Hact0 by done.
    unfold await, removed in Hact0.
    assert (w' = setProvider (setBucket address ∅ (deleteHandler eventName s (provider w))) w
            ∧ e0 = [ApiUnsubscribe address]) as [-> ->]
      by (rewrite delete_singleton_eq in Hact0;
          destruct upstream; by injection Hact0 as _ <- <-).
    split; [done|]. simpl. by rewrite lookup_insert_eq.
  - intros i j x y [-> _]%lookup_singleton_Some [-> _]%lookup_singleton_Some. done.
Qed.

Lemma last_unsubscribe_issues_unsubscribe_witness :
  apiCalls
    (Subscription_unsubscribe 0 true
       (run [OpSubscribe "transactionsFound" (Some "a") true] initial).1).2
  = [ApiUnsubscribe "a"]
  ∧ _contractSubscriptions
      (provider (Subscription_unsubscribe 0 true
         (run [OpSubscribe "transactionsFound" (Some "a") true] initial).1).1.2) !! "a"
    = Some ∅.
Proof.
  apply (last_unsubscribe_issues_unsubscribe 0
           {| actions := ContractActions "transactionsFound" 0 "a";
              _listeners := noListeners |}
           "transactionsFound" "a"
           {| ref := 0; flags := {| state := false; transactions := true |} |} true
           (run [OpSubscribe "transactionsFound" (Some "a") true] initial).1
           (Subscription_unsubscribe 0 true
              (run [OpSubscribe "transactionsFound" (Some "a") true] initial).1).1.1).
  - by vm_compute.
  - reflexivity.
  - by vm_compute.
  - by vm_compute.
Defined.

(** After the only subscriber of address [a] has unsubscribed, the bucket of
    [a] is still in the registry. *)
Lemma emptied_bucket_is_kept :
  ∃ w r w' effects,
    (run [OpSubscribe "transactionsFound" (Some "a") true] initial).1 = w
    ∧ Subscription_unsubscribe 0 true w = (r, w', effects)
    ∧ bucketOf (provider w') "a" = ∅
    ∧ _contractSubscriptions (provider w') !! "a" ≠ None.
Proof.
  eexists. destruct (Subscription_unsubscribe 0 true _) as [[r w'] effects] eqn:Hop.
  exists r, w', effects. split; [done|]. split; [done|].
  vm_compute in Hop. injection Hop as <- <- <-.
  by vm_compute.
Qed.

(** ** Unknown topics *)

(** C5 (amended).  For every topic name outside the six known ones,
    [subscribe] throws, issues no call and registers nothing: no callback
    and no interest entry is added, the address interest registry and the
    stored handles are unchanged, and the topic registry is unchanged except
    that it gains an empty table for that name when reading the name from the
    registry gave nothing: the registry had no table under it and the name is
    not a member that every object inherits from [Object.prototype], such as
    [toString]. *)
Theorem unknown_event_rejected (eventName : string) (params : option string)
    (upstream : bool) (w : World) :
  eventName ∉ knownEvents →
  ∃ w', subscribe eventName params upstream w = (Throw (UnknownEvent eventName), w', [])
    ∧ _contractSubscriptions (provider w') = _contractSubscriptions (provider w)
    ∧ objects w' = objects w
    ∧ (∀ topic, tableOf (provider w') topic = tableOf (provider w) topic)
    ∧ _subscriptions (provider w')
      = if decide (_subscriptions (provider w) !! eventName = None
                   ∧ eventName ∉ Object_prototype)
        then <[eventName := ∅]> (_subscriptions (provider w))
        else _subscriptions (provider w).
Proof.
  intros Hunknown. unfold subscribe.
  change (getUniqueId ?x) with (idCounter x, (getUniqueId x).2). cbv beta iota.
  rewrite bool_decide_eq_false_2.
  2:{ intros Hin. apply Hunknown. unfold simpleEvents, knownEvents in *.
      rewrite !elem_of_cons, !elem_of_nil in *. tauto. }
  rewrite bool_decide_eq_false_2.
  2:{ intros Hin. apply Hunknown. unfold contractEvents, knownEvents in *.
      rewrite !elem_of_cons, !elem_of_nil in *. tauto. }
  eexists. split; [done|]. simpl.
  split; [apply contract_getEventSubscriptions|split; [done|split]].
  - intros topic. apply tableOf_getEventSubscriptions.
  - unfold _getEventSubscriptions.
    destruct (_subscriptions (provider w) !! eventName) as [table|] eqn:Hown.
    + rewrite decide_False; [done|]. by intros [? _].
    + case_bool_decide as Hinherited.
      * rewrite decide_False; [done|]. by intros [_ ?].
      * by rewrite decide_True.
Qed.

Lemma unknown_event_rejected_witness :
  ∃ w', subscribe "blockFound" None true initial = (Throw (UnknownEvent "blockFound"), w', [])
    ∧ _contractSubscriptions (provider w') = _contractSubscriptions (provider initial)
    ∧ objects w' = objects initial
    ∧ (∀ topic, tableOf (provider w') topic = tableOf (provider initial) topic)
    ∧ _subscriptions (provider w')
      = if decide (_subscriptions (provider initial) !! "blockFound" = None
                   ∧ "blockFound" ∉ Object_prototype)
        then <[ "blockFound" := ∅]> (_subscriptions (provider initial))
        else _subscriptions (provider initial).
Proof.
  apply (unknown_event_rejected "blockFound" None true initial).
  apply (bool_decide_eq_false_1 ("blockFound" ∈ knownEvents)). by vm_compute.
Defined.

(** An unknown name that every object inherits is found when the registry is
    read, so not even a table is created for it. *)
Lemma inherited_name_creates_no_table :
  subscribe "toString" None true initial
  = (Throw (UnknownEvent "toString"), (getUniqueId initial).2, []).
Proof. by vm_compute. Qed.

(** Subscribing to an unknown topic leaves an empty table for it in the
    topic registry. *)
Lemma unknown_event_leaves_table :
  ∃ r w' effects,
    subscribe "blockFound" None true initial = (r, w', effects)
    ∧ r = Throw (UnknownEvent "blockFound")
    ∧ _subscriptions (provider initial) !! "blockFound" = None
    ∧ _subscriptions (provider w') !! "blockFound" = Some ∅
    ∧ _subscriptions (provider w') ≠ _subscriptions (provider initial).
Proof.
  destruct (subscribe "blockFound" None true initial) as [[r w'] effects] eqn:Hop.
  exists r, w', effects. split; [done|].
  vm_compute in Hop. injection Hop as <- <- <-.
  split; [done|]. split; [by vm_compute|]. split; [by vm_compute|].
  intros Heq. apply (f_equal (λ m, m !! "blockFound")) in Heq.
  by vm_compute in Heq.
Qed.

(** ** A rejected upstream subscribe *)

Section Rollback.
Implicit Types (w : World).

Lemma rejected_add_outcome eventName id address w sub r w' effects :
  consistent w → objects w !! id = Some sub →
  actions sub = ContractActions eventName id address →
  _subscribe (ContractActions eventName id address) false w = (r, w', effects) →
  apiCalls effects ≠ [] →
  r = Throw UpstreamError ∧ w' = undone address w
  ∧ tableOf (provider w) eventName !! id = None
  ∧ bucketOf (provider w) address !! id = None.
Proof.
  intros Hc Hobj Hact Hres Hcalls.
  destruct (object_ok w Hc _ _ Hobj) as (_ & _ & Hev & _).
  rewrite Hact in Hev. simpl in Hev.
  destruct (tableOf (provider w) eventName !! id) eqn:Htable.
  { simpl in Hres. rewrite Htable in Hres. by injection Hres as <- <- <-. }
  pose proof (inactive_no_entry _ _ _ _ _ Hc Hobj Hact Htable) as Hnone.
  pose proof (no_entry_bucketOf w id address Hnone) as Hentry.
  rewrite _subscribe_add in Hres;
    [|done|done|by intros i x; apply bucketOf_allocated].
  case_decide; injection Hres as <- <- <-; [done|].
  by rewrite rolledBack_undone.
Qed.

End Rollback.

(** C6 (amended).  When the upstream subscribe issued during an add is
    rejected, the operation throws after removing the entry and the callback
    it had just inserted for the id: the topic registry is as it was when the
    add began, the stored handles are unchanged, and the bucket of the
    address holds exactly the entries it held before.  The bucket itself is
    left in the registry, so when the address had no bucket before the add it
    has an empty one afterwards; when it had one, the address interest
    registry is as it was.  The first part is the add that comes with the
    creation of a handle, the second a later [subscribe()] on a handle. *)
Theorem rejected_add_is_undone (w : World) (address : string) :
  reachable w →
  (∀ eventName r w' effects,
     eventName ∈ contractEvents →
     subscribe eventName (Some address) false w = (r, w', effects) →
     apiCalls effects ≠ [] →
     r = Throw UpstreamError
     ∧ _subscriptions (provider w')
       = _subscriptions (_getEventSubscriptions eventName (provider w))
     ∧ _contractSubscriptions (provider w')
       = <[address := bucketOf (provider w) address]> (_contractSubscriptions (provider w))
     ∧ objects w' = objects w)
  ∧ (∀ s sub eventName r w' effects,
       objects w !! s = Some sub →
       actions sub = ContractActions eventName s address →
       Subscription_subscribe s false w = (r, w', effects) →
       apiCalls effects ≠ [] →
       r = Throw UpstreamError
       ∧ tableOf (provider w') eventName !! s = None
       ∧ bucketOf (provider w') address !! s = None
       ∧ _subscriptions (provider w') = _subscriptions (provider w)
       ∧ _contractSubscriptions (provider w')
         = <[address := bucketOf (provider w) address]> (_contractSubscriptions (provider w))
       ∧ (is_Some (_contractSubscriptions (provider w) !! address) →
          provider w' = provider w)
       ∧ objects w' = objects w).
Proof.
  intros Hc%reachable_consistent. split.
  - intros eventName r w' effects Hcontract. unfold subscribe.
    pose proof (consistent_getEventSubscriptions eventName w Hc) as Hc1.
    set (w1 := setProvider _ w) in *.
    assert (is_Some (_subscriptions (provider w1) !! eventName)) as Hev
      by (apply getEventSubscriptions_creates; by right).
    change (getUniqueId w1) with (idCounter w1, (getUniqueId w1).2). cbv beta iota.
    rewrite bool_decide_eq_false_2 by by apply contract_not_simple.
    rewrite bool_decide_eq_true_2 by done.
    set (a := ContractActions eventName (idCounter w1) address).
    pose proof (consistent_new_object a w1 Hc1 eq_refl Hcontract Hev) as Hc3.
    unfold openWith. set (w3 := setObjects _ _) in *.
    assert (objects w3 !! idCounter w1
            = Some {| actions := a; _listeners := noListeners |}) as Hobj
      by apply lookup_insert_eq.
    assert (objects w !! idCounter w = None) as Hfresh.
    { destruct (objects w !! idCounter w) as [sub|] eqn:Hsub; [|done].
      destruct (object_ok w Hc _ _ Hsub). lia. }
    destruct (Subscription_subscribe _ _ w3) as [[r0 w4] e0] eqn:Hres.
    destruct (Subscription_subscribe_calls _ _ _ _ _ _ _ Hobj Hres) as (e1 & Hact & Hcalls).
    intros Hop Hissued.
    assert (apiCalls e1 ≠ []) as Hissued1.
    { rewrite <- Hcalls. by destruct r0; injection Hop as <- <- <-. }
    destruct (rejected_add_outcome _ _ _ _ _ _ _ _ Hc3 Hobj eq_refl Hact Hissued1)
      as (-> & -> & _ & _).
    injection Hop as <- <- <-. split; [done|]. split; [done|]. split.
    + unfold undone, w3, w1; simpl.
      by rewrite bucketOf_getEventSubscriptions, contract_getEventSubscriptions.
    + unfold undone, w3, w1; simpl.
      by rewrite delete_insert_eq, delete_id.
  - intros s sub eventName r w' effects Hobj Hact Hop Hissued.
    destruct (Subscription_subscribe_calls _ _ _ _ _ _ _ Hobj Hop) as (e1 & Hact1 & Hcalls).
    rewrite Hcalls in Hissued. rewrite Hact in Hact1.
    destruct (rejected_add_outcome _ _ _ _ _ _ _ _ Hc Hobj Hact Hact1 Hissued)
      as (-> & -> & Htable & Hentry).
    split; [done|]. split; [done|]. split; [by rewrite bucketOf_undone|].
    split; [done|]. split; [done|]. split; [|done].
    intros [b Hb]. unfold undone; simpl. unfold setBucket.
    rewrite (bucketOf_lookup _ _ _ Hb), insert_id by done.
    by destruct (provider w).
Qed.

Lemma rejected_add_is_undone_witness :
  (Subscription_subscribe 0 false
     (run [OpSubscribe "transactionsFound" (Some "a") true; OpUnsubscribe 0 true] initial).1).1.1
  = Throw UpstreamError
  ∧ provider (Subscription_subscribe 0 false
      (run [OpSubscribe "transactionsFound" (Some "a") true; OpUnsubscribe 0 true] initial).1).1.2
    = provider (run [OpSubscribe "transactionsFound" (Some "a") true;
                     OpUnsubscribe 0 true] initial).1.
Proof.
  set (w := (run [OpSubscribe "transactionsFound" (Some "a") true;
                  OpUnsubscribe 0 true] initial).1).
  assert (reachable w) as Hreach by (eexists; reflexivity).
  destruct (rejected_add_is_undone w "a" Hreach) as [_ Hhandle].
  destruct (Hhandle 0 {| actions := ContractActions "transactionsFound" 0 "a";
                         _listeners := noListeners |} "transactionsFound"
              (Subscription_subscribe 0 false w).1.1
              (Subscription_subscribe 0 false w).1.2
              (Subscription_subscribe 0 false w).2)
    as (Hr & _ & _ & _ & _ & Hsame & _).
  - by vm_compute.
  - reflexivity.
  - by vm_compute.
  - by vm_compute.
  - split; [exact Hr|]. apply Hsame. eexists. by vm_compute.
Defined.

(** The first add for an address, rejected upstream: the address had no
    bucket when the add began and has an empty one after the rollback. *)
Lemma rejected_first_add_leaves_bucket :
  ∃ r w' effects,
    subscribe "transactionsFound" (Some "a") false initial = (r, w', effects)
    ∧ r = Throw UpstreamError
    ∧ _contractSubscriptions
        (_getEventSubscriptions "transactionsFound" (provider initial)) !! "a" = None
    ∧ _contractSubscriptions (provider w') !! "a" = Some ∅
    ∧ _contractSubscriptions (provider w') ≠ _contractSubscriptions (provider initial).
Proof.
  destruct (subscribe "transactionsFound" (Some "a") false initial)
    as [[r w'] effects] eqn:Hop.
  exists r, w', effects. split; [done|].
  vm_compute in Hop. injection Hop as <- <- <-.
  split; [done|]. split; [by vm_compute|]. split; [by vm_compute|].
  intros Heq. apply (f_equal (λ m, m !! "a")) in Heq.
  by vm_compute in Heq.
Qed.

(** ** Handles across subscribe and unsubscribe *)

Section HandleFacts.
Implicit Types (w : World) (a : Actions).

Lemma _subscribe_objects a upstream w r w' effects :
  _subscribe a upstream w = (r, w', effects) → objects w' = objects w.
Proof.
  destruct a as [eventName id|eventName id address]; simpl.
  - destruct (tableOf _ _ !! id); by intros [= <- <- <-].
  - destruct (tableOf _ _ !! id); [by intros [= <- <- <-]|].
    destruct (foldSubscriptions _ _) as [total withoutExcluded].
    repeat case_match; by intros [= <- <- <-].
Qed.

Lemma _unsubscribe_objects a upstream w r w' effects :
  _unsubscribe a upstream w = (r, w', effects) → objects w' = objects w.
Proof.
  destruct a as [eventName id|eventName id address]; simpl.
  - by intros [= <- <- <-].
  - destruct (_contractSubscriptions _ !! address); [|by intros [= <- <- <-]].
    destruct (foldSubscriptions _ _) as [total withoutExcluded].
    unfold await. repeat case_match; by intros [= <- <- <-].
Qed.

Lemma Subscription_subscribe_objects s upstream w r w' effects :
  Subscription_subscribe s upstream w = (r, w', effects) → objects w' = objects w.
Proof.
  unfold Subscription_subscribe.
  destruct (objects w !! s) as [sub|]; [|by intros [= <- <- <-]].
  destruct (_subscribe _ _ _) as [[r0 w0] e0] eqn:Hact.
  apply _subscribe_objects in Hact.
  destruct r0; by intros [= <- <- <-].
Qed.

Lemma Subscription_unsubscribe_objects s upstream w r w' effects :
  Subscription_unsubscribe s upstream w = (r, w', effects) → objects w' = objects w.
Proof.
  unfold Subscription_unsubscribe.
  destruct (objects w !! s) as [sub|]; [|by intros [= <- <- <-]].
  destruct (_unsubscribe _ _ _) as [[r0 w0] e0] eqn:Hact.
  apply _unsubscribe_objects in Hact.
  destruct r0; by intros [= <- <- <-].
Qed.

(** After the second closure has run the handle is not active. *)
Lemma _unsubscribe_inactive a upstream w r w' effects :
  _unsubscribe a upstream w = (r, w', effects) →
  tableOf (provider w') (actionsEvent a) !! actionsId a = None.
Proof.
  destruct a as [eventName id|eventName id address]; simpl.
  - intros [= <- <- <-]. simpl. by rewrite tableOf_deleteHandler, decide_True.
  - assert (tableOf (deleteHandler eventName id (provider w)) eventName !! id = None)
      as Hgone by by rewrite tableOf_deleteHandler, decide_True.
    destruct (_contractSubscriptions _ !! address); [|by intros [= <- <- <-]].
    destruct (foldSubscriptions _ _) as [total withoutExcluded].
    unfold await. repeat case_match; by intros [= <- <- <-].
Qed.

(** After the first closure has completed the handle is active; when it
    was not active before, the callback stored is its own. *)
Lemma _subscribe_active a upstream w w' effects :
  _subscribe a upstream w = (Ok tt, w', effects) →
  active a (provider w')
  ∧ (tableOf (provider w) (actionsEvent a) !! actionsId a = None →
     tableOf (provider w') (actionsEvent a) !! actionsId a
     = Some (handlerOf a (actionsId a))).
Proof.
  unfold active.
  destruct a as [eventName id|eventName id address]; simpl.
  - destruct (tableOf _ _ !! id) eqn:Htable; intros [= <- <-].
    + by rewrite Htable.
    + simpl. by rewrite tableOf_setHandler, decide_True.
  - destruct (tableOf _ _ !! id) eqn:Htable; [intros [= <- <-]; by rewrite Htable|].
    destruct (foldSubscriptions _ _) as [total withoutExcluded].
    assert (tableOf (setHandler eventName id (ForwardIfAddress address id) (provider w))
              eventName !! id = Some (ForwardIfAddress address id)) as Hset
      by by rewrite tableOf_setHandler, decide_True.
    repeat case_match; intros [= <- <-]; simpl;
      rewrite tableOf_setBucket, Hset; done.
Qed.

(** The first closure on an active handle does nothing. *)
Lemma _subscribe_noop a upstream w :
  active a (provider w) → _subscribe a upstream w = (Ok tt, w, []).
Proof.
  unfold active. intros [h Hh].
  destruct a as [eventName id|eventName id address]; simpl in *; by rewrite Hh.
Qed.

Lemma emit_reaches_handler eventName d w id h effect :
  eventName ∈ knownEvents →
  tableOf (provider w) eventName !! id = Some h →
  effect ∈ runHandler h d w →
  effect ∈ emit eventName d w.
Proof.
  intros Hknown Hh Hin. unfold emit. rewrite bool_decide_eq_true_2 by done.
  unfold tableOf in Hh.
  destruct (_subscriptions (provider w) !! eventName) as [handlers|]; simpl in Hh;
    [|by rewrite lookup_empty in Hh].
  apply list_elem_of_In, in_flat_map. exists h. split.
  - apply list_elem_of_In, elem_of_Object_values. by exists id.
  - by apply list_elem_of_In.
Qed.

Lemma notify_calls_listener s d w listener :
  listener ∈ listenersOf s data w →
  Call listener (Some d) ∈ Subscription_notify s d w.
Proof.
  intros Hin. unfold Subscription_notify, fire.
  by apply (list_elem_of_fmap_2 (λ handler, Call handler (Some d))).
Qed.

End HandleFacts.

(** C8. [unsubscribe()] and [subscribe()] leave the listener table of every
    handle as it was, so a ['data'] listener registered before an
    [unsubscribe()] followed by a [subscribe()] on the same handle is still
    called by every later [notify] on that handle; and once that
    [subscribe()] has completed, a raw event meant for the handle reaches
    the listener. *)
Theorem data_listeners_survive_resubscribe (s : nat) (sub : Subscription)
    (listener : Listener) (d : EventData) (u1 u2 : bool)
    (w w1 w2 : World) (r1 r2 : Result unit) (e1 e2 : list Effect) :
  objects w !! s = Some sub →
  actionsId (actions sub) = s →
  listener ∈ listenersOf s data w →
  Subscription_unsubscribe s u1 w = (r1, w1, e1) →
  Subscription_subscribe s u2 w1 = (r2, w2, e2) →
  objects w1 = objects w ∧ objects w2 = objects w
  ∧ listenersOf s data w2 = listenersOf s data w
  ∧ Call listener (Some d) ∈ Subscription_notify s d w2
  ∧ (r2 = Ok tt → meantFor (actions sub) d →
     Call listener (Some d) ∈ emit (actionsEvent (actions sub)) d w2).
Proof.
  intros Hobj Hid Hlistener Hunsub Hsub.
  pose proof (Subscription_unsubscribe_objects _ _ _ _ _ _ Hunsub) as Ho1.
  pose proof (Subscription_subscribe_objects _ _ _ _ _ _ Hsub) as Ho2.
  assert (listenersOf s data w2 = listenersOf s data w) as Hsame
    by (unfold listenersOf; by rewrite Ho2, Ho1).
  assert (Call listener (Some d) ∈ Subscription_notify s d w2) as Hnotify
    by (apply notify_calls_listener; by rewrite Hsame).
  split; [done|]. split; [congruence|]. split; [done|]. split; [done|].
  intros -> [Hknown Haddress].
  unfold Subscription_unsubscribe in Hunsub. rewrite Hobj in Hunsub.
  destruct (_unsubscribe _ _ _) as [[r0 w0] e0] eqn:Hact.
  apply _unsubscribe_inactive in Hact.
  assert (w0 = w1) as -> by (destruct r0; by injection Hunsub as <- <- <-).
  unfold Subscription_subscribe in Hsub. rewrite Ho1, Hobj in Hsub.
  destruct (_subscribe _ _ _) as [[r3 w3] e3] eqn:Hact2.
  destruct r3 as [[]|e]; [|done]. injection Hsub as <- <-.
  apply _subscribe_active in Hact2 as [_ Hstored].
  specialize (Hstored Hact). rewrite Hid in Hstored.
  eapply emit_reaches_handler; [done..|].
  destruct (actions sub) as [eventName id|eventName id address]; simpl in *; [done|].
  by rewrite bool_decide_eq_true_2.
Qed.

Lemma data_listeners_survive_resubscribe_witness :
  Call 7 (Some {| data_address := Some "a"; data_body := 5 |})
  ∈ emit "transactionsFound" {| data_address := Some "a"; data_body := 5 |}
      (run [OpSubscribe "transactionsFound" (Some "a") true; OpOn 0 data 7;
            OpUnsubscribe 0 true; OpResubscribe 0 true] initial).1.
Proof.
  set (w := (run [OpSubscribe "transactionsFound" (Some "a") true; OpOn 0 data 7] initial).1).
  destruct (data_listeners_survive_resubscribe 0
              {| actions := ContractActions "transactionsFound" 0 "a";
                 _listeners := {| on_data := [7]; on_subscribed := [];
                                  on_unsubscribed := [] |} |}
              7 {| data_address := Some "a"; data_body := 5 |} true true
              w (Subscription_unsubscribe 0 true w).1.2
              (Subscription_subscribe 0 true (Subscription_unsubscribe 0 true w).1.2).1.2
              (Subscription_unsubscribe 0 true w).1.1
              (Subscription_subscribe 0 true (Subscription_unsubscribe 0 true w).1.2).1.1
              (Subscription_unsubscribe 0 true w).2
              (Subscription_subscribe 0 true (Subscription_unsubscribe 0 true w).1.2).2)
    as (_ & _ & _ & _ & Hemit).
  - by vm_compute.
  - reflexivity.
  - apply (bool_decide_unpack (7 ∈ listenersOf 0 data w)). by vm_compute.
  - by vm_compute.
  - by vm_compute.
  - apply Hemit.
    + by vm_compute.
    + split; [|reflexivity].
      apply (bool_decide_unpack ("transactionsFound" ∈ knownEvents)). by vm_compute.
Defined.

(** C9. [subscribe()] on a handle that is active returns without touching
    anything: the world, and with it both registries, is the same afterwards
    and no upstream call is issued; only the ['subscribed'] listeners run.
    A handle is active once a [subscribe()] on it has completed, so a second
    [subscribe()] in a row is such a call. *)
Theorem subscribe_while_active_is_noop (s : nat) (sub : Subscription)
    (upstream : bool) (w : World) :
  objects w !! s = Some sub →
  (active (actions sub) (provider w) →
   Subscription_subscribe s upstream w = (Ok tt, w, fire s subscribed None w)
   ∧ apiCalls (fire s subscribed None w) = [])
  ∧ (∀ first w1 e1,
       Subscription_subscribe s first w = (Ok tt, w1, e1) →
       active (actions sub) (provider w1)
       ∧ Subscription_subscribe s upstream w1 = (Ok tt, w1, fire s subscribed None w1)).
Proof.
  intros Hobj.
  assert (∀ w0, objects w0 !! s = Some sub → active (actions sub) (provider w0) →
            Subscription_subscribe s upstream w0 = (Ok tt, w0, fire s subscribed None w0))
    as Hnoop.
  { intros w0 Hobj0 Hactive. unfold Subscription_subscribe.
    by rewrite Hobj0, _subscribe_noop. }
  split.
  - intros Hactive. split; [by apply Hnoop | apply apiCalls_fire].
  - intros first w1 e1 Hfirst.
    pose proof (Subscription_subscribe_objects _ _ _ _ _ _ Hfirst) as Hobjects.
    unfold Subscription_subscribe in Hfirst. rewrite Hobj in Hfirst.
    destruct (_subscribe _ _ _) as [[r0 w0] e0] eqn:Hact.
    destruct r0 as [[]|e]; [|done]. injection Hfirst as <- <-.
    apply _subscribe_active in Hact as [Hactive _].
    split; [done|]. apply Hnoop; [|done]. by rewrite Hobjects.
Qed.

Lemma subscribe_while_active_is_noop_witness :
  Subscription_subscribe 0 true
    (run [OpSubscribe "contractStateChanged" (Some "a") true] initial).1
  = (Ok tt, (run [OpSubscribe "contractStateChanged" (Some "a") true] initial).1, [])
  ∧ apiCalls
      (fire 0 subscribed None
         (run [OpSubscribe "contractStateChanged" (Some "a") true] initial).1) = [].
Proof.
  set (w := (run [OpSubscribe "contractStateChanged" (Some "a") true] initial).1).
  destruct (subscribe_while_active_is_noop 0
              {| actions := ContractActions "contractStateChanged" 0 "a";
                 _listeners := noListeners |} true w) as [Hactive _].
  - by vm_compute.
  - apply Hactive. eexists. by vm_compute.
Defined.

(** * Further properties *)

(** ** Batch merge: what is kept and in which order *)

Section MergeOrder.
Import Merge.
Variable localeCompare : string → string → Z.

Lemma merge_splits_known known incoming info :
  ∃ i, i ≤ length known
    ∧ mergeTransactions localeCompare known incoming info
      = take i known ++ incoming ++ drop i known.
Proof.
  unfold mergeTransactions.
  destruct (isOld (batchType info)); [|destruct (length known =? 0)].
  - exists (length known). split; [done|].
    by rewrite firstn_all, drop_all, app_nil_r.
  - exists (length known). split; [done|].
    by rewrite firstn_all, drop_all, app_nil_r.
  - exists (skipNewer localeCompare (maxLt info) known 0). split; [|done].
    destruct (skipNewer_stops localeCompare (maxLt info) known 0) as [Hb _].
    simpl in Hb. lia.
Qed.

Lemma Sorted_app_inv {A} (R : A → A → Prop) (l1 l2 : list A) :
  Sorted R (l1 ++ l2) → Sorted R l1 ∧ Sorted R l2.
Proof.
  induction l1 as [|a l1 IH]; simpl; [by split; [constructor|]|].
  intros Hs. apply Sorted_inv in Hs as [Hs Hhd].
  destruct (IH Hs) as [H1 H2]. split; [|done].
  constructor; [done|]. destruct l1; [constructor|].
  inversion Hhd; subst. by constructor.
Qed.

Lemma Sorted_app_join {A} (R : A → A → Prop) (l1 l2 : list A) :
  Sorted R l1 → Sorted R l2 →
  (∀ a b, last l1 = Some a → head l2 = Some b → R a b) →
  Sorted R (l1 ++ l2).
Proof.
  induction l1 as [|a l1 IH]; simpl; [done|].
  intros Hs1 Hs2 Hjoin. apply Sorted_inv in Hs1 as [Hs1 Hhd].
  constructor.
  - apply IH; [done..|]. intros x y Hx Hy. apply Hjoin; [|done].
    destruct l1; [done|]. done.
  - destruct l1 as [|b l1]; simpl.
    + destruct l2 as [|y l2]; constructor. by apply Hjoin.
    + inversion Hhd; subst. by constructor.
Qed.

Lemma last_take_lookup {A} (l : list A) i x :
  last (take i l) = Some x → ∃ j, j < i ∧ l !! j = Some x.
Proof.
  rewrite last_lookup. intros Hx.
  apply lookup_take_Some in Hx as [Hx Hlt].
  eexists. split; [|done]. rewrite length_take in *. lia.
Qed.

Lemma head_drop_lookup {A} (l : list A) i x :
  head (drop i l) = Some x → l !! i = Some x.
Proof. rewrite head_lookup, lookup_drop. by rewrite Nat.add_0_r. Qed.

Lemma merge_new_sorted known incoming info :
  batchType info = new →
  Sorted (descending localeCompare) known →
  Sorted (descending localeCompare) incoming →
  (∀ x, head incoming = Some x → lt (id x) = maxLt info) →
  (∀ x t, last incoming = Some x → t ∈ known →
     (localeCompare (lt (id t)) (maxLt info) < 0)%Z →
     descending localeCompare x t) →
  Sorted (descending localeCompare) (mergeTransactions localeCompare known incoming info).
Proof.
  intros Hnew Hknown Hincoming Hmax Hfits. unfold mergeTransactions.
  rewrite Hnew. simpl.
  destruct (length known =? 0) eqn:Hlen.
  { apply Nat.eqb_eq, nil_length_inv in Hlen. by subst. }
  unfold splice. set (i := skipNewer localeCompare (maxLt info) known 0).
  destruct (skipNewer_stops localeCompare (maxLt info) known 0) as (_ & Hskip & Hstop).
  fold i in Hskip, Hstop. rewrite Nat.sub_0_r in Hstop.
  rewrite <- (take_drop i known) in Hknown.
  destruct (Sorted_app_inv _ _ _ Hknown) as [Hpre Hsuf].
  destruct incoming as [|x0 incoming'] eqn:Hinc.
  { simpl. by rewrite take_drop in *. }
  rewrite <- Hinc in *. clear Hknown.
  apply Sorted_app_join; [done| |].
  - apply Sorted_app_join; [done..|].
    intros x t Hx Ht%head_drop_lookup. apply Hfits; [done| |by apply Hstop].
    by apply list_elem_of_lookup_2 in Ht.
  - intros p y (j & Hj & Hp)%last_take_lookup Hy.
    assert (head incoming = Some y) as Hy'.
    { rewrite Hinc in *. done. }
    unfold descending. rewrite (Hmax y Hy'). apply (Hskip j p); [simpl; lia|done].
Qed.

Lemma merge_old_sorted known incoming info :
  batchType info = old →
  Sorted (descending localeCompare) known →
  Sorted (descending localeCompare) incoming →
  (∀ t x, last known = Some t → head incoming = Some x → descending localeCompare t x) →
  Sorted (descending localeCompare) (mergeTransactions localeCompare known incoming info).
Proof.
  intros Hold Hknown Hincoming Hjoin. unfold mergeTransactions. rewrite Hold. simpl.
  by apply Sorted_app_join.
Qed.

Lemma skipNewer_all maxLt rest i :
  (∀ t, t ∈ rest → (0 ≤ localeCompare (lt (id t)) maxLt)%Z) →
  skipNewer localeCompare maxLt rest i = i + length rest.
Proof.
  revert i. induction rest as [|t rest IH]; intros i Hall; simpl; [lia|].
  destruct (Z.leb_spec 0 (localeCompare (lt (id t)) maxLt)) as [_|Hlt].
  - rewrite IH; [lia|]. intros u Hu. apply Hall. by right.
  - assert (t ∈ t :: rest) as Hin by by left. apply Hall in Hin. lia.
Qed.

End MergeOrder.

(** X1. Whatever the batch type, the merged history is the known history
    cut at one index with the whole incoming batch put in between: every
    record of both inputs is kept, in its order, none is dropped and none is
    deduplicated. *)
Theorem merge_keeps_every_record (localeCompare : string → string → Z)
    (known incoming : list Merge.Transaction) (info : Merge.TransactionsBatchInfo) :
  (∃ i, i ≤ length known
     ∧ Merge.mergeTransactions localeCompare known incoming info
       = take i known ++ incoming ++ drop i known)
  ∧ Merge.mergeTransactions localeCompare known incoming info ≡ₚ known ++ incoming
  ∧ length (Merge.mergeTransactions localeCompare known incoming info)
    = length known + length incoming.
Proof.
  destruct (merge_splits_known localeCompare known incoming info) as (i & Hi & Heq).
  assert (Merge.mergeTransactions localeCompare known incoming info ≡ₚ known ++ incoming)
    as Hperm.
  { rewrite Heq. rewrite <- (take_drop i known) at 3.
    rewrite <- !app_assoc. f_equiv. apply Permutation_app_comm. }
  split; [by exists i|]. split; [done|].
  by rewrite Hperm, length_app.
Qed.

(** X2. A ['new'] batch that fits keeps the history descending: when the
    known history and the batch are each in descending order, [maxLt] is the
    logical time of the first record of the batch, and the last record of the
    batch does not come after any known record that compares below [maxLt],
    the merged history is in descending order (equal logical times allowed). *)
Theorem merge_new_keeps_descending (localeCompare : string → string → Z)
    (known incoming : list Merge.Transaction) (info : Merge.TransactionsBatchInfo) :
  Merge.batchType info = Merge.new →
  Sorted (descending localeCompare) known →
  Sorted (descending localeCompare) incoming →
  (∀ x, head incoming = Some x → Merge.lt (Merge.id x) = Merge.maxLt info) →
  (∀ x t, last incoming = Some x → t ∈ known →
     (localeCompare (Merge.lt (Merge.id t)) (Merge.maxLt info) < 0)%Z →
     descending localeCompare x t) →
  Sorted (descending localeCompare)
    (Merge.mergeTransactions localeCompare known incoming info).
Proof. apply merge_new_sorted. Qed.

Lemma merge_new_keeps_descending_witness :
  Sorted (descending Merge.lexCompare)
    (Merge.mergeTransactions Merge.lexCompare
       [Merge.tx "20"; Merge.tx "15"; Merge.tx "10"; Merge.tx "01"]
       [Merge.tx "14"; Merge.tx "12"]
       {| Merge.minLt := "12"; Merge.maxLt := "14"; Merge.batchType := Merge.new |}).
Proof.
  apply (merge_new_keeps_descending Merge.lexCompare
           [Merge.tx "20"; Merge.tx "15"; Merge.tx "10"; Merge.tx "01"]
           [Merge.tx "14"; Merge.tx "12"]
           {| Merge.minLt := "12"; Merge.maxLt := "14"; Merge.batchType := Merge.new |}).
  - reflexivity.
  - repeat constructor; by vm_compute.
  - repeat constructor; by vm_compute.
  - intros x [= <-]. reflexivity.
  - intros x t [= <-] Hin Hlt. rewrite !elem_of_cons, elem_of_nil in Hin.
    destruct Hin as [-> | [-> | [-> | [-> | []]]]]; vm_compute in Hlt |- *; congruence.
Defined.

(** X3. An ['old'] batch that continues the history keeps it descending:
    when the known history and the batch are each in descending order and
    the first record of the batch does not come before the last known one,
    the merged history is in descending order. *)
Theorem merge_old_keeps_descending (localeCompare : string → string → Z)
    (known incoming : list Merge.Transaction) (info : Merge.TransactionsBatchInfo) :
  Merge.batchType info = Merge.old →
  Sorted (descending localeCompare) known →
  Sorted (descending localeCompare) incoming →
  (∀ t x, last known = Some t → head incoming = Some x → descending localeCompare t x) →
  Sorted (descending localeCompare)
    (Merge.mergeTransactions localeCompare known incoming info).
Proof. apply merge_old_sorted. Qed.

Lemma merge_old_keeps_descending_witness :
  Sorted (descending Merge.lexCompare)
    (Merge.mergeTransactions Merge.lexCompare
       [Merge.tx "20"; Merge.tx "15"] [Merge.tx "14"; Merge.tx "12"]
       {| Merge.minLt := "12"; Merge.maxLt := "14"; Merge.batchType := Merge.old |}).
Proof.
  apply (merge_old_keeps_descending Merge.lexCompare
           [Merge.tx "20"; Merge.tx "15"] [Merge.tx "14"; Merge.tx "12"]
           {| Merge.minLt := "12"; Merge.maxLt := "14"; Merge.batchType := Merge.old |}).
  - reflexivity.
  - repeat constructor; by vm_compute.
  - repeat constructor; by vm_compute.
  - intros t x [= <-] [= <-]. by vm_compute.
Defined.

(** X4. The two ends of a ['new'] merge: when the first known record already
    compares below [maxLt], the batch is put in front of the whole known
    history; when no known record compares below [maxLt], the batch is put
    after the whole known history, as an ['old'] batch would be. *)
Theorem merge_new_at_the_ends (localeCompare : string → string → Z)
    (known incoming : list Merge.Transaction) (info : Merge.TransactionsBatchInfo) :
  Merge.batchType info = Merge.new →
  (∀ t, head known = Some t →
     (localeCompare (Merge.lt (Merge.id t)) (Merge.maxLt info) < 0)%Z →
     Merge.mergeTransactions localeCompare known incoming info = incoming ++ known)
  ∧ ((∀ t, t ∈ known → (0 ≤ localeCompare (Merge.lt (Merge.id t)) (Merge.maxLt info))%Z) →
     Merge.mergeTransactions localeCompare known incoming info = known ++ incoming).
Proof.
  intros Hnew. unfold Merge.mergeTransactions. rewrite Hnew. simpl. split.
  - intros t Hhead Hlt. destruct known as [|t' known]; [done|].
    injection Hhead as ->. simpl.
    destruct (Z.leb_spec 0 (localeCompare (Merge.lt (Merge.id t)) (Merge.maxLt info)));
      [lia|done].
  - intros Hall. destruct (length known =? 0); [done|].
    rewrite skipNewer_all by done. unfold Merge.splice. simpl.
    by rewrite firstn_all, drop_all, app_nil_r.
Qed.

Lemma merge_new_at_the_ends_witness :
  Merge.mergeTransactions Merge.lexCompare [Merge.tx "10"; Merge.tx "05"]
    [Merge.tx "30"; Merge.tx "20"]
    {| Merge.minLt := "20"; Merge.maxLt := "30"; Merge.batchType := Merge.new |}
  = [Merge.tx "30"; Merge.tx "20"; Merge.tx "10"; Merge.tx "05"]
  ∧ Merge.mergeTransactions Merge.lexCompare [Merge.tx "50"; Merge.tx "40"]
      [Merge.tx "30"; Merge.tx "20"]
      {| Merge.minLt := "20"; Merge.maxLt := "30"; Merge.batchType := Merge.new |}
    = [Merge.tx "50"; Merge.tx "40"; Merge.tx "30"; Merge.tx "20"].
Proof.
  split.
  - apply (proj1 (merge_new_at_the_ends Merge.lexCompare [Merge.tx "10"; Merge.tx "05"]
                    [Merge.tx "30"; Merge.tx "20"]
                    {| Merge.minLt := "20"; Merge.maxLt := "30";
                       Merge.batchType := Merge.new |} eq_refl) (Merge.tx "10"));
      [reflexivity | by vm_compute].
  - apply (proj2 (merge_new_at_the_ends Merge.lexCompare [Merge.tx "50"; Merge.tx "40"]
                    [Merge.tx "30"; Merge.tx "20"]
                    {| Merge.minLt := "20"; Merge.maxLt := "30";
                       Merge.batchType := Merge.new |} eq_refl)).
    intros t Hin. rewrite !elem_of_cons, elem_of_nil in Hin.
    destruct Hin as [-> | [-> | []]]; by vm_compute.
Defined.

(** ** Interest aggregation: order and the excluded entry *)

Section FoldMore.

Lemma others_none items except :
  (∀ item, item ∈ items → notSameObject item except = true) →
  unionOf (flags <$> others items except) = unionOf (flags <$> items).
Proof. intros Hall. by rewrite others_all. Qed.

Lemma orFlags_absorb a b : orFlags a (orFlags a b) = orFlags a b.
Proof. by rewrite <- orFlags_assoc; destruct a as [[] []]. Qed.

Lemma unionOf_absorbs item items :
  item ∈ items →
  orFlags (flags item) (unionOf (flags <$> items)) = unionOf (flags <$> items).
Proof.
  induction items as [|x items IH]; intros Hin; [by apply elem_of_nil in Hin|].
  rewrite fmap_cons, unionOf_cons.
  apply elem_of_cons in Hin as [->|Hin].
  - apply orFlags_absorb.
  - rewrite <- orFlags_assoc, (orFlags_comm (flags item)), orFlags_assoc.
    by rewrite IH.
Qed.

Lemma unionOf_others_with items e :
  sameHeap items e →
  orFlags (flags e) (unionOf (flags <$> items))
  = orFlags (flags e) (unionOf (flags <$> others items (Some e))).
Proof.
  induction items as [|x items IH]; intros Hheap; [done|].
  assert (sameHeap items e) as Hheap'.
  { intros y Hy. apply Hheap. by right. }
  rewrite others_cons, fmap_cons, unionOf_cons. cbn [notSameObject].
  destruct (Nat.eqb_spec (ref x) (ref e)) as [Hx|Hx]; cbn [negb].
  - rewrite (Hheap x) by (done || by left).
    by rewrite orFlags_absorb, IH.
  - rewrite fmap_cons, unionOf_cons.
    rewrite <- !orFlags_assoc, !(orFlags_comm (flags e) (flags x)), !orFlags_assoc.
    by rewrite IH.
Qed.

Lemma unionOf_others_present items e :
  sameHeap items e → (∃ item, item ∈ items ∧ ref item = ref e) →
  unionOf (flags <$> items) = orFlags (flags e) (unionOf (flags <$> others items (Some e))).
Proof.
  intros Hheap (item & Hin & Href).
  rewrite <- unionOf_others_with by done.
  rewrite <- (Hheap item Hin Href). symmetry. by apply unionOf_absorbs.
Qed.

End FoldMore.

Lemma unionOf_others_covered items except :
  covers (unionOf (flags <$> items)) (unionOf (flags <$> others items except)).
Proof.
  unfold covers. induction items as [|x items IH]; [done|].
  rewrite others_cons, fmap_cons, unionOf_cons.
  destruct (notSameObject x except).
  - rewrite fmap_cons, unionOf_cons.
    rewrite orFlags_assoc, <- (orFlags_assoc _ (flags x)),
      (orFlags_comm _ (flags x)), orFlags_assoc, IH.
    apply orFlags_absorb.
  - rewrite <- orFlags_assoc, (orFlags_comm _ (flags x)), orFlags_assoc. by rewrite IH.
Qed.

(** X5. The result of [foldSubscriptions] does not depend on the order in
    which the collection yields its entries. *)
Theorem foldSubscriptions_order_irrelevant (l1 l2 : list FlagsObject)
    (except : option FlagsObject) :
  l1 ≡ₚ l2 → foldSubscriptions l1 except = foldSubscriptions l2 except.
Proof.
  intros Hperm. rewrite !foldSubscriptions_unions. by rewrite Hperm.
Qed.

Lemma foldSubscriptions_order_irrelevant_witness :
  foldSubscriptions
    [{| ref := 1; flags := {| state := true; transactions := false |} |};
     {| ref := 2; flags := {| state := false; transactions := true |} |};
     {| ref := 3; flags := {| state := false; transactions := false |} |}]
    (Some {| ref := 2; flags := {| state := false; transactions := true |} |})
  = foldSubscriptions
    [{| ref := 3; flags := {| state := false; transactions := false |} |};
     {| ref := 2; flags := {| state := false; transactions := true |} |};
     {| ref := 1; flags := {| state := true; transactions := false |} |}]
    (Some {| ref := 2; flags := {| state := false; transactions := true |} |}).
Proof.
  apply foldSubscriptions_order_irrelevant.
  symmetry. apply (reverse_Permutation
           [{| ref := 1; flags := {| state := true; transactions := false |} |};
            {| ref := 2; flags := {| state := false; transactions := true |} |};
            {| ref := 3; flags := {| state := false; transactions := false |} |}]).
Defined.

(** X6. [withoutExcluded] never holds a flag that [total] lacks, and the two
    are equal whenever nothing is excluded: when [except] is [undefined], or
    when it is an object that the collection does not contain. *)
Theorem foldSubscriptions_nothing_excluded (subscriptions : list FlagsObject)
    (except : option FlagsObject) :
  covers (foldSubscriptions subscriptions except).1 (foldSubscriptions subscriptions except).2
  ∧ (foldSubscriptions subscriptions None).2 = (foldSubscriptions subscriptions None).1
  ∧ ((∀ item, item ∈ subscriptions → notSameObject item except = true) →
     (foldSubscriptions subscriptions except).2 = (foldSubscriptions subscriptions except).1).
Proof.
  rewrite !foldSubscriptions_unions. simpl. split; [apply unionOf_others_covered|].
  split.
  - by apply others_none.
  - apply others_none.
Qed.

Lemma foldSubscriptions_nothing_excluded_witness :
  (foldSubscriptions
     [{| ref := 1; flags := {| state := true; transactions := false |} |};
      {| ref := 2; flags := {| state := false; transactions := true |} |}]
     (Some {| ref := 7; flags := {| state := true; transactions := false |} |})).2
  = (foldSubscriptions
       [{| ref := 1; flags := {| state := true; transactions := false |} |};
        {| ref := 2; flags := {| state := false; transactions := true |} |}]
       (Some {| ref := 7; flags := {| state := true; transactions := false |} |})).1.
Proof.
  apply (foldSubscriptions_nothing_excluded
           [{| ref := 1; flags := {| state := true; transactions := false |} |};
            {| ref := 2; flags := {| state := false; transactions := true |} |}]
           (Some {| ref := 7; flags := {| state := true; transactions := false |} |})).
  intros item Hin. rewrite !elem_of_cons, elem_of_nil in Hin.
  destruct Hin as [-> | [-> | []]]; reflexivity.
Defined.

(** X7. When the excluded object is one of the entries, [total] is
    [withoutExcluded] with the flags of the excluded object added, also when
    the collection yields that object more than once. *)
Theorem foldSubscriptions_excluded_present (subscriptions : list FlagsObject)
    (e : FlagsObject) :
  sameHeap subscriptions e →
  (∃ item, item ∈ subscriptions ∧ ref item = ref e) →
  (foldSubscriptions subscriptions (Some e)).1
  = orFlags (flags e) (foldSubscriptions subscriptions (Some e)).2.
Proof.
  intros Hheap Hpresent. rewrite foldSubscriptions_unions. simpl.
  by apply unionOf_others_present.
Qed.

Lemma foldSubscriptions_excluded_present_witness :
  (foldSubscriptions
     [{| ref := 1; flags := {| state := true; transactions := false |} |};
      {| ref := 2; flags := {| state := false; transactions := true |} |};
      {| ref := 1; flags := {| state := true; transactions := false |} |}]
     (Some {| ref := 1; flags := {| state := true; transactions := false |} |})).1
  = orFlags {| state := true; transactions := false |}
      (foldSubscriptions
         [{| ref := 1; flags := {| state := true; transactions := false |} |};
          {| ref := 2; flags := {| state := false; transactions := true |} |};
          {| ref := 1; flags := {| state := true; transactions := false |} |}]
         (Some {| ref := 1; flags := {| state := true; transactions := false |} |})).2.
Proof.
  apply (foldSubscriptions_excluded_present
           [{| ref := 1; flags := {| state := true; transactions := false |} |};
            {| ref := 2; flags := {| state := false; transactions := true |} |};
            {| ref := 1; flags := {| state := true; transactions := false |} |}]
           {| ref := 1; flags := {| state := true; transactions := false |} |}).
  - intros item Hin Href. rewrite !elem_of_cons, elem_of_nil in Hin.
    destruct Hin as [-> | [-> | [-> | []]]]; (reflexivity || discriminate).
  - eexists. split; [by left | reflexivity].
Defined.

(** ** The two registries agree in every reachable world *)

Section Coherence.
Implicit Types (w : World) (p : ProviderRpcClient) (b : gmap nat FlagsObject).

Lemma bucketOf_setBucket address b p address' :
  bucketOf (setBucket address b p) address'
  = if decide (address' = address) then b else bucketOf p address'.
Proof.
  unfold bucketOf, setBucket; simpl. case_decide as Ha.
  - subst. by rewrite lookup_insert_eq.
  - by rewrite lookup_insert_ne.
Qed.

Lemma coherent_initial : coherent initial.
Proof.
  split.
  - intros eventName id h. unfold tableOf; simpl. by rewrite !lookup_empty.
  - intros s sub eventName address Hs. simpl in Hs. by rewrite lookup_empty in Hs.
Qed.

Lemma coherent_setHandler eventName id sub w :
  coherent w → objects w !! id = Some sub →
  actions sub = SimpleActions eventName id →
  coherent (setProvider (setHandler eventName id (Forward id) (provider w)) w).
Proof.
  intros Hco Hobj Hact. split; unfold setProvider; simpl.
  - intros ev id' h. rewrite tableOf_setHandler. case_decide as Hcase.
    + destruct Hcase as [-> ->]. intros [= <-]. exists sub. by rewrite Hact.
    + apply (handler_routed w Hco).
  - intros s sub' ev address Hs Hact'. rewrite tableOf_setHandler.
    case_decide as Hcase.
    + destruct Hcase as [-> ->]. congruence.
    + by apply (active_entry w Hco _ sub').
Qed.

Lemma coherent_added eventName id address w sub :
  coherent w → objects w !! id = Some sub →
  actions sub = ContractActions eventName id address →
  coherent (added eventName id address w).
Proof.
  intros Hco Hobj Hact. split.
  - intros ev id' h. rewrite added_provider, tableOf_setBucket, tableOf_setHandler.
    change (objects (added eventName id address w)) with (objects w).
    case_decide as Hcase.
    + destruct Hcase as [-> ->]. intros [= <-]. exists sub. by rewrite Hact.
    + apply (handler_routed w Hco).
  - intros s sub' ev address'.
    change (objects (added eventName id address w)) with (objects w).
    intros Hs Hact'.
    rewrite added_provider, tableOf_setBucket, tableOf_setHandler, bucketOf_setBucket.
    change (bucketOf (setHandler eventName id (ForwardIfAddress address id) (provider w))
              address') with (bucketOf (provider w) address').
    change (bucketOf (setHandler eventName id (ForwardIfAddress address id) (provider w))
              address) with (bucketOf (provider w) address).
    intros Hactive.
    destruct (decide (s = id)) as [->|Hne].
    + assert (sub' = sub) as -> by congruence.
      assert (address' = address) as -> by congruence.
      rewrite decide_True by done. by rewrite lookup_insert_eq.
    + rewrite decide_False in Hactive by by intros [_ ?].
      pose proof (active_entry w Hco _ _ _ _ Hs Hact' Hactive) as Hentry.
      case_decide as Ha; [|done]. subst. by rewrite lookup_insert_ne.
Qed.

Lemma coherent_undone address w : coherent w → coherent (undone address w).
Proof.
  intros Hco. split.
  - apply (handler_routed w Hco).
  - intros s sub ev address' Hs Hact Hactive.
    unfold undone; simpl. rewrite bucketOf_setBucket.
    pose proof (active_entry w Hco _ _ _ _ Hs Hact Hactive) as Hentry.
    case_decide; by subst.
Qed.

Lemma coherent_deleteHandler eventName id w :
  coherent w → coherent (setProvider (deleteHandler eventName id (provider w)) w).
Proof.
  intros Hco. split; unfold setProvider; simpl.
  - intros ev id' h. rewrite tableOf_deleteHandler. case_decide; [done|].
    apply (handler_routed w Hco).
  - intros s sub ev address Hs Hact. rewrite tableOf_deleteHandler.
    case_decide; [by intros [? ?]|]. by apply (active_entry w Hco _ sub).
Qed.

Lemma coherent_removed eventName id address b w sub :
  coherent w → objects w !! id = Some sub →
  actions sub = ContractActions eventName id address →
  _contractSubscriptions (provider w) !! address = Some b →
  coherent (removed eventName id address b w).
Proof.
  intros Hco Hobj Hact Hb. split; unfold removed, setProvider; simpl.
  - intros ev id' h. rewrite tableOf_setBucket, tableOf_deleteHandler.
    case_decide; [done|]. apply (handler_routed w Hco).
  - intros s sub' ev address' Hs Hact'.
    rewrite tableOf_setBucket, tableOf_deleteHandler, bucketOf_setBucket.
    change (bucketOf (deleteHandler eventName id (provider w)) address')
      with (bucketOf (provider w) address').
    case_decide as Hcase; [by intros [? ?]|]. intros Hactive.
    pose proof (active_entry w Hco _ _ _ _ Hs Hact' Hactive) as Hentry.
    assert (s ≠ id) as Hne.
    { intros ->. apply Hcase. assert (sub' = sub) as -> by congruence.
      split; congruence. }
    case_decide as Ha; [|done]. subst.
    rewrite (bucketOf_lookup _ _ _ Hb) in Hentry. by rewrite lookup_delete_ne.
Qed.

Lemma coherent_on s e listener w : coherent w → coherent (Subscription_on s e listener w).
Proof.
  intros Hco. unfold Subscription_on.
  destruct (objects w !! s) as [sub|] eqn:Hobj; [|done].
  split; unfold setObjects; simpl.
  - intros ev id h Hh.
    destruct (handler_routed w Hco _ _ _ Hh) as (sub' & Hsub' & Hev & ->).
    destruct (decide (id = s)) as [->|Hne].
    + eexists. rewrite lookup_insert_eq. split; [done|]. simpl.
      assert (sub' = sub) as -> by congruence. done.
    + exists sub'. by rewrite lookup_insert_ne.
  - intros s' sub' ev address Hs' Hact.
    destruct (decide (s' = s)) as [->|Hne].
    + rewrite lookup_insert_eq in Hs'. injection Hs' as <-. simpl in Hact.
      by apply (active_entry w Hco _ sub).
    + rewrite lookup_insert_ne in Hs' by done. by apply (active_entry w Hco _ sub').
Qed.

Lemma coherent_getEventSubscriptions eventName w :
  coherent w → coherent (setProvider (_getEventSubscriptions eventName (provider w)) w).
Proof.
  intros Hco. split; unfold setProvider; simpl.
  - intros ev id h. rewrite tableOf_getEventSubscriptions. apply (handler_routed w Hco).
  - intros s sub ev address Hs Hact.
    rewrite tableOf_getEventSubscriptions, bucketOf_getEventSubscriptions.
    by apply (active_entry w Hco _ sub).
Qed.

Lemma coherent_getUniqueId w : coherent w → coherent (getUniqueId w).2.
Proof.
  intros Hco. split.
  - apply (handler_routed w Hco).
  - apply (active_entry w Hco).
Qed.

Lemma coherent_new_object id sub w :
  coherent w → objects w !! id = None →
  coherent (setObjects (<[id := sub]> (objects w)) w).
Proof.
  intros Hco Hfresh. split; unfold setObjects; simpl.
  - intros ev id' h Hh.
    destruct (handler_routed w Hco _ _ _ Hh) as (sub' & Hsub' & Hev & ->).
    exists sub'. rewrite lookup_insert_ne by congruence. done.
  - intros s sub' ev address Hs Hact [h Hh].
    destruct (handler_routed w Hco _ _ _ Hh) as (sub'' & Hsub'' & _).
    rewrite lookup_insert_ne in Hs by congruence.
    apply (active_entry w Hco _ sub' ev); [done..|]. by exists h.
Qed.

Lemma coherent_drop_object id w :
  coherent w → (∀ eventName, tableOf (provider w) eventName !! id = None) →
  coherent (setObjects (delete id (objects w)) w).
Proof.
  intros Hco Htables. split; unfold setObjects; simpl.
  - intros ev id' h Hh.
    destruct (handler_routed w Hco _ _ _ Hh) as (sub' & Hsub' & Hev & ->).
    exists sub'. rewrite lookup_delete_ne; [done|]. intros ->. by rewrite Htables in Hh.
  - intros s sub ev address [_ Hs]%lookup_delete_Some.
    by apply (active_entry w Hco _ sub).
Qed.

Lemma _subscribe_coherent sub s upstream w r w' effects :
  consistent w → coherent w → objects w !! s = Some sub →
  _subscribe (actions sub) upstream w = (r, w', effects) →
  coherent w'.
Proof.
  intros Hc Hco Hobj.
  destruct (object_ok w Hc _ _ Hobj) as (_ & Hid & Hev & _).
  destruct (actions sub) as [eventName id|eventName id address] eqn:Hact;
    simpl in Hid, Hev; subst id.
  - simpl. destruct (tableOf _ _ !! s); intros [= <- <- <-]; [done|].
    by eapply coherent_setHandler.
  - destruct (tableOf (provider w) eventName !! s) eqn:Htable.
    + simpl. rewrite Htable. by intros [= <- <- <-].
    + pose proof (inactive_no_entry _ _ _ _ _ Hc Hobj Hact Htable) as Hnone.
      pose proof (no_entry_bucketOf w s address Hnone) as Hentry.
      rewrite _subscribe_add; [|done|done|by intros i x; apply bucketOf_allocated].
      repeat case_match; intros [= <- <- <-];
        [by eapply coherent_added | by eapply coherent_added |].
      rewrite rolledBack_undone by done. by apply coherent_undone.
Qed.

Lemma _unsubscribe_coherent sub s upstream w r w' effects :
  consistent w → coherent w → objects w !! s = Some sub →
  _unsubscribe (actions sub) upstream w = (r, w', effects) →
  coherent w'.
Proof.
  intros Hc Hco Hobj.
  destruct (object_ok w Hc _ _ Hobj) as (_ & Hid & Hev & _).
  destruct (actions sub) as [eventName id|eventName id address] eqn:Hact;
    simpl in Hid, Hev; subst id; simpl.
  - intros [= <- <- <-]. by apply coherent_deleteHandler.
  - destruct (_contractSubscriptions (provider w) !! address) as [b|] eqn:Hb.
    + destruct (foldSubscriptions _ _) as [total withoutExcluded].
      assert (coherent (removed eventName s address b w)) as Hrem
        by by eapply coherent_removed.
      unfold await. repeat case_match; by intros [= <- <- <-].
    + intros [= <- <- <-]. by apply coherent_deleteHandler.
Qed.

Lemma Subscription_subscribe_coherent s upstream w r w' effects :
  consistent w → coherent w →
  Subscription_subscribe s upstream w = (r, w', effects) → coherent w'.
Proof.
  intros Hc Hco. unfold Subscription_subscribe.
  destruct (objects w !! s) as [sub|] eqn:Hobj; [|by intros [= <- <- <-]].
  destruct (_subscribe _ _ _) as [[r0 w0] e0] eqn:Hact.
  apply (_subscribe_coherent _ _ _ _ _ _ _ Hc Hco Hobj) in Hact.
  destruct r0; by intros [= <- <- <-].
Qed.

Lemma Subscription_unsubscribe_coherent s upstream w r w' effects :
  consistent w → coherent w →
  Subscription_unsubscribe s upstream w = (r, w', effects) → coherent w'.
Proof.
  intros Hc Hco. unfold Subscription_unsubscribe.
  destruct (objects w !! s) as [sub|] eqn:Hobj; [|by intros [= <- <- <-]].
  destruct (_unsubscribe _ _ _) as [[r0 w0] e0] eqn:Hact.
  apply (_unsubscribe_coherent _ _ _ _ _ _ _ Hc Hco Hobj) in Hact.
  destruct r0; by intros [= <- <- <-].
Qed.

End Coherence.

Section CoherenceOfRuns.
Implicit Types (w : World).

Lemma openWith_coherent a upstream w r w' effects :
  consistent w → coherent w → actionsId a = idCounter w → actionsTopicOk a →
  is_Some (_subscriptions (provider w) !! actionsEvent a) →
  openWith a (idCounter w) upstream (getUniqueId w).2 = (r, w', effects) →
  coherent w'.
Proof.
  intros Hc Hco Hid Hok Hev. unfold openWith.
  pose proof (consistent_new_object a w Hc Hid Hok Hev) as Hc3.
  assert (objects w !! idCounter w = None) as Hfresh.
  { destruct (objects w !! idCounter w) as [sub|] eqn:Hsub; [|done].
    destruct (object_ok w Hc _ _ Hsub). lia. }
  pose proof (coherent_new_object (idCounter w)
                {| actions := a; _listeners := noListeners |} (getUniqueId w).2
                (coherent_getUniqueId w Hco) Hfresh) as Hco3.
  set (w3 := setObjects _ _) in *.
  assert (objects w3 !! idCounter w
          = Some {| actions := a; _listeners := noListeners |}) as Hobj
    by apply lookup_insert_eq.
  destruct (unknown_id_unused w _ Hc Hfresh) as [Htables Hbuckets].
  destruct (Subscription_subscribe _ _ w3) as [[r0 w4] e0] eqn:Hsub.
  pose proof (Subscription_subscribe_coherent _ _ _ _ _ _ Hc3 Hco3 Hsub) as Hco4.
  destruct r0 as [u|e]; intros [= <- <- <-]; [done|].
  unfold Subscription_subscribe in Hsub. rewrite Hobj in Hsub.
  change (actions {| actions := a; _listeners := noListeners |}) with a in Hsub.
  destruct (_subscribe a upstream w3) as [[r1 w5] e1] eqn:Hact.
  destruct r1 as [u|e']; [done|]. injection Hsub as -> -> ->.
  destruct (_subscribe_throws _ _ _ _ _ _ Hact)
    as (ev & id & address & -> & Htable & Hw4 & _).
  simpl in Hid, Hev. subst id.
  rewrite rolledBack_undone in Hw4; [|done|done|by apply (no_entry_bucketOf w)].
  subst w4. destruct (undone_unused (idCounter w) address w3 Htables Hbuckets).
  by apply coherent_drop_object.
Qed.

Lemma subscribe_coherent eventName params upstream w r w' effects :
  consistent w → coherent w →
  subscribe eventName params upstream w = (r, w', effects) → coherent w'.
Proof.
  intros Hc Hco. unfold subscribe.
  pose proof (consistent_getEventSubscriptions eventName w Hc) as Hc1.
  pose proof (coherent_getEventSubscriptions eventName w Hco) as Hco1.
  set (w1 := setProvider _ w) in *.
  assert (eventName ∈ simpleEvents ∨ eventName ∈ contractEvents →
          is_Some (_subscriptions (provider w1) !! eventName)) as Hev
    by apply getEventSubscriptions_creates.
  change (getUniqueId w1) with (idCounter w1, (getUniqueId w1).2). cbv beta iota.
  case_bool_decide as Hsimple.
  - apply openWith_coherent; try done. apply Hev. by left.
  - case_bool_decide as Hcontract.
    + destruct params as [address|].
      * apply openWith_coherent; try done. apply Hev. by right.
      * intros [= <- <- <-]. exact (coherent_getUniqueId w1 Hco1).
    + intros [= <- <- <-]. exact (coherent_getUniqueId w1 Hco1).
Qed.

Lemma step_coherent w op : consistent w → coherent w → coherent (step w op).1.
Proof.
  intros Hc Hco.
  destruct op as [eventName params upstream|s e listener|s upstream|s upstream|eventName d];
    simpl.
  - destruct (subscribe _ _ _ _) as [[r w'] effects] eqn:Hop.
    by apply subscribe_coherent in Hop.
  - by apply coherent_on.
  - destruct (Subscription_subscribe _ _ _) as [[r w'] effects] eqn:Hop.
    by apply Subscription_subscribe_coherent in Hop.
  - destruct (Subscription_unsubscribe _ _ _) as [[r w'] effects] eqn:Hop.
    by apply Subscription_unsubscribe_coherent in Hop.
  - done.
Qed.

Lemma run_coherent ops w : consistent w → coherent w → coherent (run ops w).1.
Proof.
  revert w. induction ops as [|op ops IH]; intros w Hc Hco; simpl; [done|].
  pose proof (step_consistent w op Hc) as Hstep.
  pose proof (step_coherent w op Hc Hco) as Hstep'.
  destruct (step w op) as [w1 e1]. specialize (IH w1 Hstep Hstep').
  by destruct (run ops w1) as [w2 e2].
Qed.

Lemma reachable_coherent w : reachable w → coherent w.
Proof.
  intros [ops <-]. apply run_coherent; [apply initial_consistent | apply coherent_initial].
Qed.

End CoherenceOfRuns.

(** X8. In every world the operations can reach, the two registries agree
    about each handle: an address-scoped handle is active exactly when its id
    has an entry in the bucket of its own address, that entry carries the one
    flag of the handle's topic, and the id appears in no other bucket; the id
    of a handle on a global topic appears in no bucket at all. *)
Theorem registries_agree (w : World) (s : nat) (sub : Subscription) :
  reachable w → objects w !! s = Some sub →
  match actions sub with
  | ContractActions eventName id address =>
      id = s
      ∧ (active (actions sub) (provider w) ↔ is_Some (bucketOf (provider w) address !! s))
      ∧ (∀ o, bucketOf (provider w) address !! s = Some o →
           flags o = flagsFor eventName ∧ flags o ≠ noInterest)
      ∧ (∀ address', address' ≠ address → bucketOf (provider w) address' !! s = None)
  | SimpleActions eventName id =>
      id = s ∧ ∀ address, bucketOf (provider w) address !! s = None
  end.
Proof.
  intros Hreach Hobj.
  pose proof (reachable_consistent w Hreach) as Hc.
  pose proof (reachable_coherent w Hreach) as Hco.
  destruct (object_ok w Hc _ _ Hobj) as (_ & Hid & _ & Hok).
  destruct (actions sub) as [eventName id|eventName id address] eqn:Hact;
    simpl in Hid, Hok; subst id.
  - split; [done|]. intros address. apply no_entry_bucketOf.
    by eapply simple_no_entry.
  - split; [done|]. split; [|split].
    + unfold active. simpl. split.
      * by apply (active_entry w Hco _ sub).
      * intros [o (b & Hb & Ho)%bucketOf_Some].
        destruct (entry_owned w Hc _ _ _ _ Hb Ho) as (_ & ev & sub' & ? & ? & Hsome & _).
        assert (sub' = sub) as -> by congruence.
        assert (ev = eventName) as -> by congruence. done.
    + intros o (b & Hb & Ho)%bucketOf_Some.
      destruct (entry_owned w Hc _ _ _ _ Hb Ho) as (_ & ev & sub' & ? & ? & _ & Hflags).
      assert (sub' = sub) as -> by congruence.
      assert (ev = eventName) as -> by congruence.
      split; [done|]. rewrite Hflags. by apply flagsFor_interest.
    + intros address' Hne.
      destruct (bucketOf (provider w) address' !! s) as [o|] eqn:Ho; [|done].
      apply bucketOf_Some in Ho as (b & Hb & Ho).
      by pose proof (entry_address _ _ _ _ _ _ _ _ Hc Hobj Hact Hb Ho).
Qed.

Lemma registries_agree_witness :
  is_Some (bucketOf
             (provider (run [OpSubscribe "networkChanged" None true;
                             OpSubscribe "contractStateChanged" (Some "a") true] initial).1)
             "a" !! 1)
  ∧ bucketOf
      (provider (run [OpSubscribe "networkChanged" None true;
                      OpSubscribe "contractStateChanged" (Some "a") true] initial).1)
      "b" !! 1 = None.
Proof.
  set (w := (run [OpSubscribe "networkChanged" None true;
                  OpSubscribe "contractStateChanged" (Some "a") true] initial).1).
  assert (reachable w) as Hreach by (eexists; reflexivity).
  destruct (registries_agree w 1
              {| actions := ContractActions "contractStateChanged" 1 "a";
                 _listeners := noListeners |} Hreach) as (_ & Hactive & _ & Hother).
  - by vm_compute.
  - split.
    + apply Hactive. eexists. by vm_compute.
    + by apply Hother.
Defined.

(** X9. In every reachable world, a raw event calls exactly the ['data']
    listeners of the handles that are active on the event's topic and, for an
    address-scoped topic, watch the address the payload carries; each call
    passes the payload.  Nothing is delivered for a topic the client does
    not listen to, to a handle that is not active, or to a handle watching
    another address. *)
Theorem emit_delivers_exactly (w : World) (eventName : string) (d : EventData)
    (effect : Effect) :
  reachable w →
  effect ∈ emit eventName d w
  ↔ ∃ s sub listener,
      objects w !! s = Some sub
      ∧ actionsEvent (actions sub) = eventName
      ∧ active (actions sub) (provider w)
      ∧ meantFor (actions sub) d
      ∧ listener ∈ on_data (_listeners sub)
      ∧ effect = Call listener (Some d).
Proof.
  intros Hreach.
  pose proof (reachable_consistent w Hreach) as Hc.
  pose proof (reachable_coherent w Hreach) as Hco.
  split.
  - unfold emit. case_bool_decide as Hknown; [|by intros ?%elem_of_nil].
    destruct (_subscriptions (provider w) !! eventName) as [handlers|] eqn:Hhandlers;
      [|by intros ?%elem_of_nil].
    intros (h & Hh & Hin)%list_elem_of_In%in_flat_map.
    apply list_elem_of_In, elem_of_Object_values in Hh as [id Hh].
    apply list_elem_of_In in Hin.
    assert (tableOf (provider w) eventName !! id = Some h) as Htable
      by (unfold tableOf; by rewrite Hhandlers).
    destruct (handler_routed w Hco _ _ _ Htable) as (sub & Hobj & Hev & ->).
    destruct (object_ok w Hc _ _ Hobj) as (_ & Hid & _).
    assert (∀ e, e ∈ Subscription_notify id d w →
              ∃ listener, listener ∈ on_data (_listeners sub) ∧ e = Call listener (Some d))
      as Hnotify.
    { intros e. unfold Subscription_notify, fire, listenersOf. rewrite Hobj. simpl.
      intros (l & -> & Hl)%list_elem_of_fmap. by exists l. }
    assert (active (actions sub) (provider w)) as Hactive.
    { unfold active. rewrite Hev, Hid. by exists (handlerOf (actions sub) id). }
    destruct (actions sub) as [ev id'|ev id' address] eqn:Hact;
      simpl in Hev, Hid, Hin; subst ev id'.
    + destruct (Hnotify _ Hin) as (l & Hl & ->).
      exists id, sub, l. rewrite Hact. by repeat split.
    + case_bool_decide as Haddr; [|by apply elem_of_nil in Hin].
      destruct (Hnotify _ Hin) as (l & Hl & ->).
      exists id, sub, l. rewrite Hact. by repeat split.
  - intros (s & sub & l & Hobj & Hev & Hactive & [Hknown Haddr] & Hl & ->).
    destruct (object_ok w Hc _ _ Hobj) as (_ & Hid & _).
    destruct Hactive as [h Hh]. rewrite Hev, Hid in Hh.
    destruct (handler_routed w Hco _ _ _ Hh) as (sub' & Hobj' & _ & ->).
    assert (sub' = sub) as -> by congruence.
    rewrite Hev in Hknown.
    eapply emit_reaches_handler; [done..|].
    assert (Call l (Some d) ∈ Subscription_notify s d w) as Hnotify.
    { apply notify_calls_listener. unfold listenersOf. by rewrite Hobj. }
    destruct (actions sub) as [ev id'|ev id' address]; simpl in *; [done|].
    by rewrite bool_decide_eq_true_2.
Qed.

Lemma emit_delivers_exactly_witness :
  Call 7 (Some {| data_address := Some "b"; data_body := 5 |})
  ∉ emit "transactionsFound" {| data_address := Some "b"; data_body := 5 |}
      (run [OpSubscribe "transactionsFound" (Some "a") true; OpOn 0 data 7] initial).1.
Proof.
  set (w := (run [OpSubscribe "transactionsFound" (Some "a") true; OpOn 0 data 7] initial).1).
  assert (reachable w) as Hreach by (eexists; reflexivity).
  intros Hin.
  apply (emit_delivers_exactly w "transactionsFound"
           {| data_address := Some "b"; data_body := 5 |} _ Hreach) in Hin
    as (s & sub & l & Hobj & Hev & Hactive & [_ Haddr] & _).
  destruct (decide (s = 0)) as [->|Hne].
  - vm_compute in Hobj. injection Hobj as <-. simpl in Haddr. discriminate.
  - assert (objects w !! s = None) as Hnone; [|congruence].
    change (objects w) with
      (<[0 := {| actions := ContractActions "transactionsFound" 0 "a";
                 _listeners := pushListener data 7 noListeners |}]>
         (∅ : gmap nat Subscription)).
    rewrite lookup_insert_ne by done. apply lookup_empty.
Defined.

(** ** Handles: creation, listeners, calls *)

Section HandleMore.
Implicit Types (w : World) (a : Actions).

(** Both closures issue upstream calls only, and at most one. *)
Lemma _subscribe_effects a upstream w r w' effects :
  _subscribe a upstream w = (r, w', effects) →
  apiCalls effects = effects ∧ length effects ≤ 1.
Proof.
  destruct a as [eventName id|eventName id address]; simpl.
  - destruct (tableOf _ _ !! id); intros [= <- <- <-]; (split; [done|simpl; lia]).
  - destruct (tableOf _ _ !! id);
      [intros [= <- <- <-]; (split; [done|simpl; lia])|].
    destruct (foldSubscriptions _ _) as [total withoutExcluded].
    repeat case_match; intros [= <- <- <-]; (split; [done|simpl; lia]).
Qed.

Lemma _unsubscribe_effects a upstream w r w' effects :
  _unsubscribe a upstream w = (r, w', effects) →
  apiCalls effects = effects ∧ length effects ≤ 1.
Proof.
  destruct a as [eventName id|eventName id address]; simpl.
  - intros [= <- <- <-]; (split; [done|simpl; lia]).
  - destruct (_contractSubscriptions _ !! address);
      [|intros [= <- <- <-]; (split; [done|simpl; lia])].
    destruct (foldSubscriptions _ _) as [total withoutExcluded].
    unfold await. repeat case_match; intros [= <- <- <-]; (split; [done|simpl; lia]).
Qed.

Lemma _unsubscribe_throws a upstream w e w' effects :
  _unsubscribe a upstream w = (Throw e, w', effects) →
  e = UpstreamError ∧ upstream = false ∧ length effects = 1.
Proof.
  destruct a as [eventName id|eventName id address]; simpl; [done|].
  destruct (_contractSubscriptions _ !! address); [|done].
  destruct (foldSubscriptions _ _) as [total withoutExcluded].
  unfold await. destruct upstream; repeat case_match; by intros [= <- <- <-].
Qed.

(** After the second closure has run, the id has no entry in the bucket of
    the handle's address. *)
Lemma _unsubscribe_clears_entry eventName id address upstream w r w' effects :
  _unsubscribe (ContractActions eventName id address) upstream w = (r, w', effects) →
  bucketOf (provider w') address !! id = None.
Proof.
  simpl.
  change (_contractSubscriptions (deleteHandler eventName id (provider w)))
    with (_contractSubscriptions (provider w)).
  destruct (_contractSubscriptions (provider w) !! address) as [b|] eqn:Hb.
  - destruct (foldSubscriptions _ _) as [total withoutExcluded].
    assert (bucketOf (setBucket address (delete id b)
                        (deleteHandler eventName id (provider w))) address !! id = None)
      as Hgone by (rewrite bucketOf_setBucket, decide_True by done; apply lookup_delete_eq).
    unfold await. repeat case_match; by intros [= <- <- <-].
  - intros [= <- <- <-]. unfold bucketOf; simpl. rewrite Hb. apply lookup_empty.
Qed.

Lemma listenersOf_same_objects s e w w' :
  objects w' = objects w → listenersOf s e w' = listenersOf s e w.
Proof. unfold listenersOf. by intros ->. Qed.

Lemma fire_same_objects s e arg w w' :
  objects w' = objects w → fire s e arg w' = fire s e arg w.
Proof. unfold fire. by intros ->%(listenersOf_same_objects s e). Qed.

Lemma aggregate_absorbs (b : gmap nat FlagsObject) i o :
  b !! i = Some o → orFlags (flags o) (aggregate b) = aggregate b.
Proof.
  intros Hi. unfold aggregate. apply unionOf_absorbs, elem_of_Object_values.
  by exists i.
Qed.

End HandleMore.

(** X10. Subscribing to one of the four global topics never involves the
    transport: in every reachable world it succeeds whatever the transport
    would answer and whatever [params] holds, issues no upstream call, returns
    a handle under an id that no existing handle uses, stores the callback of
    that handle in the topic's table, and leaves every other callback and the
    whole address interest registry as they were. *)
Theorem simple_subscribe_is_local (w : World) (eventName : string)
    (params : option string) (upstream : bool) :
  reachable w → eventName ∈ simpleEvents →
  ∃ w', subscribe eventName params upstream w = (Ok (idCounter w), w', [])
    ∧ objects w !! idCounter w = None
    ∧ objects w'
      = <[idCounter w := {| actions := SimpleActions eventName (idCounter w);
                            _listeners := noListeners |}]> (objects w)
    ∧ tableOf (provider w') eventName !! idCounter w = Some (Forward (idCounter w))
    ∧ (∀ topic id, id ≠ idCounter w →
         tableOf (provider w') topic !! id = tableOf (provider w) topic !! id)
    ∧ _contractSubscriptions (provider w') = _contractSubscriptions (provider w).
Proof.
  intros Hc%reachable_consistent Hsimple.
  assert (objects w !! idCounter w = None) as Hfresh.
  { destruct (objects w !! idCounter w) as [sub|] eqn:Hsub; [|done].
    destruct (object_ok w Hc _ _ Hsub). lia. }
  destruct (unknown_id_unused w _ Hc Hfresh) as [Htables _].
  unfold subscribe.
  change (getUniqueId ?x) with (idCounter x, (getUniqueId x).2). cbv beta iota.
  rewrite bool_decide_eq_true_2 by done.
  unfold openWith.
  set (p1 := _getEventSubscriptions eventName (provider w)).
  set (obj := {| actions := SimpleActions eventName (idCounter w);
                 _listeners := noListeners |}).
  set (w3 := setObjects _ _).
  assert (objects w3 !! idCounter w = Some obj) as Hobj by apply lookup_insert_eq.
  assert (_subscribe (SimpleActions eventName (idCounter w)) upstream w3
          = (Ok tt, setProvider (setHandler eventName (idCounter w)
                                   (Forward (idCounter w)) p1) w3, [])) as Hsub.
  { simpl. change (provider w3) with p1. unfold p1.
    by rewrite tableOf_getEventSubscriptions, Htables. }
  unfold Subscription_subscribe.
  change (idCounter (setProvider p1 w)) with (idCounter w).
  rewrite Hobj. change (actions obj) with (SimpleActions eventName (idCounter w)).
  rewrite Hsub. unfold fire, listenersOf.
  change (objects (setProvider _ w3)) with (objects w3). rewrite Hobj.
  eexists. split; [reflexivity|].
  split; [done|]. split; [done|]. split; [|split].
  - change (provider (setProvider ?p _)) with p.
    by rewrite tableOf_setHandler, decide_True.
  - intros topic id Hne. change (provider (setProvider ?p _)) with p.
    rewrite tableOf_setHandler, decide_False by by intros [_ ?].
    unfold p1. by rewrite tableOf_getEventSubscriptions.
  - change (provider (setProvider ?p _)) with p.
    rewrite contract_setHandler. apply contract_getEventSubscriptions.
Qed.

Lemma simple_subscribe_is_local_witness :
  ∃ w', subscribe "loggedOut" None false
          (run [OpSubscribe "transactionsFound" (Some "a") true] initial).1
        = (Ok 1, w', [])
    ∧ tableOf (provider w') "loggedOut" !! 1 = Some (Forward 1).
Proof.
  set (w := (run [OpSubscribe "transactionsFound" (Some "a") true] initial).1).
  assert (reachable w) as Hreach by (eexists; reflexivity).
  destruct (simple_subscribe_is_local w "loggedOut" None false Hreach)
    as (w' & Hop & _ & _ & Htable & _).
  - apply (bool_decide_unpack ("loggedOut" ∈ simpleEvents)). by vm_compute.
  - exists w'. split; [exact Hop | exact Htable].
Defined.

(** X11. [on] only adds: the listener is appended after those already
    registered for that event of that handle, so a later [notify] calls the
    earlier listeners first and the new one last, once more for every time it
    was registered; the listeners of the handle's other events, those of
    every other handle and the client's registries are untouched. *)
Theorem on_appends_listener (s : nat) (sub : Subscription) (e : SubscriptionEvent)
    (listener : Listener) (d : EventData) (w : World) :
  objects w !! s = Some sub →
  listenersOf s e (Subscription_on s e listener w) = listenersOf s e w ++ [listener]
  ∧ (∀ e', e' ≠ e →
       listenersOf s e' (Subscription_on s e listener w) = listenersOf s e' w)
  ∧ (∀ s' e', s' ≠ s →
       listenersOf s' e' (Subscription_on s e listener w) = listenersOf s' e' w)
  ∧ provider (Subscription_on s e listener w) = provider w
  ∧ Subscription_notify s d (Subscription_on s data listener w)
    = Subscription_notify s d w ++ [Call listener (Some d)].
Proof.
  intros Hobj.
  assert (∀ e0, listenersOf s e0 (Subscription_on s e listener w)
                = listenersFor e0 (pushListener e listener (_listeners sub))) as Hnew.
  { intros e0. unfold listenersOf, Subscription_on. rewrite Hobj. simpl.
    by rewrite lookup_insert_eq. }
  assert (∀ e0, listenersOf s e0 w = listenersFor e0 (_listeners sub)) as Hold.
  { intros e0. unfold listenersOf. by rewrite Hobj. }
  split; [|split; [|split; [|split]]].
  - rewrite Hnew, Hold. by destruct e.
  - intros e' Hne. rewrite Hnew, Hold. by destruct e, e'.
  - intros s' e' Hne. unfold listenersOf, Subscription_on. rewrite Hobj. simpl.
    by rewrite lookup_insert_ne.
  - unfold Subscription_on. by rewrite Hobj.
  - unfold Subscription_notify, fire.
    assert (listenersOf s data (Subscription_on s data listener w)
            = listenersOf s data w ++ [listener]) as ->.
    { unfold listenersOf, Subscription_on. rewrite Hobj. simpl.
      by rewrite lookup_insert_eq. }
    by rewrite map_app.
Qed.

Lemma on_appends_listener_witness :
  Subscription_notify 0 {| data_address := None; data_body := 3 |}
    (Subscription_on 0 data 8
       (run [OpSubscribe "disconnected" None true; OpOn 0 data 7; OpOn 0 data 8] initial).1)
  = [Call 7 (Some {| data_address := None; data_body := 3 |});
     Call 8 (Some {| data_address := None; data_body := 3 |});
     Call 8 (Some {| data_address := None; data_body := 3 |})].
Proof.
  set (w := (run [OpSubscribe "disconnected" None true; OpOn 0 data 7; OpOn 0 data 8]
               initial).1).
  destruct (on_appends_listener 0
              {| actions := SimpleActions "disconnected" 0;
                 _listeners := {| on_data := [7; 8]; on_subscribed := [];
                                  on_unsubscribed := [] |} |}
              data 8 {| data_address := None; data_body := 3 |} w)
    as (_ & _ & _ & _ & Hnotify).
  - by vm_compute.
  - rewrite Hnotify. by vm_compute.
Defined.

Section ThrowingListeners.
Implicit Types (throws : nat → Listener → bool) (w : World).

Lemma callEach_calls throws arg i listeners calls thrown :
  callEach throws arg i listeners = (calls, thrown) →
  ∃ called,
    calls = map (λ l, Call l arg) called
    ∧ match thrown with
      | None => called = listeners
      | Some l => last called = Some l ∧ ∃ rest, listeners = called ++ rest
      end.
Proof.
  revert i calls thrown.
  induction listeners as [|l rest IH]; intros i calls thrown; simpl.
  - intros [= <- <-]. by exists [].
  - destruct (throws i l).
    + intros [= <- <-]. exists [l]. split; [done|]. split; [done|]. by exists rest.
    + destruct (callEach throws arg (S i) rest) as [calls' thrown'] eqn:Hrest.
      intros [= <- <-].
      destruct (IH _ _ _ Hrest) as (called & -> & Hthrown).
      exists (l :: called). split; [done|].
      destruct thrown' as [l'|].
      * destruct Hthrown as (Hlast & rest' & ->). split; [|by exists rest'].
        destruct called; [done|]. by rewrite last_cons_cons.
      * by subst called.
Qed.

Lemma callEach_returning arg i listeners :
  callEach (λ _ _, false) arg i listeners = (map (λ l, Call l arg) listeners, None).
Proof.
  revert i. induction listeners as [|l rest IH]; intros i; simpl; [done|].
  by rewrite IH.
Qed.

(** With listeners that return, the operations settle as
    [Subscription_subscribe] and [Subscription_unsubscribe] say. *)
Lemma Subscription_with_returning s upstream w :
  Subscription_subscribe_with (λ _ _, false) s upstream w
  = (settled (Subscription_subscribe s upstream w).1.1,
     (Subscription_subscribe s upstream w).1.2, (Subscription_subscribe s upstream w).2)
  ∧ Subscription_unsubscribe_with (λ _ _, false) s upstream w
    = (settled (Subscription_unsubscribe s upstream w).1.1,
       (Subscription_unsubscribe s upstream w).1.2,
       (Subscription_unsubscribe s upstream w).2).
Proof.
  unfold Subscription_subscribe_with, Subscription_unsubscribe_with,
    Subscription_subscribe, Subscription_unsubscribe, fire.
  destruct (objects w !! s) as [sub|]; [|done]. split.
  - destruct (_subscribe _ _ _) as [[[u|e] w'] effects]; [|done].
    by rewrite callEach_returning.
  - destruct (_unsubscribe _ _ _) as [[[u|e] w'] effects]; [|done].
    by rewrite callEach_returning.
Qed.

End ThrowingListeners.

(** X12. [subscribe()] and [unsubscribe()] on a handle issue at most one
    upstream call and issue it before any listener runs, whatever the
    listeners do.  When the operation resolves, what follows the call is
    exactly the handle's ['subscribed'] (respectively ['unsubscribed'])
    listeners, in registration order.  When it rejects with the error of its
    closure, that error is the transport's rejection and no listener was
    called.  When it rejects because a listener threw, the closure had
    completed, so its changes stay, and the listeners called are those
    registered before the throwing one and that one, which was called
    last. *)
Theorem handle_operation_effects (throws : nat → Listener → bool) (s : nat)
    (sub : Subscription) (upstream : bool) (w : World) (outcome : Settled)
    (w' : World) (effects : list Effect) :
  objects w !! s = Some sub →
  (Subscription_subscribe_with throws s upstream w = (outcome, w', effects) →
   length (apiCalls effects) ≤ 1
   ∧ ∃ called,
       effects = apiCalls effects ++ map (λ l, Call l None) called
       ∧ match outcome with
         | Resolved => called = on_subscribed (_listeners sub)
         | Rejected e => e = UpstreamError ∧ upstream = false ∧ called = []
                         ∧ length effects = 1
         | ListenerThrew l =>
             last called = Some l
             ∧ (∃ rest, on_subscribed (_listeners sub) = called ++ rest)
             ∧ (_subscribe (actions sub) upstream w).1 = (Ok tt, w')
         end)
  ∧ (Subscription_unsubscribe_with throws s upstream w = (outcome, w', effects) →
     length (apiCalls effects) ≤ 1
     ∧ ∃ called,
         effects = apiCalls effects ++ map (λ l, Call l None) called
         ∧ match outcome with
           | Resolved => called = on_unsubscribed (_listeners sub)
           | Rejected e => e = UpstreamError ∧ upstream = false ∧ called = []
                           ∧ length effects = 1
           | ListenerThrew l =>
               last called = Some l
               ∧ (∃ rest, on_unsubscribed (_listeners sub) = called ++ rest)
               ∧ (_unsubscribe (actions sub) upstream w).1 = (Ok tt, w')
           end).
Proof.
  intros Hobj.
  assert (∀ called, apiCalls (map (λ l, Call l None) called) = []) as Hnone.
  { intros called. by induction called. }
  split.
  - unfold Subscription_subscribe_with. rewrite Hobj.
    destruct (_subscribe _ _ _) as [[r0 w0] e0] eqn:Hact.
    destruct (_subscribe_effects _ _ _ _ _ _ Hact) as [Hapi Hlen].
    pose proof (_subscribe_objects _ _ _ _ _ _ Hact) as Hsame.
    destruct r0 as [[]|e].
    + destruct (callEach _ _ _ _) as [calls thrown] eqn:Hcalls.
      destruct (callEach_calls _ _ _ _ _ _ Hcalls) as (called & -> & Hthrown).
      unfold listenersOf in Hthrown. rewrite Hsame, Hobj in Hthrown.
      intros Hres.
      assert (w' = w0 ∧ effects = e0 ++ map (λ l, Call l None) called) as [-> ->]
        by (destruct thrown; by injection Hres as <- <- <-).
      rewrite apiCalls_app, Hnone, app_nil_r, Hapi. split; [done|].
      exists called. split; [done|].
      destruct thrown as [l|]; injection Hres as <-; [|done].
      by destruct Hthrown.
    + intros [= <- <- <-]. rewrite Hapi. split; [done|].
      exists []. split; [by rewrite app_nil_r|].
      destruct (_subscribe_throws _ _ _ _ _ _ Hact) as (ev & id & a & Ha & Ht & _ & -> & ->).
      repeat split; try done.
      rewrite Ha in Hact. simpl in Hact. rewrite Ht in Hact.
      destruct (foldSubscriptions _ _) as [total withoutExcluded].
      destruct (differ _ _); by simplify_eq.
  - unfold Subscription_unsubscribe_with. rewrite Hobj.
    destruct (_unsubscribe _ _ _) as [[r0 w0] e0] eqn:Hact.
    destruct (_unsubscribe_effects _ _ _ _ _ _ Hact) as [Hapi Hlen].
    pose proof (_unsubscribe_objects _ _ _ _ _ _ Hact) as Hsame.
    destruct r0 as [[]|e].
    + destruct (callEach _ _ _ _) as [calls thrown] eqn:Hcalls.
      destruct (callEach_calls _ _ _ _ _ _ Hcalls) as (called & -> & Hthrown).
      unfold listenersOf in Hthrown. rewrite Hsame, Hobj in Hthrown.
      intros Hres.
      assert (w' = w0 ∧ effects = e0 ++ map (λ l, Call l None) called) as [-> ->]
        by (destruct thrown; by injection Hres as <- <- <-).
      rewrite apiCalls_app, Hnone, app_nil_r, Hapi. split; [done|].
      exists called. split; [done|].
      destruct thrown as [l|]; injection Hres as <-; [|done].
      by destruct Hthrown.
    + intros [= <- <- <-]. rewrite Hapi. split; [done|].
      exists []. split; [by rewrite app_nil_r|].
      by destruct (_unsubscribe_throws _ _ _ _ _ _ Hact) as (-> & -> & ?).
Qed.

Lemma handle_operation_effects_witness :
  let throws := λ (i : nat) (l : Listener), bool_decide (l = 5) in
  let w := (run [OpSubscribe "transactionsFound" (Some "a") true; OpOn 0 unsubscribed 4;
                 OpOn 0 unsubscribed 5; OpOn 0 unsubscribed 6] initial).1 in
  Subscription_unsubscribe_with throws 0 true w
  = (ListenerThrew 5, (Subscription_unsubscribe 0 true w).1.2,
     [ApiUnsubscribe "a"; Call 4 None; Call 5 None])
  ∧ length (apiCalls [ApiUnsubscribe "a"; Call 4 None; Call 5 None]) ≤ 1.
Proof.
  intros throws w. split; [by vm_compute|].
  destruct (handle_operation_effects throws 0
              {| actions := ContractActions "transactionsFound" 0 "a";
                 _listeners := {| on_data := []; on_subscribed := [];
                                  on_unsubscribed := [4; 5; 6] |} |}
              true w (ListenerThrew 5) (Subscription_unsubscribe 0 true w).1.2
              [ApiUnsubscribe "a"; Call 4 None; Call 5 None]) as [_ Hunsub].
  - by vm_compute.
  - destruct Hunsub as [Hlen _]; [by vm_compute|]. exact Hlen.
Defined.

(** X13. [unsubscribe()] unregisters the handle whatever the transport
    answers: afterwards the handle is not active and, for an address-scoped
    handle, its id has no entry in the bucket of its address, also when the
    upstream call was rejected and the operation threw.  A rejected remove
    is not rolled back. *)
Theorem unsubscribe_always_unregisters (s : nat) (sub : Subscription) (upstream : bool)
    (w : World) (r : Result unit) (w' : World) (effects : list Effect) :
  objects w !! s = Some sub →
  Subscription_unsubscribe s upstream w = (r, w', effects) →
  ¬ active (actions sub) (provider w')
  ∧ (∀ eventName id address,
       actions sub = ContractActions eventName id address →
       bucketOf (provider w') address !! id = None)
  ∧ objects w' = objects w.
Proof.
  intros Hobj Hop.
  pose proof (Subscription_unsubscribe_objects _ _ _ _ _ _ Hop) as Hsame.
  unfold Subscription_unsubscribe in Hop. rewrite Hobj in Hop.
  destruct (_unsubscribe _ _ _) as [[r0 w0] e0] eqn:Hact.
  assert (w0 = w') as -> by (destruct r0; by injection Hop as <- <- <-).
  split; [|split; [|done]].
  - unfold active. rewrite (_unsubscribe_inactive _ _ _ _ _ _ Hact). by intros [? ?].
  - intros eventName id address Ha. rewrite Ha in Hact.
    by eapply _unsubscribe_clears_entry.
Qed.

Lemma unsubscribe_always_unregisters_witness :
  (Subscription_unsubscribe 0 false
     (run [OpSubscribe "transactionsFound" (Some "a") true] initial).1).1.1
  = Throw UpstreamError
  ∧ bucketOf
      (provider (Subscription_unsubscribe 0 false
         (run [OpSubscribe "transactionsFound" (Some "a") true] initial).1).1.2)
      "a" !! 0 = None.
Proof.
  set (w := (run [OpSubscribe "transactionsFound" (Some "a") true] initial).1).
  split; [by vm_compute|].
  destruct (unsubscribe_always_unregisters 0
              {| actions := ContractActions "transactionsFound" 0 "a";
                 _listeners := noListeners |} false w
              (Subscription_unsubscribe 0 false w).1.1
              (Subscription_unsubscribe 0 false w).1.2
              (Subscription_unsubscribe 0 false w).2) as (_ & Hentry & _).
  - by vm_compute.
  - by vm_compute.
  - by apply (Hentry "transactionsFound").
Defined.

(** ** Interest that is covered, and interest that comes back *)

Section Covered.
Implicit Types (w : World).

Lemma Subscription_subscribe_accepted s sub w r w' effects :
  objects w !! s = Some sub →
  Subscription_subscribe s true w = (r, w', effects) → r = Ok tt.
Proof.
  intros Hobj Hop.
  destruct (Subscription_subscribe_calls _ _ _ _ _ _ _ Hobj Hop) as (e0 & Hact & _).
  destruct r as [[]|e]; [done|].
  by destruct (_subscribe_throws _ _ _ _ _ _ Hact) as (_ & _ & _ & _ & _ & _ & ? & _).
Qed.

Lemma Subscription_unsubscribe_silent s sub upstream w r w' effects :
  objects w !! s = Some sub →
  Subscription_unsubscribe s upstream w = (r, w', effects) →
  apiCalls effects = [] → r = Ok tt.
Proof.
  intros Hobj Hop Hnone.
  destruct (Subscription_unsubscribe_calls _ _ _ _ _ _ _ Hobj Hop) as (e0 & Hact & Hcalls).
  destruct r as [[]|e]; [done|].
  destruct (_unsubscribe_effects _ _ _ _ _ _ Hact) as [Hapi _].
  destruct (_unsubscribe_throws _ _ _ _ _ _ Hact) as (_ & _ & Hlen).
  rewrite <- Hapi, <- Hcalls, Hnone in Hlen. done.
Qed.

Lemma resubscribe_restores w s sub eventName address u1 r1 w1 e1 r2 w2 e2 :
  reachable w → objects w !! s = Some sub →
  actions sub = ContractActions eventName s address →
  is_Some (bucketOf (provider w) address !! s) →
  Subscription_unsubscribe s u1 w = (r1, w1, e1) →
  Subscription_subscribe s true w1 = (r2, w2, e2) →
  r2 = Ok tt
  ∧ aggregateAt w2 address = aggregateAt w address
  ∧ active (actions sub) (provider w2)
  ∧ is_Some (bucketOf (provider w2) address !! s).
Proof.
  intros Hreach Hobj Hact [o Ho] Hunsub Hsub.
  pose proof (reachable_consistent w Hreach) as Hc.
  pose proof (reachable_coherent w Hreach) as Hco.
  destruct (Subscription_unsubscribe_consistent _ _ _ _ _ _ Hc Hunsub) as (Hc1 & Hobj1 & _).
  pose proof (Subscription_unsubscribe_coherent _ _ _ _ _ _ Hc Hco Hunsub) as Hco1.
  destruct (Subscription_subscribe_consistent _ _ _ _ _ _ Hc1 Hsub) as (Hc2 & Hobj2 & _).
  pose proof (Subscription_subscribe_coherent _ _ _ _ _ _ Hc1 Hco1 Hsub) as Hco2.
  assert (objects w1 !! s = Some sub) as Hs1 by by rewrite Hobj1.
  assert (objects w2 !! s = Some sub) as Hs2 by by rewrite Hobj2, Hobj1.
  destruct (Subscription_unsubscribe_removeInSync _ _ _ _ _ _ _ _ _ Hc Hobj Hact
              (ex_intro _ o Ho) Hunsub) as (Hbucket & _ & _).
  assert (¬ active (actions sub) (provider w1)) as Hinactive.
  { destruct (Subscription_unsubscribe_calls _ _ _ _ _ _ _ Hobj Hunsub) as (e0 & Ha & _).
    unfold active. rewrite (_unsubscribe_inactive _ _ _ _ _ _ Ha). by intros [? ?]. }
  pose proof (Subscription_subscribe_accepted _ _ _ _ _ _ Hs1 Hsub) as ->.
  destruct (Subscription_subscribe_addInSync _ _ _ _ _ _ _ _ _ Hc1 Hs1 Hact Hinactive Hsub)
    as (_ & Hagg & _).
  assert (active (actions sub) (provider w2)) as Hactive.
  { destruct (Subscription_subscribe_calls _ _ _ _ _ _ _ Hs1 Hsub) as (e0 & Ha & _).
    by apply _subscribe_active in Ha as [? _]. }
  split; [done|]. split; [|split; [done|]].
  - rewrite Hagg. unfold aggregateAt at 1. rewrite Hbucket.
    apply bucketOf_Some in Ho as (b & Hb & Ho).
    destruct (entry_owned w Hc _ _ _ _ Hb Ho) as (_ & ev & sub' & ? & ? & _ & Hflags).
    assert (sub' = sub) as -> by congruence.
    assert (ev = eventName) as -> by congruence.
    unfold aggregateAt. rewrite (bucketOf_lookup _ _ _ Hb).
    by rewrite (aggregate_delete b s o Ho), Hflags.
  - apply (active_entry w2 Hco2 _ sub eventName); [done..|].
    unfold active in Hactive. by rewrite Hact in Hactive.
Qed.

Lemma covered_add w eventName address s' o' upstream r w' effects :
  reachable w → eventName ∈ contractEvents →
  bucketOf (provider w) address !! s' = Some o' → flags o' = flagsFor eventName →
  subscribe eventName (Some address) upstream w = (r, w', effects) →
  (∃ id, r = Ok id) ∧ apiCalls effects = [] ∧ aggregateAt w' address = aggregateAt w address.
Proof.
  intros Hc%reachable_consistent Hev Ho' Hflags Hop.
  destruct (subscribe_addInSync _ _ _ _ _ _ _ Hc Hev Hop) as [Hcalls Hr].
  assert (orFlags (flagsFor eventName) (aggregateAt w address) = aggregateAt w address)
    as Hsame by (rewrite <- Hflags; by eapply aggregate_absorbs).
  rewrite Hsame in *. rewrite decide_True in Hcalls by done.
  destruct r as [id|e]; [|by destruct Hr].
  destruct Hr as [Hagg _]. split; [by exists id|]. by split.
Qed.

Lemma covered_remove w s sub eventName address s' o' upstream r w' effects :
  reachable w → objects w !! s = Some sub →
  actions sub = ContractActions eventName s address →
  is_Some (bucketOf (provider w) address !! s) →
  s' ≠ s → bucketOf (provider w) address !! s' = Some o' → flags o' = flagsFor eventName →
  Subscription_unsubscribe s upstream w = (r, w', effects) →
  r = Ok tt ∧ apiCalls effects = [] ∧ aggregateAt w' address = aggregateAt w address.
Proof.
  intros Hc%reachable_consistent Hobj Hact [o Ho] Hne Ho' Hflags Hop.
  destruct (Subscription_unsubscribe_removeInSync _ _ _ _ _ _ _ _ _ Hc Hobj Hact
              (ex_intro _ o Ho) Hop) as (Hbucket & Hcalls & _).
  assert (flags o = flagsFor eventName) as Hown.
  { apply bucketOf_Some in Ho as (b & Hb & Ho).
    destruct (entry_owned w Hc _ _ _ _ Hb Ho) as (_ & ev & sub' & ? & ? & _ & Hf).
    assert (sub' = sub) as -> by congruence. congruence. }
  assert (orFlags (flagsFor eventName) (aggregateAt w' address) = aggregateAt w' address)
    as Hrest.
  { unfold aggregateAt. rewrite Hbucket, <- Hflags.
    apply (aggregate_absorbs _ s'). by rewrite lookup_delete_ne. }
  assert (aggregateAt w' address = aggregateAt w address) as Hsame.
  { rewrite <- Hrest at 1. unfold aggregateAt. rewrite Hbucket.
    by rewrite (aggregate_delete _ s o Ho), Hown. }
  assert (aggregateAt w' address ≠ noInterest) as Hsome.
  { rewrite <- Hrest. intros Hnone%orFlags_noInterest_inv.
    destruct (object_ok w Hc _ _ Hobj) as (_ & _ & _ & Hok).
    rewrite Hact in Hok. simpl in Hok.
    exact (flagsFor_interest eventName Hok Hnone). }
  rewrite decide_False, decide_True in Hcalls by done.
  split; [|by split]. by eapply Subscription_unsubscribe_silent.
Qed.

End Covered.

(** X14. [unsubscribe()] followed by a [subscribe()] that the transport
    accepts brings an address-scoped handle back: in every reachable world
    where the handle has its entry, after the two calls the handle is active
    again, has an entry again, and the OR registered for its address is what
    it was before, whatever the transport answered to the unsubscribe. *)
Theorem resubscribe_restores_interest (w : World) (s : nat) (sub : Subscription)
    (eventName address : string) (u1 : bool) (r1 r2 : Result unit)
    (w1 w2 : World) (e1 e2 : list Effect) :
  reachable w → objects w !! s = Some sub →
  actions sub = ContractActions eventName s address →
  is_Some (bucketOf (provider w) address !! s) →
  Subscription_unsubscribe s u1 w = (r1, w1, e1) →
  Subscription_subscribe s true w1 = (r2, w2, e2) →
  r2 = Ok tt
  ∧ aggregateAt w2 address = aggregateAt w address
  ∧ active (actions sub) (provider w2)
  ∧ is_Some (bucketOf (provider w2) address !! s).
Proof. apply resubscribe_restores. Qed.

Lemma resubscribe_restores_interest_witness :
  aggregateAt
    (run [OpSubscribe "transactionsFound" (Some "a") true;
          OpSubscribe "contractStateChanged" (Some "a") true;
          OpUnsubscribe 0 false; OpResubscribe 0 true] initial).1 "a"
  = aggregateAt
      (run [OpSubscribe "transactionsFound" (Some "a") true;
            OpSubscribe "contractStateChanged" (Some "a") true] initial).1 "a".
Proof.
  set (w := (run [OpSubscribe "transactionsFound" (Some "a") true;
                  OpSubscribe "contractStateChanged" (Some "a") true] initial).1).
  assert (reachable w) as Hreach by (eexists; reflexivity).
  destruct (resubscribe_restores_interest w 0
              {| actions := ContractActions "transactionsFound" 0 "a";
                 _listeners := noListeners |} "transactionsFound" "a" false
              (Subscription_unsubscribe 0 false w).1.1
              (Subscription_subscribe 0 true (Subscription_unsubscribe 0 false w).1.2).1.1
              (Subscription_unsubscribe 0 false w).1.2
              (Subscription_subscribe 0 true (Subscription_unsubscribe 0 false w).1.2).1.2
              (Subscription_unsubscribe 0 false w).2
              (Subscription_subscribe 0 true (Subscription_unsubscribe 0 false w).1.2).2
              Hreach) as (_ & Hagg & _).
  - by vm_compute.
  - reflexivity.
  - eexists. by vm_compute.
  - by vm_compute.
  - by vm_compute.
  - exact Hagg.
Defined.

(** X15. Interest that another subscriber already covers costs no upstream
    call.  In every reachable world where some id registered for an address
    carries the flag of a topic: creating one more handle for that topic and
    address completes without any upstream call, and removing another
    registered handle of that topic and address completes without any
    upstream call; in both cases the OR registered for the address is
    unchanged. *)
Theorem covered_interest_needs_no_call (w : World) (eventName address : string)
    (s' : nat) (o' : FlagsObject) :
  reachable w → eventName ∈ contractEvents →
  bucketOf (provider w) address !! s' = Some o' → flags o' = flagsFor eventName →
  (∀ upstream r w' effects,
     subscribe eventName (Some address) upstream w = (r, w', effects) →
     (∃ id, r = Ok id) ∧ apiCalls effects = []
     ∧ aggregateAt w' address = aggregateAt w address)
  ∧ (∀ s sub upstream r w' effects,
       objects w !! s = Some sub →
       actions sub = ContractActions eventName s address →
       is_Some (bucketOf (provider w) address !! s) → s' ≠ s →
       Subscription_unsubscribe s upstream w = (r, w', effects) →
       r = Ok tt ∧ apiCalls effects = []
       ∧ aggregateAt w' address = aggregateAt w address).
Proof.
  intros Hreach Hev Ho' Hflags. split.
  - intros upstream r w' effects Hop. by eapply covered_add.
  - intros s sub upstream r w' effects Hobj Hact Hentry Hne Hop.
    by eapply covered_remove.
Qed.

Lemma covered_interest_needs_no_call_witness :
  apiCalls
    (Subscription_unsubscribe 0 false
       (run [OpSubscribe "transactionsFound" (Some "a") true;
             OpSubscribe "transactionsFound" (Some "a") true] initial).1).2 = []
  ∧ apiCalls
      (subscribe "transactionsFound" (Some "a") false
         (run [OpSubscribe "transactionsFound" (Some "a") true;
               OpSubscribe "transactionsFound" (Some "a") true] initial).1).2 = [].
Proof.
  set (w := (run [OpSubscribe "transactionsFound" (Some "a") true;
                  OpSubscribe "transactionsFound" (Some "a") true] initial).1).
  assert (reachable w) as Hreach by (eexists; reflexivity).
  destruct (covered_interest_needs_no_call w "transactionsFound" "a" 1
              {| ref := 1; flags := {| state := false; transactions := true |} |} Hreach)
    as [Hadd Hremove].
  - apply (bool_decide_unpack ("transactionsFound" ∈ contractEvents)). by vm_compute.
  - by vm_compute.
  - reflexivity.
  - split.
    + apply (Hremove 0 {| actions := ContractActions "transactionsFound" 0 "a";
                          _listeners := noListeners |} false
               (Subscription_unsubscribe 0 false w).1.1
               (Subscription_unsubscribe 0 false w).1.2).
      * by vm_compute.
      * reflexivity.
      * eexists. by vm_compute.
      * done.
      * by vm_compute.
    + apply (Hadd false (subscribe "transactionsFound" (Some "a") false w).1.1
               (subscribe "transactionsFound" (Some "a") false w).1.2).
      by vm_compute.
Defined.

(** ** What a handle operation leaves alone *)

Section Locality.
Implicit Types (w : World) (a : Actions).

Lemma lookup_setBucket_ne address b p address' :
  address' ≠ address →
  _contractSubscriptions (setBucket address b p) !! address'
  = _contractSubscriptions p !! address'.
Proof. intros Hne. simpl. by rewrite lookup_insert_ne. Qed.

Lemma _subscribe_local a upstream w r w' effects :
  _subscribe a upstream w = (r, w', effects) →
  (∀ topic id, topic ≠ actionsEvent a ∨ id ≠ actionsId a →
     tableOf (provider w') topic !! id = tableOf (provider w) topic !! id)
  ∧ match a with
    | SimpleActions _ _ =>
        effects = []
        ∧ _contractSubscriptions (provider w') = _contractSubscriptions (provider w)
    | ContractActions _ id address =>
        (∀ c, c ∈ effects → callAddress c = Some address)
        ∧ (∀ address', address' ≠ address →
             _contractSubscriptions (provider w') !! address'
             = _contractSubscriptions (provider w) !! address')
        ∧ (∀ id', id' ≠ id →
             bucketOf (provider w') address !! id' = bucketOf (provider w) address !! id')
    end.
Proof.
  assert (∀ (ev : string) (i : nat) (tp : string) (j : nat),
            tp ≠ ev ∨ j ≠ i → ¬ (tp = ev ∧ j = i)) as Hno by (intros; tauto).
  destruct a as [eventName id|eventName id address]; simpl.
  - destruct (tableOf _ _ !! id); intros [= <- <- <-]; (split; [|done]); [done|].
    intros topic j Hne. simpl. by rewrite tableOf_setHandler, decide_False by by apply Hno.
  - destruct (tableOf _ _ !! id); [intros [= <- <- <-]; by repeat split; try done;
                                     intros c ?%elem_of_nil|].
    destruct (foldSubscriptions _ _) as [total withoutExcluded].
    change (bucketOf (setHandler eventName id (ForwardIfAddress address id) (provider w))
              address) with (bucketOf (provider w) address).
    set (p1 := setHandler eventName id (ForwardIfAddress address id) (provider w)).
    set (cs := <[id := {| ref := nextRef w; flags := flagsFor eventName |}]>
                 (bucketOf (provider w) address)).
    set (p2 := setBucket address cs p1).
    set (p3 := setBucket address (delete id cs) (deleteHandler eventName id p2)).
    assert (∀ topic j, topic ≠ eventName ∨ j ≠ id →
              tableOf p2 topic !! j = tableOf (provider w) topic !! j) as Ht2.
    { intros topic j Hne. unfold p2, p1.
      by rewrite tableOf_setBucket, tableOf_setHandler, decide_False by by apply Hno. }
    assert (∀ topic j, topic ≠ eventName ∨ j ≠ id →
              tableOf p3 topic !! j = tableOf (provider w) topic !! j) as Ht3.
    { intros topic j Hne. unfold p3.
      rewrite tableOf_setBucket, tableOf_deleteHandler, decide_False by by apply Hno.
      by apply Ht2. }
    assert (∀ address', address' ≠ address →
              _contractSubscriptions p2 !! address'
              = _contractSubscriptions (provider w) !! address') as Ho2.
    { intros address' Hne. unfold p2. by rewrite lookup_setBucket_ne. }
    assert (∀ address', address' ≠ address →
              _contractSubscriptions p3 !! address'
              = _contractSubscriptions (provider w) !! address') as Ho3.
    { intros address' Hne. unfold p3. rewrite lookup_setBucket_ne by done.
      by apply Ho2. }
    assert (∀ id', id' ≠ id →
              bucketOf p2 address !! id' = bucketOf (provider w) address !! id') as Hi2.
    { intros id' Hne. unfold p2. rewrite bucketOf_setBucket, decide_True by done.
      unfold cs. by rewrite lookup_insert_ne. }
    assert (∀ id', id' ≠ id →
              bucketOf p3 address !! id' = bucketOf (provider w) address !! id') as Hi3.
    { intros id' Hne. unfold p3. rewrite bucketOf_setBucket, decide_True by done.
      unfold cs. by rewrite lookup_delete_ne, lookup_insert_ne. }
    assert (∀ c : Effect, c ∈ [ApiSubscribe address total] → callAddress c = Some address)
      as Hcall.
    { intros c Hc. apply list_elem_of_singleton in Hc. by subst. }
    destruct (differ total withoutExcluded); [destruct upstream|];
      intros [= <- <- <-]; repeat split; try done.
    by intros c ?%elem_of_nil.
Qed.

Lemma _unsubscribe_local a upstream w r w' effects :
  _unsubscribe a upstream w = (r, w', effects) →
  (∀ topic id, topic ≠ actionsEvent a ∨ id ≠ actionsId a →
     tableOf (provider w') topic !! id = tableOf (provider w) topic !! id)
  ∧ match a with
    | SimpleActions _ _ =>
        effects = []
        ∧ _contractSubscriptions (provider w') = _contractSubscriptions (provider w)
    | ContractActions _ id address =>
        (∀ c, c ∈ effects → callAddress c = Some address)
        ∧ (∀ address', address' ≠ address →
             _contractSubscriptions (provider w') !! address'
             = _contractSubscriptions (provider w) !! address')
        ∧ (∀ id', id' ≠ id →
             bucketOf (provider w') address !! id' = bucketOf (provider w) address !! id')
    end.
Proof.
  assert (∀ (ev : string) (i : nat) (tp : string) (j : nat),
            tp ≠ ev ∨ j ≠ i → ¬ (tp = ev ∧ j = i)) as Hno by (intros; tauto).
  destruct a as [eventName id|eventName id address]; simpl.
  - intros [= <- <- <-]. split; [|done].
    intros topic j Hne. simpl. by rewrite tableOf_deleteHandler, decide_False by by apply Hno.
  - change (_contractSubscriptions (deleteHandler eventName id (provider w)))
      with (_contractSubscriptions (provider w)).
    destruct (_contractSubscriptions (provider w) !! address) as [b|] eqn:Hb.
    + destruct (foldSubscriptions _ _) as [total withoutExcluded].
      set (p2 := setBucket address (delete id b) (deleteHandler eventName id (provider w))).
      assert (∀ topic j, topic ≠ eventName ∨ j ≠ id →
                tableOf p2 topic !! j = tableOf (provider w) topic !! j) as Ht2.
      { intros topic j Hne. unfold p2.
        by rewrite tableOf_setBucket, tableOf_deleteHandler, decide_False by by apply Hno. }
      assert (∀ address', address' ≠ address →
                _contractSubscriptions p2 !! address'
                = _contractSubscriptions (provider w) !! address') as Ho2.
      { intros address' Hne. unfold p2. by rewrite lookup_setBucket_ne. }
      assert (∀ id', id' ≠ id →
                bucketOf p2 address !! id' = bucketOf (provider w) address !! id') as Hi2.
      { intros id' Hne. unfold p2. rewrite bucketOf_setBucket, decide_True by done.
        rewrite lookup_delete_ne by done. by rewrite (bucketOf_lookup _ _ _ Hb). }
      assert (∀ call : Effect, callAddress call = Some address →
                ∀ c, c ∈ [call] → callAddress c = Some address) as Hcall.
      { intros call Hcall c Hc. apply list_elem_of_singleton in Hc. by subst. }
      unfold await.
      repeat case_match; intros [= <- <- <-]; repeat split; try done;
        try (by apply Hcall); by intros c ?%elem_of_nil.
    + intros [= <- <- <-]. simpl. split; [|split; [|split]]; try done.
      * intros topic j Hne. by rewrite tableOf_deleteHandler, decide_False by by apply Hno.
      * by intros c ?%elem_of_nil.
Qed.

End Locality.

(** X16. [subscribe()] and [unsubscribe()] on a handle touch nothing but the
    handle's own registrations: every callback other than the one of its id
    under its topic stays as it was; for a handle on a global topic no
    upstream call is issued and the address interest registry is unchanged;
    for an address-scoped handle every upstream call issued is about the
    handle's address, the buckets of all other addresses are unchanged, and
    so are the entries of all other ids in its own bucket. *)
Theorem handle_operations_are_local (s : nat) (sub : Subscription) (upstream : bool)
    (w : World) (r : Result unit) (w' : World) (effects : list Effect) :
  objects w !! s = Some sub →
  Subscription_subscribe s upstream w = (r, w', effects)
  ∨ Subscription_unsubscribe s upstream w = (r, w', effects) →
  (∀ topic id,
     topic ≠ actionsEvent (actions sub) ∨ id ≠ actionsId (actions sub) →
     tableOf (provider w') topic !! id = tableOf (provider w) topic !! id)
  ∧ match actions sub with
    | SimpleActions _ _ =>
        apiCalls effects = []
        ∧ _contractSubscriptions (provider w') = _contractSubscriptions (provider w)
    | ContractActions _ id address =>
        (∀ c, c ∈ apiCalls effects → callAddress c = Some address)
        ∧ (∀ address', address' ≠ address →
             _contractSubscriptions (provider w') !! address'
             = _contractSubscriptions (provider w) !! address')
        ∧ (∀ id', id' ≠ id →
             bucketOf (provider w') address !! id' = bucketOf (provider w) address !! id')
    end.
Proof.
  intros Hobj [Hop|Hop].
  - destruct (Subscription_subscribe_calls _ _ _ _ _ _ _ Hobj Hop) as (e0 & Hact & ->).
    destruct (_subscribe_effects _ _ _ _ _ _ Hact) as [-> _].
    destruct (_subscribe_local _ _ _ _ _ _ Hact) as [Htables Hrest].
    split; [done|]. by destruct (actions sub).
  - destruct (Subscription_unsubscribe_calls _ _ _ _ _ _ _ Hobj Hop) as (e0 & Hact & ->).
    destruct (_unsubscribe_effects _ _ _ _ _ _ Hact) as [-> _].
    destruct (_unsubscribe_local _ _ _ _ _ _ Hact) as [Htables Hrest].
    split; [done|]. by destruct (actions sub).
Qed.

Lemma handle_operations_are_local_witness :
  bucketOf
    (provider (Subscription_unsubscribe 0 true
       (run [OpSubscribe "transactionsFound" (Some "a") true;
             OpSubscribe "contractStateChanged" (Some "b") true] initial).1).1.2) "b"
  = bucketOf
      (provider (run [OpSubscribe "transactionsFound" (Some "a") true;
                      OpSubscribe "contractStateChanged" (Some "b") true] initial).1) "b".
Proof.
  set (w := (run [OpSubscribe "transactionsFound" (Some "a") true;
                  OpSubscribe "contractStateChanged" (Some "b") true] initial).1).
  destruct (handle_operations_are_local 0
              {| actions := ContractActions "transactionsFound" 0 "a";
                 _listeners := noListeners |} true w
              (Subscription_unsubscribe 0 true w).1.1
              (Subscription_unsubscribe 0 true w).1.2
              (Subscription_unsubscribe 0 true w).2) as (_ & _ & Hother & _).
  - by vm_compute.
  - right. by vm_compute.
  - unfold bucketOf. by rewrite (Hother "b").
Defined.

(** ** Upstream mirrors the registry *)

Section Mirror.
Implicit Types (w : World) (a : Actions) (address : string) (held : ContractUpdatesSubscription).

Lemma upstreamOf_app address held e1 e2 :
  upstreamOf address held (e1 ++ e2) = upstreamOf address (upstreamOf address held e1) e2.
Proof. apply foldl_app. Qed.

Lemma upstreamOf_fire address held s e arg w :
  upstreamOf address held (fire s e arg w) = held.
Proof.
  unfold fire. induction (listenersOf s e w) as [|l ls IH]; [done|]. simpl. apply IH.
Qed.

Lemma upstreamOf_others address held effects :
  (∀ c, c ∈ effects → callAddress c ≠ Some address) →
  upstreamOf address held effects = held.
Proof.
  revert held. induction effects as [|c effects IH]; intros held Hall; [done|].
  simpl. rewrite IH.
  - assert (callAddress c ≠ Some address) as Hc by (apply Hall; by left).
    destruct c as [a f|a|l arg]; simpl in *; [| |done]; by rewrite decide_False by congruence.
  - intros c' Hc'. apply Hall. by right.
Qed.

Lemma upstreamOf_inSync address w w' effects :
  apiCalls effects = effects → inSync address w w' effects →
  upstreamOf address (aggregateAt w address) effects = aggregateAt w' address.
Proof.
  unfold inSync. intros -> ->. case_decide as Heq; [done|].
  simpl. unfold callFor. case_decide as Hnone; simpl; rewrite decide_True by done; done.
Qed.

Lemma aggregateAt_other address address' w w' :
  _contractSubscriptions (provider w') !! address'
  = _contractSubscriptions (provider w) !! address' →
  aggregateAt w' address' = aggregateAt w address'.
Proof. unfold aggregateAt, bucketOf. by intros ->. Qed.

(** The add closure, accepted upstream, in a consistent world. *)
Lemma _subscribe_mirrors sub s w r w' effects address :
  consistent w → objects w !! s = Some sub →
  _subscribe (actions sub) true w = (r, w', effects) →
  upstreamOf address (aggregateAt w address) effects = aggregateAt w' address.
Proof.
  intros Hc Hobj Hact.
  destruct (_subscribe_local _ _ _ _ _ _ Hact) as [_ Hlocal].
  destruct (object_ok w Hc _ _ Hobj) as (_ & Hid & _).
  destruct (actions sub) as [eventName id|eventName id address0] eqn:Ha;
    simpl in Hid; subst id.
  - destruct Hlocal as [-> Hsame]. simpl. unfold aggregateAt, bucketOf. by rewrite Hsame.
  - destruct Hlocal as (Hcalls & Hother & _).
    destruct (decide (address = address0)) as [->|Hne].
    + destruct (tableOf (provider w) eventName !! s) eqn:Htable.
      * simpl in Hact. rewrite Htable in Hact. by injection Hact as <- <- <-.
      * destruct (add_addInSync _ _ _ _ _ _ _ _ _ Hc Hobj Ha Htable Hact) as [Hapi Hsync].
        destruct r as [u|e].
        -- destruct Hsync as (_ & _ & Hsync). by apply upstreamOf_inSync.
        -- by destruct (_subscribe_throws _ _ _ _ _ _ Hact) as (_ & _ & _ & _ & _ & _ & ? & _).
    + rewrite upstreamOf_others.
      * symmetry. by apply aggregateAt_other, Hother.
      * intros c Hin. rewrite (Hcalls c Hin). congruence.
Qed.

(** The remove closure, accepted upstream, in a consistent world. *)
Lemma _unsubscribe_mirrors sub s upstream w r w' effects address :
  consistent w → objects w !! s = Some sub →
  _unsubscribe (actions sub) upstream w = (r, w', effects) →
  upstreamOf address (aggregateAt w address) effects = aggregateAt w' address.
Proof.
  intros Hc Hobj Hact.
  destruct (_unsubscribe_local _ _ _ _ _ _ Hact) as [_ Hlocal].
  destruct (_unsubscribe_effects _ _ _ _ _ _ Hact) as [Hapi _].
  destruct (object_ok w Hc _ _ Hobj) as (_ & Hid & _).
  destruct (actions sub) as [eventName id|eventName id address0] eqn:Ha;
    simpl in Hid; subst id.
  - destruct Hlocal as [-> Hsame]. simpl. unfold aggregateAt, bucketOf. by rewrite Hsame.
  - destruct Hlocal as (Hcalls & Hother & _).
    destruct (decide (address = address0)) as [->|Hne].
    + destruct (_contractSubscriptions (provider w) !! address0) as [b|] eqn:Hb.
      * destruct (b !! s) as [o|] eqn:Ho.
        -- assert (bucketOf (provider w) address0 !! s = Some o) as Hentry
             by by rewrite (bucketOf_lookup _ _ _ Hb).
           destruct (remove_outcome _ _ _ _ _ _ _ _ _ _ Hc Hobj Ha Hentry Hact)
             as (Hbucket & Hbefore & Heff).
           unfold aggregateAt at 2. rewrite Hbucket, Heff.
           destruct (decide (aggregate (delete s (bucketOf (provider w) address0))
                             = noInterest)) as [Hnone|Hsome]; simpl.
           ++ by rewrite decide_True.
           ++ case_decide as Hrest; simpl; [done|]. by rewrite decide_True.
        -- rewrite (_unsubscribe_no_entry _ _ _ _ _ b) in Hact by done.
           unfold aggregateAt at 1. rewrite (bucketOf_lookup _ _ _ Hb).
           unfold await in Hact.
           case_decide as Hnone; injection Hact as <- <- <-; simpl;
             unfold aggregateAt; rewrite bucketOf_removed, delete_id by done;
             rewrite ?decide_True by done; done.
      * simpl in Hact.
        change (_contractSubscriptions (deleteHandler eventName s (provider w)))
          with (_contractSubscriptions (provider w)) in Hact.
        rewrite Hb in Hact. by injection Hact as <- <- <-.
    + rewrite upstreamOf_others.
      * symmetry. by apply aggregateAt_other, Hother.
      * intros c Hin. rewrite (Hcalls c Hin). congruence.
Qed.

End Mirror.

Section MirrorOfRuns.
Implicit Types (w : World) (address : string).

Lemma upstreamOf_apiCalls address held effects :
  upstreamOf address held effects = upstreamOf address held (apiCalls effects).
Proof.
  revert held. induction effects as [|c effects IH]; intros held; [done|].
  unfold apiCalls. rewrite filter_cons.
  destruct c as [a f|a|l arg]; simpl; apply IH.
Qed.

Lemma Subscription_subscribe_mirrors s w r w' effects address :
  consistent w → Subscription_subscribe s true w = (r, w', effects) →
  upstreamOf address (aggregateAt w address) effects = aggregateAt w' address.
Proof.
  intros Hc Hop. destruct (objects w !! s) as [sub|] eqn:Hobj.
  - destruct (Subscription_subscribe_calls _ _ _ _ _ _ _ Hobj Hop) as (e0 & Hact & Hcalls).
    rewrite upstreamOf_apiCalls, Hcalls, <- upstreamOf_apiCalls.
    by eapply _subscribe_mirrors.
  - unfold Subscription_subscribe in Hop. rewrite Hobj in Hop. by injection Hop as <- <- <-.
Qed.

Lemma Subscription_unsubscribe_mirrors s upstream w r w' effects address :
  consistent w → Subscription_unsubscribe s upstream w = (r, w', effects) →
  upstreamOf address (aggregateAt w address) effects = aggregateAt w' address.
Proof.
  intros Hc Hop. destruct (objects w !! s) as [sub|] eqn:Hobj.
  - destruct (Subscription_unsubscribe_calls _ _ _ _ _ _ _ Hobj Hop) as (e0 & Hact & Hcalls).
    rewrite upstreamOf_apiCalls, Hcalls, <- upstreamOf_apiCalls.
    by eapply _unsubscribe_mirrors.
  - unfold Subscription_unsubscribe in Hop. rewrite Hobj in Hop. by injection Hop as <- <- <-.
Qed.

Lemma openWith_mirrors a w r w' effects address :
  consistent w → actionsId a = idCounter w → actionsTopicOk a →
  is_Some (_subscriptions (provider w) !! actionsEvent a) →
  openWith a (idCounter w) true (getUniqueId w).2 = (r, w', effects) →
  upstreamOf address (aggregateAt w address) effects = aggregateAt w' address.
Proof.
  intros Hc Hid Hok Hev. unfold openWith.
  pose proof (consistent_new_object a w Hc Hid Hok Hev) as Hc3.
  set (w3 := setObjects _ _) in *.
  destruct (Subscription_subscribe (idCounter w) true w3) as [[r0 w4] e0] eqn:Hop.
  pose proof (Subscription_subscribe_mirrors _ _ _ _ _ address Hc3 Hop) as Hmirror.
  change (aggregateAt w3 address) with (aggregateAt w address) in Hmirror.
  destruct r0 as [u|e]; by intros [= <- <- <-].
Qed.

Lemma subscribe_mirrors eventName params w r w' effects address :
  consistent w → subscribe eventName params true w = (r, w', effects) →
  upstreamOf address (aggregateAt w address) effects = aggregateAt w' address.
Proof.
  intros Hc. unfold subscribe.
  pose proof (consistent_getEventSubscriptions eventName w Hc) as Hc1.
  set (w1 := setProvider _ w) in *.
  assert (aggregateAt w1 address = aggregateAt w address) as <-.
  { unfold aggregateAt, w1, setProvider; simpl. by rewrite bucketOf_getEventSubscriptions. }
  assert (eventName ∈ simpleEvents ∨ eventName ∈ contractEvents →
          is_Some (_subscriptions (provider w1) !! eventName)) as Hev
    by apply getEventSubscriptions_creates.
  change (getUniqueId w1) with (idCounter w1, (getUniqueId w1).2). cbv beta iota.
  case_bool_decide as Hsimple.
  - apply openWith_mirrors; try done. apply Hev. by left.
  - case_bool_decide as Hcontract.
    + destruct params as [address0|].
      * apply openWith_mirrors; try done. apply Hev. by right.
      * by intros [= <- <- <-].
    + by intros [= <- <- <-].
Qed.

Lemma emit_no_calls eventName d w : apiCalls (emit eventName d w) = [].
Proof.
  unfold emit. case_bool_decide; [|done].
  destruct (_subscriptions (provider w) !! eventName) as [handlers|]; [|done].
  induction (Object_values handlers) as [|h hs IH]; [done|].
  simpl. rewrite apiCalls_app, IH, app_nil_r.
  destruct h as [s|address s]; simpl; [apply apiCalls_fire|].
  case_bool_decide; [apply apiCalls_fire|done].
Qed.

Lemma step_mirrors w op address :
  consistent w → accepted op = true →
  upstreamOf address (aggregateAt w address) (step w op).2 = aggregateAt (step w op).1 address.
Proof.
  intros Hc Hacc.
  destruct op as [eventName params upstream|s e listener|s upstream|s upstream|eventName d];
    simpl in *; try subst upstream.
  - destruct (subscribe _ _ _ _) as [[r w'] effects] eqn:Hop.
    by eapply subscribe_mirrors.
  - unfold Subscription_on. by destruct (objects w !! s).
  - destruct (Subscription_subscribe _ _ _) as [[r w'] effects] eqn:Hop.
    by eapply Subscription_subscribe_mirrors.
  - destruct (Subscription_unsubscribe _ _ _) as [[r w'] effects] eqn:Hop.
    by eapply Subscription_unsubscribe_mirrors.
  - by rewrite upstreamOf_apiCalls, emit_no_calls.
Qed.

Lemma run_mirrors ops w address :
  consistent w → Forall (λ op, accepted op = true) ops →
  upstreamOf address (aggregateAt w address) (run ops w).2
  = aggregateAt (run ops w).1 address.
Proof.
  revert w. induction ops as [|op ops IH]; intros w Hc Hall; [done|].
  apply Forall_cons in Hall as [Hop Hall]. simpl.
  pose proof (step_consistent w op Hc) as Hc1.
  pose proof (step_mirrors w op address Hc Hop) as Hstep.
  destruct (step w op) as [w1 e1]. specialize (IH w1 Hc1 Hall).
  destruct (run ops w1) as [w2 e2]. simpl in *.
  by rewrite upstreamOf_app, Hstep.
Qed.

End MirrorOfRuns.

(** X17. As long as the transport accepts every call, upstream holds for
    every address exactly the union of the interest registered for it: after
    any sequence of [subscribe], [on], [subscribe()], [unsubscribe()] and
    provider events from the initial state, replaying the upstream calls
    issued so far for an address (a subscribe replaces what upstream holds, an
    unsubscribe clears it) yields the aggregate of the address's bucket. *)
Theorem upstream_mirrors_registry (ops : list Op) (address : string) :
  Forall (λ op, accepted op = true) ops →
  upstreamOf address noInterest (run ops initial).2
  = aggregateAt (run ops initial).1 address.
Proof.
  intros Hall. apply (run_mirrors ops initial address initial_consistent Hall).
Qed.

Lemma upstream_mirrors_registry_witness :
  let ops := [OpSubscribe "transactionsFound" (Some "0:a") true;
              OpSubscribe "contractStateChanged" (Some "0:a") true;
              OpSubscribe "contractStateChanged" (Some "0:b") true;
              OpUnsubscribe 0 true; OpUnsubscribe 2 true; OpUnsubscribe 2 true] in
  Forall (λ op, accepted op = true) ops
  ∧ upstreamOf "0:a" noInterest (run ops initial).2 = aggregateAt (run ops initial).1 "0:a"
  ∧ aggregateAt (run ops initial).1 "0:a" = {| state := true; transactions := false |}.
Proof.
  split; [by repeat constructor|].
  split; [|by vm_compute].
  apply upstream_mirrors_registry. by repeat constructor.
Defined.

(** ** The contract wrapper *)

Section ContractFacts.
Import ContractClass.
Context {AbiParam TokensObject ParsedTokensObject Params Transaction : Type}.
Variable transformToSerializedObject : Params → Outcome TokensObject.
Variable transformToParsedObject :
  option (list AbiParam) → TokensObject → Outcome ParsedTokensObject.
Variable emptyObject : ParsedTokensObject.
Implicit Types (items : list (@ContractFunction AbiParam)) (n : string)
  (c : @Contract AbiParam).

Lemma lastDeclared_snoc n items item :
  lastDeclared n (items ++ [item])
  = if decide (name item = n) then Some item else lastDeclared n items.
Proof.
  unfold lastDeclared. rewrite filter_app, filter_cons, filter_nil.
  case_decide.
  - by rewrite last_snoc.
  - by rewrite app_nil_r.
Qed.

Lemma own_setMember (table : @Table AbiParam) k entry n :
  own (setMember table k entry) !! n
  = if decide (k = "__proto__") then own table !! n
    else if decide (k = n) then Some entry else own table !! n.
Proof.
  unfold setMember. case_decide; [done|]. simpl. case_decide as Hk.
  - subst k. by rewrite lookup_insert_eq.
  - by rewrite lookup_insert_ne.
Qed.

Lemma proto_setMember (table : @Table AbiParam) k entry :
  proto (setMember table k entry)
  = if decide (k = "__proto__") then Some entry else proto table.
Proof. unfold setMember. by case_decide. Qed.

(** The keys and the prototype of a table built by [reduceInto]. *)
Lemma reduceInto_own entry items n :
  own (reduceInto entry items) !! n
  = if decide (n = "__proto__") then None else entry <$> lastDeclared n items.
Proof.
  unfold reduceInto. induction items as [|item items IH] using rev_ind.
  - cbn. by case_decide.
  - rewrite foldl_app, lastDeclared_snoc. cbn [foldl].
    rewrite own_setMember, IH.
    destruct (decide (name item = "__proto__")) as [Hproto|Hproto].
    + case_decide as Hn; [done|]. rewrite decide_False; [done|congruence].
    + destruct (decide (name item = n)) as [<-|Hname]; [|done].
      by rewrite decide_False.
Qed.

Lemma reduceInto_proto entry items :
  proto (reduceInto entry items) = entry <$> lastDeclared "__proto__" items.
Proof.
  unfold reduceInto. induction items as [|item items IH] using rev_ind; [done|].
  rewrite foldl_app, lastDeclared_snoc. cbn [foldl].
  rewrite proto_setMember, IH.
  by destruct (decide (name item = "__proto__")).
Qed.

Lemma reduceInto_getMember entry items n :
  getMember (reduceInto entry items) n
  = match lastDeclared n items with
    | Some item => Some (entry item)
    | None => lookupInherited (entry <$> lastDeclared "__proto__" items) n
    end.
Proof.
  unfold getMember. rewrite reduceInto_own, reduceInto_proto.
  destruct (decide (n = "__proto__")) as [->|Hn].
  - by destruct (lastDeclared "__proto__" items) as [item|].
  - by destruct (lastDeclared n items).
Qed.

Lemma lookupInherited_found (entry : @ContractFunction AbiParam → @FunctionAbi AbiParam)
    members items n :
  lastDeclared n items = None →
  (∀ item m, fromEntry (entry item) m = if bool_decide (m ∈ members) then Some opaque
                                         else None) →
  lookupInherited (entry <$> lastDeclared "__proto__" items) n
  = if foundUndeclared members items n then Some opaque else None.
Proof.
  intros Hn Hentry. unfold lookupInherited, foundUndeclared, fromObjectPrototype.
  destruct (lastDeclared "__proto__" items) as [item|] eqn:Hproto; cbn [fmap option_fmap option_map].
  - rewrite decide_False by congruence. rewrite Hentry.
    destruct (bool_decide (n ∈ members)) eqn:Hmember.
    + apply bool_decide_eq_true in Hmember.
      rewrite bool_decide_eq_true_2; [done|]. split; [done|]. by right.
    + apply bool_decide_eq_false in Hmember.
      destruct (bool_decide (n ∈ Object_prototype)) eqn:Hinherited.
      * apply bool_decide_eq_true in Hinherited.
        rewrite bool_decide_eq_true_2; [done|]. split; [done|]. by left.
      * apply bool_decide_eq_false in Hinherited.
        rewrite bool_decide_eq_false_2; [done|]. intros [_ [?|[_ ?]]]; done.
  - destruct (bool_decide (n ∈ Object_prototype)) eqn:Hinherited.
    + apply bool_decide_eq_true in Hinherited.
      rewrite bool_decide_eq_true_2; [done|]. split; [done|]. by left.
    + apply bool_decide_eq_false in Hinherited.
      rewrite bool_decide_eq_false_2; [done|]. intros [_ [?|[[? ?] _]]]; done.
Qed.

(** What a table of functions answers for a name. *)
Lemma functions_getMember items n :
  getMember (reduceInto functionEntry items) n
  = match lastDeclared n items with
    | Some item => Some (functionEntry item)
    | None => if foundUndeclared ["inputs"; "outputs"] items n then Some opaque else None
    end.
Proof.
  rewrite reduceInto_getMember.
  destruct (lastDeclared n items) as [item|] eqn:Hn; [done|].
  apply lookupInherited_found; [done|].
  intros item m. unfold fromEntry, functionEntry. cbn.
  destruct (decide (m = "inputs")) as [->|Hin]; [done|].
  destruct (decide (m = "outputs")) as [->|Hout]; [done|].
  rewrite bool_decide_eq_false_2; [done|].
  rewrite !elem_of_cons, elem_of_nil. tauto.
Qed.

(** What a table of events answers for a name. *)
Lemma events_getMember items n :
  getMember (reduceInto eventEntry items) n
  = match lastDeclared n items with
    | Some item => Some (eventEntry item)
    | None => if foundUndeclared ["inputs"] items n then Some opaque else None
    end.
Proof.
  rewrite reduceInto_getMember.
  destruct (lastDeclared n items) as [item|] eqn:Hn; [done|].
  apply lookupInherited_found; [done|].
  intros item m. unfold fromEntry, eventEntry. cbn.
  destruct (decide (m = "inputs")) as [->|Hin]; [done|].
  rewrite bool_decide_eq_false_2.
  - by case_decide.
  - rewrite !elem_of_cons, elem_of_nil. tauto.
Qed.

Lemma foundUndeclared_None members items n :
  foundUndeclared members items n = true → lastDeclared n items = None.
Proof. unfold foundUndeclared. by intros [? _]%bool_decide_eq_true. Qed.

Lemma constructor_returns abi address c :
  Contract_constructor abi address = Returned c →
  ∃ declared declaredEvents,
    functions abi = Some declared ∧ events abi = Some declaredEvents
    ∧ _functions c = reduceInto functionEntry declared
    ∧ _events c = reduceInto eventEntry declaredEvents.
Proof.
  unfold Contract_constructor.
  destruct (functions abi) as [declared|]; [|done].
  destruct (events abi) as [declaredEvents|]; [|done].
  intros [= <-]. by exists declared, declaredEvents.
Qed.

Lemma decodeTransactionEvents_omap c
    (outMessages : list (Message * Outcome (option (string * TokensObject)))) :
  decodeTransactionEvents transformToParsedObject emptyObject c outMessages
  = omap (λ '(message, reply),
            if bool_decide (dst message ≠ None ∨ body message = None) then None
            else decodeEvent transformToParsedObject emptyObject c reply)
         outMessages.
Proof.
  unfold decodeTransactionEvents.
  induction outMessages as [|[message reply] outMessages IH] using rev_ind; [done|].
  rewrite foldl_app, omap_app, IH. simpl.
  case_bool_decide; [by rewrite app_nil_r|].
  destruct (decodeEvent _ _ c reply); [done|by rewrite app_nil_r].
Qed.

End ContractFacts.

Section ContractProperties.
Import ContractClass.
Context {AbiParam TokensObject ParsedTokensObject Params Transaction : Type}.
Variable transformToSerializedObject : Params → Outcome TokensObject.
Variable transformToParsedObject :
  option (list AbiParam) → TokensObject → Outcome ParsedTokensObject.
Variable emptyObject : ParsedTokensObject.

(** X18. [new Contract(abi, address)] throws exactly when [abi.functions] or
    [abi.events] is not an array, and reports the functions first.  Otherwise
    reading a declared name from the contract's function table gives the last
    declaration of that name in [abi.functions], with missing [inputs] and
    [outputs] replaced by empty lists, also for the name [__proto__], which
    becomes the table's prototype instead of a key.  Reading an undeclared
    name gives [undefined] unless every object inherits the name from
    [Object.prototype], or [__proto__] is declared and the name is [inputs]
    or [outputs]; then it gives a value without [inputs] and [outputs].  The
    event table does the same for [abi.events] with entries that hold inputs
    only, and the ABI used for events is the given one with its functions
    replaced by its events. *)
Theorem constructor_builds_tables (abi : @Abi AbiParam) (address : string) :
  match Contract_constructor abi address with
  | Returned c =>
      ∃ declared declaredEvents,
        functions abi = Some declared ∧ events abi = Some declaredEvents
        ∧ (∀ n, getMember (_functions c) n
                = match lastDeclared n declared with
                  | Some item => Some (functionEntry item)
                  | None => if foundUndeclared ["inputs"; "outputs"] declared n
                            then Some opaque else None
                  end)
        ∧ (∀ n, getMember (_events c) n
                = match lastDeclared n declaredEvents with
                  | Some item => Some (eventEntry item)
                  | None => if foundUndeclared ["inputs"] declaredEvents n
                            then Some opaque else None
                  end)
        ∧ _abi c = abi
        ∧ _eventsAbi c = {| functions := Some declaredEvents; events := None;
                            otherMembers := otherMembers abi |}
        ∧ _address c = address
  | Thrown e =>
      (functions abi = None ∧ e = JsError "Invalid abi. Functions array required")
      ∨ (functions abi ≠ None ∧ events abi = None
         ∧ e = JsError "Invalid abi. Events array required")
  end.
Proof.
  unfold Contract_constructor.
  destruct (functions abi) as [declared|] eqn:Hf; [|by left].
  destruct (events abi) as [declaredEvents|] eqn:He; [|by right].
  exists declared, declaredEvents. cbn [_functions _events _abi _eventsAbi _address].
  repeat split; try done; intros n; [apply functions_getMember|apply events_getMember].
Qed.

(** X19. For a contract built by the constructor, [decodeTransaction] never
    throws, and it returns a result in exactly two cases.  Either the
    transport answered with a method that [abi.functions] declares and both
    token conversions succeeded, against the inputs and outputs of the last
    declaration of that method.  Or the transport answered with an undeclared
    method whose name the function table finds all the same, as it does
    [toString]; then input and output are empty objects. *)
Theorem decodeTransaction_uses_declaration (abi : @Abi AbiParam) (address : string)
    (c : Contract) (declared : list ContractFunction)
    (reply : Outcome (option (string * TokensObject * TokensObject)))
    (method : string) (input output : ParsedTokensObject) :
  Contract_constructor abi address = Returned c →
  functions abi = Some declared →
  decodeTransaction transformToParsedObject emptyObject c reply
    = Some (method, input, output)
  ↔ ∃ rawInput rawOutput,
      reply = Returned (Some (method, rawInput, rawOutput))
      ∧ ((∃ item,
            lastDeclared method declared = Some item
            ∧ transformToParsedObject (Some (default [] (inputs item))) rawInput
              = Returned input
            ∧ transformToParsedObject (Some (default [] (outputs item))) rawOutput
              = Returned output)
         ∨ (foundUndeclared ["inputs"; "outputs"] declared method = true
            ∧ input = emptyObject ∧ output = emptyObject)).
Proof.
  intros Hnew Hdeclared.
  destruct (constructor_returns _ _ _ Hnew) as (declared' & es & Hf & _ & Htable & _).
  assert (declared' = declared) as -> by congruence.
  unfold decodeTransaction. rewrite Htable. split.
  - destruct reply as [[[[m rawInput] rawOutput]|]|e]; simpl; [|done..].
    rewrite functions_getMember.
    destruct (lastDeclared m declared) as [item|] eqn:Hitem; simpl.
    + destruct (transformToParsedObject (Some (default [] (inputs item))) rawInput)
        as [i|] eqn:Hi; simpl; [|done].
      destruct (transformToParsedObject (Some (default [] (outputs item))) rawOutput)
        as [o|] eqn:Ho; simpl; [|done].
      intros [= -> -> ->]. exists rawInput, rawOutput. split; [done|]. left. by exists item.
    + destruct (foundUndeclared _ declared m) eqn:Hfound; simpl; [|done].
      intros [= -> <- <-]. exists rawInput, rawOutput. split; [done|]. by right.
  - intros (rawInput & rawOutput & -> & [(item & Hitem & Hi & Ho)|(Hfound & -> & ->)]);
      simpl; rewrite functions_getMember.
    + rewrite Hitem. simpl. rewrite Hi. simpl. by rewrite Ho.
    + by rewrite (foundUndeclared_None _ _ _ Hfound), Hfound.
Qed.

(** X20. For a contract built by the constructor, [decodeInputMessage] and
    [decodeOutputMessage] never throw, and each returns a result in exactly
    two cases.  Either the transport answered with a method that
    [abi.functions] declares and the conversion of the tokens succeeded,
    against the inputs, respectively the outputs, of the last declaration of
    that method.  Or the transport answered with an undeclared method whose
    name the function table finds all the same; then the result carries an
    empty object. *)
Theorem decodeMessage_uses_declaration (abi : @Abi AbiParam) (address : string)
    (c : Contract) (declared : list ContractFunction)
    (reply : Outcome (option (string * TokensObject)))
    (method : string) (parsed : ParsedTokensObject) :
  Contract_constructor abi address = Returned c →
  functions abi = Some declared →
  (decodeInputMessage transformToParsedObject emptyObject c reply = Some (method, parsed)
   ↔ ∃ tokens,
       reply = Returned (Some (method, tokens))
       ∧ ((∃ item,
             lastDeclared method declared = Some item
             ∧ transformToParsedObject (Some (default [] (inputs item))) tokens
               = Returned parsed)
          ∨ (foundUndeclared ["inputs"; "outputs"] declared method = true
             ∧ parsed = emptyObject)))
  ∧ (decodeOutputMessage transformToParsedObject emptyObject c reply
       = Some (method, parsed)
     ↔ ∃ tokens,
         reply = Returned (Some (method, tokens))
         ∧ ((∃ item,
               lastDeclared method declared = Some item
               ∧ transformToParsedObject (Some (default [] (outputs item))) tokens
                 = Returned parsed)
            ∨ (foundUndeclared ["inputs"; "outputs"] declared method = true
               ∧ parsed = emptyObject))).
Proof.
  intros Hnew Hdeclared.
  destruct (constructor_returns _ _ _ Hnew) as (declared' & es & Hf & _ & Htable & _).
  assert (declared' = declared) as -> by congruence.
  unfold decodeInputMessage, decodeOutputMessage. rewrite Htable.
  split; split.
  - destruct reply as [[[m tokens]|]|e]; simpl; [|done..].
    rewrite functions_getMember.
    destruct (lastDeclared m declared) as [item|] eqn:Hitem; simpl.
    + destruct (transformToParsedObject (Some (default [] (inputs item))) tokens)
        as [i|] eqn:Hi; simpl; [|done].
      intros [= -> ->]. exists tokens. split; [done|]. left. by exists item.
    + destruct (foundUndeclared _ declared m) eqn:Hfound; simpl; [|done].
      intros [= -> <-]. exists tokens. split; [done|]. by right.
  - intros (tokens & -> & [(item & Hitem & Hi)|(Hfound & ->)]);
      simpl; rewrite functions_getMember.
    + rewrite Hitem. simpl. by rewrite Hi.
    + by rewrite (foundUndeclared_None _ _ _ Hfound), Hfound.
  - destruct reply as [[[m tokens]|]|e]; simpl; [|done..].
    rewrite functions_getMember.
    destruct (lastDeclared m declared) as [item|] eqn:Hitem; simpl.
    + destruct (transformToParsedObject (Some (default [] (outputs item))) tokens)
        as [o|] eqn:Ho; simpl; [|done].
      intros [= -> ->]. exists tokens. split; [done|]. left. by exists item.
    + destruct (foundUndeclared _ declared m) eqn:Hfound; simpl; [|done].
      intros [= -> <-]. exists tokens. split; [done|]. by right.
  - intros (tokens & -> & [(item & Hitem & Ho)|(Hfound & ->)]);
      simpl; rewrite functions_getMember.
    + rewrite Hitem. simpl. by rewrite Ho.
    + by rewrite (foundUndeclared_None _ _ _ Hfound), Hfound.
Qed.

(** X21. [decodeTransactionEvents] decodes the out messages one by one and
    independently: the events of a concatenation are the events of its parts,
    in order.  For a contract built by the constructor, an event is returned
    exactly for an out message that has no destination and has a body and for
    which the transport answered either with an event that [abi.events]
    declares, whose tokens were converted against the inputs of its last
    declaration, or with an undeclared event whose name the event table finds
    all the same, which is returned with an empty object.  Every other
    message, and every failure, is skipped. *)
Theorem decodeTransactionEvents_per_message (abi : @Abi AbiParam) (address : string)
    (c : Contract) (declaredEvents : list ContractFunction)
    (before after : list (Message * Outcome (option (string * TokensObject))))
    (event : string) (data : ParsedTokensObject) :
  Contract_constructor abi address = Returned c →
  events abi = Some declaredEvents →
  decodeTransactionEvents transformToParsedObject emptyObject c (before ++ after)
  = decodeTransactionEvents transformToParsedObject emptyObject c before
    ++ decodeTransactionEvents transformToParsedObject emptyObject c after
  ∧ ((event, data) ∈ decodeTransactionEvents transformToParsedObject emptyObject c before
     ↔ ∃ message tokens,
         (message, Returned (Some (event, tokens))) ∈ before
         ∧ dst message = None ∧ body message ≠ None
         ∧ ((∃ item,
               lastDeclared event declaredEvents = Some item
               ∧ transformToParsedObject (Some (default [] (inputs item))) tokens
                 = Returned data)
            ∨ (foundUndeclared ["inputs"] declaredEvents event = true
               ∧ data = emptyObject))).
Proof.
  intros Hnew Hdeclared.
  destruct (constructor_returns _ _ _ Hnew) as (fs & es & _ & He & _ & Htable).
  assert (es = declaredEvents) as -> by congruence.
  rewrite !decodeTransactionEvents_omap. split; [apply omap_app|].
  rewrite list_elem_of_omap. split.
  - intros ([message reply] & Hin & Hsome).
    case_bool_decide as Hskip; [done|].
    assert (dst message = None ∧ body message ≠ None) as [Hdst Hbody].
    { destruct (dst message), (body message); try done; exfalso; apply Hskip; auto. }
    unfold decodeEvent in Hsome. rewrite Htable in Hsome.
    destruct reply as [[[m tokens]|]|e]; simpl in Hsome; [|done..].
    rewrite events_getMember in Hsome.
    destruct (lastDeclared m declaredEvents) as [item|] eqn:Hitem; simpl in Hsome.
    + destruct (transformToParsedObject (Some (default [] (inputs item))) tokens)
        as [i|] eqn:Hi; simpl in Hsome; [|done].
      injection Hsome as -> ->. exists message, tokens.
      repeat split; try done. left. by exists item.
    + destruct (foundUndeclared _ declaredEvents m) eqn:Hfound; simpl in Hsome; [|done].
      injection Hsome as -> <-. exists message, tokens.
      repeat split; try done. by right.
  - intros (message & tokens & Hin & Hdst & Hbody & Hcase).
    exists (message, Returned (Some (event, tokens))). split; [done|].
    rewrite bool_decide_eq_false_2 by (intros [?|?]; congruence).
    unfold decodeEvent. rewrite Htable. simpl. rewrite events_getMember.
    destruct Hcase as [(item & Hitem & Hi)|(Hfound & ->)].
    + rewrite Hitem. simpl. by rewrite Hi.
    + by rewrite (foundUndeclared_None _ _ _ Hfound), Hfound.
Qed.

(** X22. [call] on a method obtained from a contract built by the
    constructor: an answer without output or with a nonzero code makes it
    throw [TvmException] with that code, whatever the method.  After an
    answer with an output and code 0 it hands the output to the token
    conversion, with the outputs of the method's last declaration when
    [abi.functions] declares it, and with [undefined] in their place when the
    method is undeclared but its name is found in the function table all the
    same; its outcome is then that of the conversion.  For any other
    undeclared method it fails with a type error, after the answer. *)
Theorem call_outcome (abi : @Abi AbiParam) (address : string) (c : Contract)
    (declared : list ContractFunction) (name : string) (params : Params)
    (m : ContractMethod) (reply : Outcome (option TokensObject * Z)) :
  Contract_constructor abi address = Returned c →
  functions abi = Some declared →
  methods transformToSerializedObject c name params = Returned m →
  (∀ output code,
     reply = Returned (output, code) → output = None ∨ code ≠ 0%Z →
     call transformToParsedObject m reply = Thrown (TvmException code))
  ∧ (∀ tokens,
       reply = Returned (Some tokens, 0%Z) →
       call transformToParsedObject m reply
       = match lastDeclared name declared with
         | Some item => transformToParsedObject (Some (default [] (outputs item))) tokens
         | None =>
             if foundUndeclared ["inputs"; "outputs"] declared name
             then transformToParsedObject None tokens
             else Thrown JsTypeError
         end)
  ∧ (∀ parsed,
       call transformToParsedObject m reply = Returned parsed →
       ∃ tokens, reply = Returned (Some tokens, 0%Z)).
Proof.
  intros Hnew Hdeclared Hm.
  destruct (constructor_returns _ _ _ Hnew) as (declared' & es & Hf & _ & Htable & _).
  assert (declared' = declared) as -> by congruence.
  assert (functionAbi m
          = match lastDeclared name declared with
            | Some item => Some (functionEntry item)
            | None => if foundUndeclared ["inputs"; "outputs"] declared name
                      then Some opaque else None
            end) as Habi.
  { unfold methods in Hm.
    destruct (transformToSerializedObject params) as [serialized|]; simpl in Hm; [|done].
    injection Hm as <-. cbn [functionAbi]. rewrite Htable. apply functions_getMember. }
  unfold call. rewrite Habi. split; [|split].
  - intros output code -> [->|Hcode]; simpl; [done|].
    destruct output; [|done]. by rewrite decide_True.
  - intros tokens ->. simpl.
    destruct (lastDeclared name declared) as [item|]; [done|].
    by destruct (foundUndeclared _ declared name).
  - intros parsed. destruct reply as [[[tokens|] code]|e]; simpl; [|done..].
    case_decide as Hcode; [done|].
    assert (code = 0%Z) as -> by lia. intros _. by exists tokens.
Qed.

End ContractProperties.

Lemma decodeTransaction_uses_declaration_witness :
  let transform := λ (declared : option (list string)) (tokens : nat),
    ContractClass.Returned (tokens + length (default [] declared)) in
  let declared := [ {| ContractClass.name := "get"; ContractClass.inputs := None;
                       ContractClass.outputs := Some ["uint8"] |} ] in
  let abi := {| ContractClass.functions := Some declared;
                ContractClass.events := Some [];
                ContractClass.otherMembers := "" |} in
  ∃ c, ContractClass.Contract_constructor abi "0:a" = ContractClass.Returned c
    ∧ ContractClass.functions abi = Some declared
    ∧ ContractClass.decodeTransaction transform 0 c
        (ContractClass.Returned (Some ("get", 1, 2))) = Some ("get", 1, 3)
    ∧ ContractClass.decodeTransaction transform 0 c
        (ContractClass.Returned (Some ("toString", 1, 2))) = Some ("toString", 0, 0)
    ∧ ContractClass.decodeTransaction transform 0 c
        (ContractClass.Returned (Some ("put", 1, 2))) = None.
Proof.
  intros transform declared abi. eexists. split; [reflexivity|]. split; [reflexivity|].
  split; [|split; [|by vm_compute]].
  - apply (decodeTransaction_uses_declaration transform 0 abi "0:a" _ declared);
      [reflexivity..|].
    exists 1, 2. split; [done|]. left.
    by exists {| ContractClass.name := "get"; ContractClass.inputs := None;
                 ContractClass.outputs := Some ["uint8"] |}.
  - apply (decodeTransaction_uses_declaration transform 0 abi "0:a" _ declared);
      [reflexivity..|].
    exists 1, 2. split; [done|]. right. by vm_compute.
Defined.

Lemma decodeMessage_uses_declaration_witness :
  let transform := λ (declared : option (list string)) (tokens : nat),
    ContractClass.Returned (tokens + length (default [] declared)) in
  let declared := [ {| ContractClass.name := "get"; ContractClass.inputs := None;
                       ContractClass.outputs := Some ["uint8"] |} ] in
  let abi := {| ContractClass.functions := Some declared;
                ContractClass.events := Some [];
                ContractClass.otherMembers := "" |} in
  ∃ c, ContractClass.Contract_constructor abi "0:a" = ContractClass.Returned c
    ∧ ContractClass.functions abi = Some declared
    ∧ ContractClass.decodeOutputMessage transform 0 c
        (ContractClass.Returned (Some ("get", 2))) = Some ("get", 3)
    ∧ ContractClass.decodeInputMessage transform 0 c
        (ContractClass.Returned (Some ("valueOf", 2))) = Some ("valueOf", 0).
Proof.
  intros transform declared abi. eexists. split; [reflexivity|]. split; [reflexivity|].
  split.
  - apply (decodeMessage_uses_declaration transform 0 abi "0:a" _ declared);
      [reflexivity..|].
    exists 2. split; [done|]. left.
    by exists {| ContractClass.name := "get"; ContractClass.inputs := None;
                 ContractClass.outputs := Some ["uint8"] |}.
  - apply (decodeMessage_uses_declaration transform 0 abi "0:a" _ declared);
      [reflexivity..|].
    exists 2. split; [done|]. right. by vm_compute.
Defined.

Lemma decodeTransactionEvents_per_message_witness :
  let transform := λ (declared : option (list string)) (tokens : nat),
    ContractClass.Returned (tokens + length (default [] declared)) in
  let declaredEvents := [ {| ContractClass.name := "Paid"; ContractClass.inputs := Some ["uint8"];
                             ContractClass.outputs := None |} ] in
  let abi := {| ContractClass.functions := Some [];
                ContractClass.events := Some declaredEvents;
                ContractClass.otherMembers := "" |} in
  let external := {| ContractClass.dst := None; ContractClass.body := Some "te6" |} in
  let internal := {| ContractClass.dst := Some "0:b"; ContractClass.body := Some "te6" |} in
  let before := [(internal, ContractClass.Returned (Some ("Paid", 7)));
                 (external, ContractClass.Returned (Some ("Paid", 4)))] in
  let after := [(external, ContractClass.Thrown (ContractClass.Foreign "bad body"));
                (external, ContractClass.Returned (Some ("Lost", 1)));
                (external, ContractClass.Returned (Some ("constructor", 1)))] in
  ∃ c, ContractClass.Contract_constructor abi "0:a" = ContractClass.Returned c
    ∧ ContractClass.events abi = Some declaredEvents
    ∧ ContractClass.decodeTransactionEvents transform 0 c (before ++ after)
      = ContractClass.decodeTransactionEvents transform 0 c before
        ++ ContractClass.decodeTransactionEvents transform 0 c after
    ∧ ContractClass.decodeTransactionEvents transform 0 c (before ++ after)
      = [("Paid", 5); ("constructor", 0)].
Proof.
  intros transform declaredEvents abi external internal before after.
  eexists. split; [reflexivity|]. split; [reflexivity|]. split; [|by vm_compute].
  apply (decodeTransactionEvents_per_message transform 0 abi "0:a" _ declaredEvents
           before after "Paid" 5); reflexivity.
Defined.

Lemma call_outcome_witness :
  let serialize := λ params : nat, ContractClass.Returned params in
  let transform := λ (declared : option (list string)) (tokens : nat),
    ContractClass.Returned (tokens + length (default [] declared)) in
  let declared := [ {| ContractClass.name := "get"; ContractClass.inputs := None;
                       ContractClass.outputs := Some ["uint8"] |} ] in
  let abi := {| ContractClass.functions := Some declared;
                ContractClass.events := Some [];
                ContractClass.otherMembers := "" |} in
  ∃ c m, ContractClass.Contract_constructor abi "0:a" = ContractClass.Returned c
    ∧ ContractClass.functions abi = Some declared
    ∧ ContractClass.methods serialize c "get" 0 = ContractClass.Returned m
    ∧ ContractClass.call transform m (ContractClass.Returned (None, 60%Z))
      = ContractClass.Thrown (ContractClass.TvmException 60)
    ∧ ContractClass.call transform m (ContractClass.Returned (Some 4, 0%Z))
      = ContractClass.Returned 5.
Proof.
  intros serialize transform declared abi. eexists. eexists.
  split; [reflexivity|]. split; [reflexivity|]. split; [reflexivity|].
  split; [|by vm_compute].
  eapply (call_outcome serialize transform abi "0:a" _ declared "get" 0);
    [reflexivity..|by left].
Defined.
